(** * Goldcoin Proof-of-Participation: a shallow embedding of the consensus core

    The development follows the C++ sources: every definition below is the
    translation of one function, constant or class of the repository, and keeps
    its name.  Fixed-width integers are values of [Z] with the wrap-around
    written out, [double]s are IEEE-754 binary64 values ([spec_float] at
    precision 53), bytes are [Byte.byte], [std::vector]s are lists and
    [std::expected<T, E>] is the sum type [expected].

    Part I holds the definitions, one module per translation unit; Part II
    holds the theorems. *)

From Stdlib Require Import String.
From Stdlib Require Import ZArith NArith List Bool Lia Permutation.
From Stdlib Require Import Strings.Byte.
From Stdlib Require Import SpecFloat.
Import ListNotations.
Open Scope Z_scope.
Set Warnings "-register-all".

(* ================================================================== *)
(** * Part I: definitions                                              *)
(* ================================================================== *)

(** ** Machine integers *)

Module Machine.

(** Unsigned [w]-bit wrap-around ([std::uint64_t], [std::size_t], ...). *)
Definition wrap (w : Z) (z : Z) : Z := z mod 2 ^ w.

(** Signed [w]-bit two's complement wrap-around ([int], [int64_t]): what the
    target machines compute where the language leaves overflow open.  The
    theorems that depend on it assume the operands stay in range. *)
Definition swrap (w : Z) (z : Z) : Z :=
  (z + 2 ^ (w - 1)) mod 2 ^ w - 2 ^ (w - 1).

(** [a / b] of C++: the quotient is truncated towards zero. *)
Definition cdiv (a b : Z) : Z := Z.quot a b.

(** [std::size_t] is 64 bits wide on the platforms the node targets. *)
Definition size_bits : Z := 64.
Definition size_add (a b : Z) : Z := wrap size_bits (a + b).
Definition size_sub (a b : Z) : Z := wrap size_bits (a - b).
Definition size_mul (a b : Z) : Z := wrap size_bits (a * b).

(** [x >> n] on an [int64_t]: defined by the language only for a shift count
    in [0, 64); [None] stands for the undefined cases. *)
Definition shr64 (x n : Z) : option Z :=
  if (0 <=? n) && (n <? 64) then Some (Z.shiftr x n) else None.

End Machine.

(** ** IEEE-754 binary64, the [double] of the sources *)

Module Double.

Definition prec : Z := 53.
Definition emax : Z := 1024.

Definition double : Type := spec_float.

(** [static_cast<double>(z)] for an integer [z], rounded to nearest even. *)
Definition of_Z (z : Z) : double := binary_normalize prec emax z 0 false.

Definition add : double -> double -> double := SFadd prec emax.
Definition mul : double -> double -> double := SFmul prec emax.
Definition div : double -> double -> double := SFdiv prec emax.
Definition ltb : double -> double -> bool := SFltb.
(** [a > b] and [a >= b]: false as soon as one side is a NaN. *)
Definition gtb (a b : double) : bool := SFltb b a.
Definition geb (a b : double) : bool := SFleb b a.

Definition zero : double := S754_zero false.

(** The positive integer [p] without its [n] lowest binary digits, rounded
    to nearest with ties to even: the significand [static_cast<double>]
    keeps of an integer of [53 + n] digits. *)
Definition rounded (p : positive) (n : positive) : Z :=
  round_nearest_even (Zpos p / 2 ^ Zpos n)
    (loc_of_shr_record
       (Build_shr_record (Zpos p / 2 ^ Zpos n)
          (Z.testbit (Zpos p) (Zpos n - 1))
          (negb (Zpos p mod 2 ^ (Zpos n - 1) =? 0)))).

End Double.

(** ** serialize_modern.h (src/unnamed/part_001): [namespace bitcoin::serialize] *)

Module serialize.

Definition byte_t : Type := byte.

Definition byte_of_Z (z : Z) : byte_t :=
  match Byte.of_N (Z.to_N (z mod 256)) with
  | Some b => b
  | None => x00
  end.

Definition Z_of_byte (b : byte_t) : Z := Z.of_N (Byte.to_N b).

Definition VERSION : Z := 31100.
Definition MAX_SIZE : Z := 0x02000000.

Inductive Error : Type :=
| buffer_overflow
| invalid_format
| size_too_large
| unexpected_end
| invalid_variant_index.

(** [std::expected<T, Error>]. *)
Inductive expected (T : Type) : Type :=
| value (t : T)
| unexpected (e : Error).
Arguments value {T} t.
Arguments unexpected {T} e.

(** [class Buffer]: a span over caller-owned storage and a cursor.  The span
    never grows: [data_] keeps its length through every operation. *)
Record Buffer : Type := mkBuffer { data_ : list byte_t; pos_ : nat }.

Definition remaining (b : Buffer) : nat := length (data_ b) - pos_ b.
Definition has_space (b : Buffer) (n : nat) : bool := (n <=? remaining b)%nat.
Definition position (b : Buffer) : nat := pos_ b.
Definition reset (b : Buffer) : Buffer := mkBuffer (data_ b) 0.

(** The cursor invariant of the class: [pos_ <= data_.size()]. *)
Definition wf (b : Buffer) : Prop := (pos_ b <= length (data_ b))%nat.

(** Operations on a [Buffer&]: the buffer is threaded through, and it is still
    there (with the writes made so far) when the operation fails. *)
Definition M (T : Type) : Type := Buffer -> expected T * Buffer.

Definition ret {T : Type} (t : T) : M T := fun b => (value t, b).
Definition fail {T : Type} (e : Error) : M T := fun b => (unexpected e, b).
Definition bind {T U : Type} (m : M T) (k : T -> M U) : M U :=
  fun b =>
    match m b with
    | (value t, b') => k t b'
    | (unexpected e, b') => (unexpected e, b')
    end.

Notation "x <- m ;; k" := (bind m (fun x => k))
  (at level 61, m at next level, right associativity).
Notation "m ;;; k" := (bind m (fun _ => k))
  (at level 61, right associativity).

(** [std::ranges::copy(bytes, data_.begin() + pos_)]. *)
Definition overwrite (data : list byte_t) (pos : nat) (bytes : list byte_t)
  : list byte_t :=
  firstn pos data ++ bytes ++ skipn (pos + length bytes) data.

Definition write_bytes (bytes : list byte_t) : M (list byte_t) :=
  fun b =>
    if negb (has_space b (length bytes)) then (unexpected buffer_overflow, b)
    else (value bytes,
          mkBuffer (overwrite (data_ b) (pos_ b) bytes)
                   (pos_ b + length bytes)).

Definition subspan (data : list byte_t) (pos n : nat) : list byte_t :=
  firstn n (skipn pos data).

Definition read_bytes (n : nat) : M (list byte_t) :=
  fun b =>
    if negb (has_space b n) then (unexpected unexpected_end, b)
    else (value (subspan (data_ b) (pos_ b) n),
          mkBuffer (data_ b) (pos_ b + n)).

(** Little-endian object representation of a [w]-byte integer; a value that
    does not fit is truncated, as [static_cast] to the narrower type does. *)
Fixpoint le_bytes (w : nat) (v : Z) : list byte_t :=
  match w with
  | O => []
  | S w' => byte_of_Z v :: le_bytes w' (v / 256)
  end.

Fixpoint le_value (bs : list byte_t) : Z :=
  match bs with
  | [] => 0
  | b :: r => Z_of_byte b + 256 * le_value r
  end.

(** [Buffer::write<T>] and [Buffer::read<T>] for an unsigned integral [T] of
    [w] bytes. *)
Definition write (w : nat) (v : Z) : M unit :=
  _ <- write_bytes (le_bytes w v) ;; ret tt.

Definition read (w : nat) : M Z :=
  bytes <- read_bytes w ;; ret (le_value bytes).

(** [class CompactSize], over its [value_]. *)
Module CompactSize.

Definition encoded_size (value_ : Z) : nat :=
  if value_ <? 253 then 1%nat
  else if value_ <=? 0xFFFF then 3%nat
  else if value_ <=? 0xFFFFFFFF then 5%nat
  else 9%nat.

Definition serialize (value_ : Z) : M unit :=
  if value_ <? 253 then write 1 value_
  else if value_ <=? 0xFFFF then write 1 253 ;;; write 2 value_
  else if value_ <=? 0xFFFFFFFF then write 1 254 ;;; write 4 value_
  else write 1 255 ;;; write 8 value_.

Definition deserialize : M Z :=
  first <- read 1 ;;
  if first <? 253 then ret first
  else
    v <- (if first =? 253 then read 2
          else if first =? 254 then read 4
          else read 8) ;;
    if v >? MAX_SIZE then fail size_too_large else ret v.

End CompactSize.

(** The values the [Serializer<T>] specialisations accept: primitives,
    [std::string], [std::vector<T>], [std::array<byte_t, N>], and records
    whose [serialize] writes the fields one after the other and returns at the
    first failure (the pattern of [Address], [Inv] and [MessageHeader]). *)
Inductive SValue : Type :=
| VPrim (width : nat) (v : Z)
| VString (s : list byte_t)
| VVector (items : list SValue)
| VArray (arr : list byte_t)
| VRecord (fields : list SValue).

Fixpoint Serializer_serialize (v : SValue) : M unit :=
  match v with
  | VPrim w x => write w x
  | VString s =>
      CompactSize.serialize (Z.of_nat (length s)) ;;;
      (_ <- write_bytes s ;; ret tt)
  | VVector items =>
      CompactSize.serialize (Z.of_nat (length items)) ;;;
      (fix each (l : list SValue) : M unit :=
         match l with
         | [] => ret tt
         | item :: rest => Serializer_serialize item ;;; each rest
         end) items
  | VArray arr => _ <- write_bytes arr ;; ret tt
  | VRecord fields =>
      (fix each (l : list SValue) : M unit :=
         match l with
         | [] => ret tt
         | item :: rest => Serializer_serialize item ;;; each rest
         end) fields
  end.

(** [to_bytes]: a vector of 1024 zero bytes, a [Buffer] over it, one call of
    the serializer, and [resize] to the cursor on success. *)
Definition to_bytes (v : SValue) : expected (list byte_t) :=
  let bytes := repeat x00 1024 in
  let buffer := mkBuffer bytes 0 in
  match Serializer_serialize v buffer with
  | (unexpected e, _) => unexpected e
  | (value _, buffer') => value (firstn (position buffer') (data_ buffer'))
  end.

(** The encoding of a value as a byte string, independent of any buffer. *)
Definition cs_encode (n : Z) : list byte_t :=
  if n <? 253 then le_bytes 1 n
  else if n <=? 0xFFFF then le_bytes 1 253 ++ le_bytes 2 n
  else if n <=? 0xFFFFFFFF then le_bytes 1 254 ++ le_bytes 4 n
  else le_bytes 1 255 ++ le_bytes 8 n.

Fixpoint encode (v : SValue) : list byte_t :=
  match v with
  | VPrim w x => le_bytes w x
  | VString s => cs_encode (Z.of_nat (length s)) ++ s
  | VVector items =>
      cs_encode (Z.of_nat (length items)) ++ flat_map encode items
  | VArray arr => arr
  | VRecord fields => flat_map encode fields
  end.

(** What a serializer call hands to [write_bytes], call by call. *)
Definition cs_chunks (n : Z) : list (list byte_t) :=
  if n <? 253 then [le_bytes 1 n]
  else if n <=? 0xFFFF then [le_bytes 1 253; le_bytes 2 n]
  else if n <=? 0xFFFFFFFF then [le_bytes 1 254; le_bytes 4 n]
  else [le_bytes 1 255; le_bytes 8 n].

Fixpoint chunks (v : SValue) : list (list byte_t) :=
  match v with
  | VPrim w x => [le_bytes w x]
  | VString s => cs_chunks (Z.of_nat (length s)) ++ [s]
  | VVector items =>
      cs_chunks (Z.of_nat (length items)) ++ flat_map chunks items
  | VArray arr => [arr]
  | VRecord fields => flat_map chunks fields
  end.

Fixpoint write_chunks (cs : list (list byte_t)) : M unit :=
  match cs with
  | [] => ret tt
  | c :: rest => _ <- write_bytes c ;; write_chunks rest
  end.

End serialize.

(** ** crypto_modern.h (the last header of src/hybridfee_modern.cpp):
       [CBigNum::SetCompact] *)

Module crypto.

(** The number a compact [nBits] word stands for: a 3-byte mantissa (sign in
    bit 23) scaled by 256 to the power (size - 3). *)
Definition SetCompact (nCompact : Z) : Z :=
  let nSize := Z.shiftr nCompact 24 in
  let fNegative := negb (Z.land nCompact 0x00800000 =? 0) in
  let nWord := Z.land nCompact 0x007fffff in
  let magnitude :=
    if nSize <=? 3 then Z.shiftr nWord (8 * (3 - nSize))
    else Z.shiftl nWord (8 * (nSize - 3)) in
  if fNegative then - magnitude else magnitude.

End crypto.

(** ** src/main_simplified.h *)

Module main.

Definition COIN : Z := 100000000.
Definition CENT : Z := 1000000.
Definition MAX_MONEY : Z := 1172245700 * COIN.

Definition MAX_BLOCK_SIZE : Z := 32 * 1024 * 1024.
Definition COINBASE_MATURITY : Z := 100.
Definition BLOCK_TIME_SECONDS : Z := 120.
Definition POP_ACTIVATION_HEIGHT : Z := 3500000.

(** [uint256] values are integers in [[0, 2^256)]. *)
Definition uint256 : Type := Z.

Record COutPoint : Type := mkOutPoint { hash : uint256; n : Z }.

(** Modelled from the spec: [COutPoint] is only forward-declared in
    main_simplified.h; section 3 of the spec gives the null outpoint as
    [tx_hash = 0...0], [index = 0xFFFFFFFF]. *)
Definition COutPoint_IsNull (o : COutPoint) : bool :=
  (hash o =? 0) && (n o =? 0xFFFFFFFF).

Definition COutPoint_eqb (a b : COutPoint) : bool :=
  (hash a =? hash b) && (n a =? n b).

Record CTxIn : Type := mkTxIn {
  prevout : COutPoint;
  scriptSig : list byte;
  nSequence : Z
}.

Record CTxOut : Type := mkTxOut {
  nValue : Z;
  scriptPubKey : list byte
}.

Record CTransaction : Type := mkTransaction {
  tx_nVersion : Z;
  vin : list CTxIn;
  vout : list CTxOut;
  nLockTime : Z
}.

Definition IsCoinBase (tx : CTransaction) : bool :=
  match vin tx with
  | [txin] => COutPoint_IsNull (prevout txin)
  | _ => false
  end.

Definition MoneyRange (nValue : Z) : bool :=
  (nValue >=? 0) && (nValue <=? MAX_MONEY).

Record CBlock : Type := mkBlock {
  nVersion : Z;
  hashPrevBlock : uint256;
  hashMerkleRoot : uint256;
  nTime : Z;
  nBits : Z;
  nNonce : Z;
  vtx : list CTransaction
}.

Section CheckBlock.

(** [CTransaction::CheckTransaction] is declared in the header and defined
    elsewhere: [CheckBlock] is read against any per-transaction check. *)
Variable CheckTransaction : CTransaction -> bool.

Definition CheckBlock (b : CBlock) : bool :=
  if match vtx b with [] => true | _ => false end
     || (Z.of_nat (length (vtx b)) >? MAX_BLOCK_SIZE)
  then false
  else if negb (match vtx b with tx0 :: _ => IsCoinBase tx0 | [] => false end)
  then false
  else forallb CheckTransaction (vtx b).

End CheckBlock.

(** Modelled from the spec: the body of [CTransaction::CheckTransaction] is
    not among the sources; section 4.E step 2 of the spec gives the syntax
    check of a transaction as: non-empty input and output sets, each output
    value in money range, total output in money range. *)
Definition CheckTransaction_spec (tx : CTransaction) : bool :=
  negb (match vin tx with [] => true | _ => false end)
  && negb (match vout tx with [] => true | _ => false end)
  && forallb (fun o => MoneyRange (nValue o)) (vout tx)
  && MoneyRange (fold_right Z.add 0 (map nValue (vout tx))).

(** Every outpoint spent by the block, in block order. *)
Definition spent_outpoints (b : CBlock) : list COutPoint :=
  flat_map (fun tx => map prevout (vin tx)) (vtx b).

Definition CheckProofOfWork (hash : uint256) (nBits : Z) : bool := true.

End main.

(** ** goldcoin.h (the last header of src/unnamed/part_004):
       [namespace goldcoin] *)

Module goldcoin.

Definition COIN : Z := 100000000.
Definition HARD_FORK_HEIGHT : Z := 3500000.
Definition MINIMUM_STAKE : Z := 100 * COIN.
Definition STAKE_MATURITY : Z := 1440.

(** The stepped reward schedule; the sum is an [int64_t] addition. *)
Definition GetBlockValue (nHeight nFees : Z) : Z :=
  let nSubsidy :=
    if nHeight <? 840000 then 50 * COIN
    else if nHeight <? 1680000 then 25 * COIN
    else if nHeight <? 2520000 then 10 * COIN
    else if nHeight <? 3360000 then 5 * COIN
    else 2 * COIN in
  Machine.swrap 64 (nSubsidy + nFees).

Definition IsProofOfParticipationActive (nHeight : Z) : bool :=
  nHeight >=? HARD_FORK_HEIGHT.

End goldcoin.

(** ** src/participation.cpp: the block producer's reward *)

Module miner.

(** [nSubsidy >>= (nHeight / 840000)], the floor of one coin, then the fees.
    The shift is defined for a count in [[0, 64)] only: the result is [None]
    outside. *)
Definition GetBlockValue (nHeight nFees : Z) : option Z :=
  let nSubsidy := 50 * main.COIN in
  match Machine.shr64 nSubsidy (Machine.cdiv nHeight 840000) with
  | None => None
  | Some shifted =>
      let nSubsidy := if shifted <? main.COIN then main.COIN else shifted in
      Some (Machine.swrap 64 (nSubsidy + nFees))
  end.

End miner.

(** ** src/unnamed/part_003: [class HardForkManager] *)

Module hardfork.

Section Validate.

(** [CBlock::GetHash] and [CBlock::GetWorkRequired] (the target the block's
    [nBits] stands for) are defined outside the sources. *)
Variable GetHash : main.CBlock -> main.uint256.
Variable GetWorkRequired : main.CBlock -> main.uint256.

(** [error(...)] logs and returns [false]. *)
Definition ValidatePoWBlock (block : main.CBlock) (nHeight : Z) : bool :=
  if GetHash block >? GetWorkRequired block then false else true.

Definition GetStakeAmount (tx : main.CTransaction) : Z := 100 * goldcoin.COIN.

Definition GetStakeAge (tx : main.CTransaction) (nCurrentHeight : Z) : Z :=
  goldcoin.STAKE_MATURITY + 1.

Definition VerifyLotteryWin (block : main.CBlock) (nHeight : Z) : bool := true.

(** [block.vtx[0]] is read without a check: [None] stands for the undefined
    read on a block without transactions. *)
Definition ValidatePoPBlock (block : main.CBlock) (nHeight : Z) : option bool :=
  match main.vtx block with
  | [] => None
  | stakeTx :: _ =>
      if GetStakeAmount stakeTx <? goldcoin.MINIMUM_STAKE then Some false
      else if GetStakeAge stakeTx nHeight <? goldcoin.STAKE_MATURITY then Some false
      else if negb (VerifyLotteryWin block nHeight) then Some false
      else Some true
  end.

Definition ValidateBlock (block : main.CBlock) (nHeight : Z) : option bool :=
  if goldcoin.IsProofOfParticipationActive nHeight
  then ValidatePoPBlock block nHeight
  else Some (ValidatePoWBlock block nHeight).

End Validate.

End hardfork.

(** ** participation.h (src/unnamed/part_005): the participant registry and
       the draw *)

Module participation.

Definition MINIMUM_STAKE : Z := 100 * main.COIN.
Definition STAKE_MATURITY : Z := 1440.
Definition BLOCK_TIME_SECONDS : Z := 120.

Record ParticipationEntry : Type := mkEntry {
  txid : main.uint256;
  amount : Z;
  address : Z;
  height : Z
}.

(** [(currentHeight - height) >= STAKE_MATURITY] in [int] arithmetic. *)
Definition isMatured (p : ParticipationEntry) (currentHeight : Z) : bool :=
  Machine.swrap 32 (currentHeight - height p) >=? STAKE_MATURITY.

Section VRF.

(** [Hash(seed, blockHeight)] (double SHA-256 over the two byte ranges) and
    [uint256::Get64] come from headers outside the sources. *)
Variable Hash : main.uint256 -> Z -> main.uint256.
Variable Get64 : main.uint256 -> Z.

(** [VRF::selectWinner], for the [VRF] built over [seed]. *)
Definition selectWinner (seed : main.uint256)
    (participants : list ParticipationEntry) (blockHeight : Z)
  : option ParticipationEntry :=
  match participants with
  | [] => None
  | _ =>
      let selection := Hash seed blockHeight in
      let winnerIndex :=
        Get64 selection mod Z.of_nat (length participants) in
      nth_error participants (Z.to_nat winnerIndex)
  end.

End VRF.

(** [class ParticipationValidator], over its [activeParticipants]. *)
Definition addParticipant (activeParticipants : list ParticipationEntry)
    (entry : ParticipationEntry) : list ParticipationEntry :=
  activeParticipants ++ [entry].

Definition removeParticipant (activeParticipants : list ParticipationEntry)
    (id : main.uint256) : list ParticipationEntry :=
  filter (fun p => negb (txid p =? id)) activeParticipants.

Definition getActiveParticipants (activeParticipants : list ParticipationEntry)
    (currentHeight : Z) : list ParticipationEntry :=
  filter (fun p => isMatured p currentHeight) activeParticipants.

End participation.

(** ** src/participation_modern.h and its implementation (the head of
       src/unnamed/part_004): [namespace goldcoin::pop] *)

Module pop.

Definition MINIMUM_STAKE : Z := 1000 * main.COIN.
Definition STAKE_MATURITY_BLOCKS : Z := 1440.
Definition POP_ACTIVATION_HEIGHT : Z := 3500000.

Definition MAX_NODES_PER_SUBNET : Z := 2.

Inductive ParticipationError : Type :=
| InsufficientStake
| ImmatureCoins
| InsufficientActivity
| TooManySubnetNodes
| InvalidVRF
| NetworkError.

Inductive expected (T : Type) : Type :=
| value (t : T)
| unexpected (e : ParticipationError).
Arguments value {T} t.
Arguments unexpected {T} e.

(** The fields of [WalletMetrics] the validator reads; time points are counts
    of clock ticks. *)
Record WalletMetrics : Type := mkMetrics {
  balance : Z;
  coin_age_blocks : Z;
  transaction_count : Z;
  unique_counterparties : Z;
  last_transaction : Z
}.

Section Clock.

(** [std::chrono::system_clock::now()] and the clock's ticks per day. *)
Variable now : Z.
Variable ticks_per_day : Z.


End Clock.

(** [class VerifiableRandomFunction]. *)

Definition Output : Type := list byte.

Record LotteryResult : Type := mkLottery {
  lr_hash : Output;
  lr_proof : list byte;
  is_winner : bool;
  probability : Double.double
}.

(** The first eight bytes of the hash, most significant first. *)
Definition hash_value (h : Output) : Z :=
  fold_left
    (fun acc i =>
       Machine.wrap 64
         (Z.lor (Z.shiftl acc 8) (serialize.Z_of_byte (nth i h x00))))
    (seq 0 8) 0.

Definition IsWinningHash (h : Output) (target_threshold : Double.double) : bool :=
  let probability :=
    Double.div (Double.of_Z (hash_value h)) (Double.of_Z (2 ^ 64 - 1)) in
  Double.ltb probability target_threshold.

Section Lottery.

(** [bitcoin::crypto::SHA256] over the seed followed by the key. *)
Variable SHA256 : list byte -> list byte.

Definition HashToTarget (seed key : list byte) : Output :=
  firstn 32 (SHA256 (seed ++ key)).

Definition ComputeLottery (block_seed participant_key : list byte)
    (total_participating_stake : Z) : expected LotteryResult :=
  let h := HashToTarget block_seed participant_key in
  let target_threshold := Double.div (Double.of_Z 1) (Double.of_Z 1000) in
  value (mkLottery h (h ++ repeat x00 32)
                   (IsWinningHash h target_threshold) target_threshold).

End Lottery.

End pop.

(** ** goldcoin_consensus.h (the last header of src/pop_security.cpp):
       [namespace goldcoin::consensus] *)

Module consensus.

Definition MAX_BLOCK_SIZE : Z := 32000000.
Definition FREE_TRANSACTION_ZONE : Z := MAX_BLOCK_SIZE * 5 / 100.

End consensus.

(** ** src/hybridfee_modern.h and src/hybridfee_modern.cpp:
       [namespace goldcoin::fees] *)

Module fees.

Inductive FeeError : Type :=
| InvalidTransaction
| BlockFull
| InsufficientFee
| PriorityTooLow
| NetworkError.

Inductive expected (T : Type) : Type :=
| value (t : T)
| unexpected (e : FeeError).
Arguments value {T} t.
Arguments unexpected {T} e.

Record InputInfo : Type := mkInput {
  input_value : Z;
  confirmations : Z;
  time_received : Z
}.

Record PriorityResult : Type := mkPriority {
  priority_score : Double.double;
  qualifies_for_free : bool;
  suggested_fee : Z;
  category : string
}.

Definition FREE_TX_PRIORITY_THRESHOLD : Double.double := Double.of_Z 57600000.

Definition ComputeInputPriority (input : InputInfo) : Double.double :=
  Double.mul (Double.of_Z (input_value input))
             (Double.of_Z (confirmations input)).

(** The [std::size_t] product stored into the [amount_t] fee. *)
Definition fee_for (transaction_size_bytes rate : Z) : Z :=
  Machine.swrap 64 (Machine.size_mul transaction_size_bytes rate).

Definition CalculatePriority (inputs : list InputInfo)
    (transaction_size_bytes : Z) : expected PriorityResult :=
  if match inputs with [] => true | _ => false end
     || (transaction_size_bytes =? 0)
  then unexpected InvalidTransaction
  else
    let total_priority :=
      fold_left (fun acc input => Double.add acc (ComputeInputPriority input))
                inputs Double.zero in
    let score := Double.div total_priority (Double.of_Z transaction_size_bytes) in
    let free := Double.geb score FREE_TX_PRIORITY_THRESHOLD in
    if free then value (mkPriority score free 0 "free")
    else
      let priority_ratio := Double.div score FREE_TX_PRIORITY_THRESHOLD in
      if Double.gtb priority_ratio (Double.div (Double.of_Z 1) (Double.of_Z 2))
      then value (mkPriority score free (fee_for transaction_size_bytes 500)
                             "low_fee")
      else if Double.gtb priority_ratio
                (Double.div (Double.of_Z 1) (Double.of_Z 10))
      then value (mkPriority score free (fee_for transaction_size_bytes 1000)
                             "standard")
      else value (mkPriority score free (fee_for transaction_size_bytes 2000)
                             "priority").


(** [class BlockSpaceManager]. *)

Definition MAX_BLOCK_SIZE : Z := consensus.MAX_BLOCK_SIZE.
Definition FREE_ZONE_SIZE : Z := MAX_BLOCK_SIZE * 5 / 100.
Definition FEE_ZONE_SIZE : Z := MAX_BLOCK_SIZE - FREE_ZONE_SIZE.

(** [tx_hash] stands for the candidate's transaction, which the template
    builder reads through [GetHash] only. *)
Record TransactionCandidate : Type := mkCandidate {
  tx_hash : Z;
  priority_info : PriorityResult;
  fee_paid : Z;
  received_time : Z;
  size_bytes : Z
}.

Record BlockTemplate : Type := mkTemplate {
  free_transactions : list TransactionCandidate;
  fee_transactions : list TransactionCandidate;
  total_size_bytes : Z;
  total_fees_collected : Z;
  free_zone_utilization_percent : Z;
  total_utilization_percent : Z
}.

(** The loop that fills the free zone: it stops at the first candidate that
    does not fit. *)
Fixpoint fill_free_zone (l : list TransactionCandidate) (used_space : Z)
  : list TransactionCandidate :=
  match l with
  | [] => []
  | candidate :: rest =>
      if Machine.size_add used_space (size_bytes candidate) <=? FREE_ZONE_SIZE
      then candidate
           :: fill_free_zone rest
                (Machine.size_add used_space (size_bytes candidate))
      else []
  end.

(** The loop that fills the rest of the block: a candidate that does not fit
    is skipped and the smaller ones after it are still tried. *)
Fixpoint fill_fee_zone (l : list TransactionCandidate)
    (available_space used_space : Z) : list TransactionCandidate :=
  match l with
  | [] => []
  | candidate :: rest =>
      if Machine.size_add used_space (size_bytes candidate) <=? available_space
      then candidate
           :: fill_fee_zone rest available_space
                (Machine.size_add used_space (size_bytes candidate))
      else fill_fee_zone rest available_space used_space
  end.

(** The fee of a candidate per 1000 bytes, as the comparator of
    [SelectFeeTransactions] computes it: the [amount_t] product is divided
    as a [std::size_t] and stored into an [amount_t].  Dividing by a
    [size_bytes] of 0 is undefined: there is no value. *)
Definition fee_rate (c : TransactionCandidate) : option Z :=
  if size_bytes c =? 0 then None
  else Some (Machine.swrap 64
               (Machine.wrap 64 (fee_paid c * 1000) / size_bytes c)).

(** The comparator of [SelectFeeTransactions]: higher fee per 1000 bytes
    first, then the older candidate.  It computes both rates before it
    compares them, so it has a value only when both divisions have one. *)
Definition higher_fee_rate (a b : TransactionCandidate) : option bool :=
  match fee_rate a, fee_rate b with
  | Some fee_rate_a, Some fee_rate_b =>
      Some (if negb (fee_rate_a =? fee_rate_b) then fee_rate_a >? fee_rate_b
            else received_time a <? received_time b)
  | _, _ => None
  end.

(** What [std::ranges::sort] needs of the comparator.  A range of fewer than
    two elements is sorted without a comparison; in a longer one every
    element is compared with another at least once, whatever the algorithm,
    so the sort is defined exactly when the comparator has a value on the
    elements of the range. *)
Definition comparisons_defined (l : list TransactionCandidate) : bool :=
  match l with
  | [] | [_] => true
  | _ =>
      forallb (fun a =>
                 forallb (fun b =>
                            match higher_fee_rate a b with
                            | Some _ => true
                            | None => false
                            end) l) l
  end.

Section Sorting.

(** [std::ranges::sort] with the priority comparator (highest score first)
    and with the fee-rate comparator (highest rate first, then oldest): the
    sort is not stable, so the order among equals is the library's choice. *)
Variable sort_by_priority : list TransactionCandidate -> list TransactionCandidate.
Variable sort_by_fee_rate : list TransactionCandidate -> list TransactionCandidate.

Definition SelectFreeTransactions (candidates : list TransactionCandidate)
  : list TransactionCandidate :=
  let free_eligible :=
    filter (fun c => qualifies_for_free (priority_info c)) candidates in
  fill_free_zone (sort_by_priority free_eligible) 0.

(** [None] is undefined behaviour: the sort divides by a [size_bytes] of 0. *)
Definition SelectFeeTransactions (candidates : list TransactionCandidate)
    (available_space : Z) : option (list TransactionCandidate) :=
  let fee_paying := filter (fun c => fee_paid c >? 0) candidates in
  if comparisons_defined fee_paying
  then Some (fill_fee_zone (sort_by_fee_rate fee_paying) available_space 0)
  else None.

(** [std::accumulate] of the sizes, in [std::size_t]. *)
Definition accumulate_size (txs : list TransactionCandidate) (init : Z) : Z :=
  fold_left (fun sum c => Machine.size_add sum (size_bytes c)) txs init.

(** What [BuildBlockTemplate] does: [None] where the behaviour is undefined
    (the division by zero of [SelectFeeTransactions], which is no C++
    exception and is not caught), the template otherwise.  Its last step,
    [UpdateMarketStats], writes the manager's statistics only and is left
    out. *)
Definition BuildBlockTemplate (mempool : list TransactionCandidate)
  : option (expected BlockTemplate) :=
  let free := SelectFreeTransactions mempool in
  let free_zone_used := accumulate_size free 0 in
  let remaining_space := Machine.size_sub MAX_BLOCK_SIZE free_zone_used in
  let remaining_candidates :=
    filter (fun candidate =>
              negb (existsb (fun free_tx => tx_hash free_tx =? tx_hash candidate)
                            free))
           mempool in
  match SelectFeeTransactions remaining_candidates remaining_space with
  | None => None
  | Some fee =>
      let total_size := accumulate_size fee free_zone_used in
      let total_fees :=
        fold_left (fun sum c => Machine.swrap 64 (sum + fee_paid c)) fee 0 in
      Some (value (mkTemplate free fee total_size total_fees
              (Machine.swrap 32
                 (Machine.size_mul free_zone_used 100 / FREE_ZONE_SIZE))
              (Machine.swrap 32
                 (Machine.size_mul total_size 100 / MAX_BLOCK_SIZE))))
  end.

End Sorting.

End fees.

(** ** src/unnamed/part_008: [class HybridFeeSystem] *)

Module hybridfee.

Definition DEFAULT_BLOCK_MAX_SIZE : Z := 32000000.
Definition DEFAULT_BLOCK_PRIORITY_SIZE : Z :=
  Machine.wrap 32 (DEFAULT_BLOCK_MAX_SIZE * 5) / 100.
Definition MIN_TX_FEE : Z := 100000.
Definition MIN_RELAY_TX_FEE : Z := 100000.
Definition FREE_TX_PRIORITY : Double.double := Double.of_Z 57600000.

(** The counters of the block under construction. *)
Record HybridFeeSystem : Type := mkFeeSystem {
  nCurrentBlockSize : Z;
  nCurrentBlockTx : Z;
  nCurrentBlockFees : Z
}.

Section SerializeSize.

(** [::GetSerializeSize(tx, SER_NETWORK)], an [unsigned int], comes from a
    header outside the sources. *)
Variable GetSerializeSize : main.CTransaction -> Z.

(** Every input counts as 100 GLC with 144 confirmations, as the source has
    it. *)
Definition GetPriority (tx : main.CTransaction) (nHeight : Z) : Double.double :=
  if main.IsCoinBase tx then Double.zero
  else
    let dPriority :=
      fold_left
        (fun acc (_ : main.CTxIn) =>
           Double.add acc
             (Double.mul (Double.of_Z (100 * main.COIN)) (Double.of_Z 144)))
        (main.vin tx) Double.zero in
    Double.div dPriority (Double.of_Z (GetSerializeSize tx)).

Definition GetTransactionFee (tx : main.CTransaction) : Z :=
  if main.IsCoinBase tx then 0 else 0.

Definition GetMinimumFee (s : HybridFeeSystem) (nBytes : Z) : Z :=
  if nCurrentBlockSize s <? DEFAULT_BLOCK_PRIORITY_SIZE then 0
  else Machine.swrap 64 (MIN_TX_FEE * Machine.wrap 32 (1 + nBytes / 1000)).

Definition ValidateTransaction (s : HybridFeeSystem) (tx : main.CTransaction)
    (nHeight : Z) : bool :=
  let nTxSize := GetSerializeSize tx in
  let fee_check :=
    let nMinFee := GetMinimumFee s nTxSize in
    let nTxFee := GetTransactionFee tx in
    if (nCurrentBlockSize s >? DEFAULT_BLOCK_PRIORITY_SIZE)
       && (nTxFee <? nMinFee)
    then
      if nCurrentBlockSize s
         >? Machine.wrap 32 (DEFAULT_BLOCK_MAX_SIZE * 90) / 100
      then false
      else true
    else true in
  if nCurrentBlockSize s <? DEFAULT_BLOCK_PRIORITY_SIZE then
    if Double.gtb (GetPriority tx nHeight) FREE_TX_PRIORITY then true
    else fee_check
  else fee_check.

Definition AddToBlock (s : HybridFeeSystem) (tx : main.CTransaction)
  : bool * HybridFeeSystem :=
  let nTxSize := GetSerializeSize tx in
  if Machine.wrap 32 (nCurrentBlockSize s + nTxSize) >? DEFAULT_BLOCK_MAX_SIZE
  then (false, s)
  else (true,
        mkFeeSystem (Machine.wrap 32 (nCurrentBlockSize s + nTxSize))
                    (Machine.wrap 32 (nCurrentBlockTx s + 1))
                    (Machine.swrap 64 (nCurrentBlockFees s + GetTransactionFee tx))).

End SerializeSize.

End hybridfee.

(** ** net_modern.h (src/unnamed/part_006): [class Node] *)

Module net.

Definition PROTOCOL_VERSION : Z := 31100.
Definition MAX_MESSAGE_SIZE : Z := 1000000.

(** The handshake flags and the send queue of a [Node]. *)
Record Node : Type := mkNode {
  socket_ : Z;
  version_sent_ : bool;
  version_received_ : bool;
  send_queue_ : list (string * list byte)
}.

(** The constructor: nothing sent, nothing received. *)
Definition Node_new (socket : Z) : Node := mkNode socket false false [].

(** [PushMessage]: nothing is queued when [to_bytes] fails. *)
Definition PushMessage (command : string) (payload : serialize.SValue)
    (node : Node) : Node :=
  match serialize.to_bytes payload with
  | serialize.unexpected _ => node
  | serialize.value data =>
      mkNode (socket_ node) (version_sent_ node) (version_received_ node)
             (send_queue_ node ++ [(command, data)])
  end.

(** [PushVersion], given the [Version] record built from the clock and the
    nonce generator. *)
Definition PushVersion (version : serialize.SValue) (node : Node) : Node :=
  let node := PushMessage "version" version node in
  mkNode (socket_ node) true (version_received_ node) (send_queue_ node).

Definition IsConnected (node : Node) : bool := negb (socket_ node =? -1).

Definition IsFullyConnected (node : Node) : bool :=
  version_sent_ node && version_received_ node.

Definition ProcessMessage (command : string) (payload : list byte)
    (node : Node) : Node :=
  if String.eqb command "version" then
    let node := mkNode (socket_ node) (version_sent_ node) true
                       (send_queue_ node) in
    PushMessage "verack" (serialize.VArray []) node
  else if String.eqb command "verack" then node
  else if String.eqb command "ping" then
    PushMessage "pong" (serialize.VArray []) node
  else node.

(** What happens to a connection, in the order the flags see it: the local
    side pushes its version, or the receive loop hands over a message. *)
Inductive Event : Type :=
| LocalPushVersion (version : serialize.SValue)
| Received (command : string) (payload : list byte).

Definition step (node : Node) (e : Event) : Node :=
  match e with
  | LocalPushVersion version => PushVersion version node
  | Received command payload => ProcessMessage command payload node
  end.

Definition run (events : list Event) (node : Node) : Node :=
  fold_left step events node.

Definition is_push (e : Event) : bool :=
  match e with LocalPushVersion _ => true | Received _ _ => false end.

Definition is_received (command : string) (e : Event) : bool :=
  match e with
  | LocalPushVersion _ => false
  | Received c _ => String.eqb c command
  end.

End net.

(** ** The serialized size of a block *)

Module blocksize.

(** Modelled from the spec: [GetSerializeSize] is outside the sources; the
    sizes below follow the records of section 3 (fixed-width fields, byte
    strings and sequences) and the size prefix of section 4.A. *)
Definition prefix_size (n : nat) : Z :=
  Z.of_nat (serialize.CompactSize.encoded_size (Z.of_nat n)).

Definition txin_size (i : main.CTxIn) : Z :=
  36 + prefix_size (length (main.scriptSig i))
  + Z.of_nat (length (main.scriptSig i)) + 4.

Definition txout_size (o : main.CTxOut) : Z :=
  8 + prefix_size (length (main.scriptPubKey o))
  + Z.of_nat (length (main.scriptPubKey o)).

Definition tx_size (tx : main.CTransaction) : Z :=
  4 + prefix_size (length (main.vin tx))
  + fold_right Z.add 0 (map txin_size (main.vin tx))
  + prefix_size (length (main.vout tx))
  + fold_right Z.add 0 (map txout_size (main.vout tx))
  + 4.

Definition block_size (b : main.CBlock) : Z :=
  80 + prefix_size (length (main.vtx b))
  + fold_right Z.add 0 (map tx_size (main.vtx b)).

End blocksize.

(** ** One sorting function the template builder can be run with *)

Module sorting.

(** Insertion sort by a "comes before" comparator: one of the orders
    [std::ranges::sort] may produce. *)
Fixpoint insert_by {A : Type} (before : A -> A -> bool) (x : A) (l : list A)
  : list A :=
  match l with
  | [] => [x]
  | y :: rest =>
      if before y x then y :: insert_by before x rest else x :: y :: rest
  end.

Fixpoint sort_by {A : Type} (before : A -> A -> bool) (l : list A) : list A :=
  match l with
  | [] => []
  | x :: rest => insert_by before x (sort_by before rest)
  end.

(** The comparator of [SelectFreeTransactions]: higher score first. *)
Definition higher_priority (a b : fees.TransactionCandidate) : bool :=
  Double.gtb (fees.priority_score (fees.priority_info a))
             (fees.priority_score (fees.priority_info b)).

(** The comparator of [SelectFeeTransactions] on candidates it has a value
    for.  The template builder reaches the sort with such candidates only:
    where [fees.higher_fee_rate] has no value the builder has none either,
    and what is returned here is not read. *)
Definition higher_fee_rate (a b : fees.TransactionCandidate) : bool :=
  match fees.higher_fee_rate a b with
  | Some before => before
  | None => false
  end.

End sorting.

(** ** Comparing byte arrays *)

Module Bytes.

(** [std::equal], [std::ranges::equal] and [operator==] on byte arrays. *)
Fixpoint eqb (a b : list byte) : bool :=
  match a, b with
  | [], [] => true
  | x :: a', y :: b' => Byte.eqb x y && eqb a' b'
  | _, _ => false
  end.

End Bytes.

(** ** serialize_modern.h (src/unnamed/part_001): the reading half of
       [Serializer<T>] and [from_bytes] *)

Module deserialize.
Import serialize.

(** The types with a [Serializer<T>] specialisation: primitives of [width]
    bytes, [std::string], [std::vector<T>] and [std::array<byte_t, N>]. *)
Inductive SType : Type :=
| TPrim (width : nat)
| TString
| TVector (item : SType)
| TArray (N : nat).

(** The loop of [Serializer<std::vector<T>>::deserialize]: [size] items, one
    after the other, returning at the first failure. *)
Fixpoint read_items (size : nat) (item : M SValue) : M (list SValue) :=
  match size with
  | O => ret []
  | S size' =>
      x <- item ;; rest <- read_items size' item ;; ret (x :: rest)
  end.

Fixpoint Serializer_deserialize (t : SType) : M SValue :=
  match t with
  | TPrim w => v <- read w ;; ret (VPrim w v)
  | TString =>
      size <- CompactSize.deserialize ;;
      bytes <- read_bytes (Z.to_nat size) ;;
      ret (VString bytes)
  | TVector item =>
      size <- CompactSize.deserialize ;;
      items <- read_items (Z.to_nat size) (Serializer_deserialize item) ;;
      ret (VVector items)
  | TArray N => bytes <- read_bytes N ;; ret (VArray bytes)
  end.

(** [from_bytes]: a copy of the bytes, a [Buffer] over it, one call of the
    deserializer; what is left after the value is not looked at. *)
Definition from_bytes (t : SType) (bytes : list byte_t) : expected SValue :=
  let buffer := mkBuffer bytes 0 in
  fst (Serializer_deserialize t buffer).

(** A value of the C++ type [t]: a primitive within its width, a string or
    vector whose size the prefix decoder accepts, an array of [N] bytes. *)
Fixpoint fits (t : SType) (v : SValue) : bool :=
  match t, v with
  | TPrim w, VPrim w' x =>
      (w =? w')%nat && (0 <=? x) && (x <? 256 ^ Z.of_nat w)
  | TString, VString s => Z.of_nat (length s) <=? MAX_SIZE
  | TVector item, VVector items =>
      (Z.of_nat (length items) <=? MAX_SIZE) && forallb (fits item) items
  | TArray N, VArray arr => (length arr =? N)%nat
  | _, _ => false
  end.

(** The deserializer of [t] reads [v] back from any place where the encoding
    of [v] stands, and stops right after it. *)
Definition reads_back (t : SType) (v : SValue) : Prop :=
  forall pre post,
    Serializer_deserialize t (mkBuffer (pre ++ encode v ++ post) (length pre))
    = (value v,
       mkBuffer (pre ++ encode v ++ post) (length pre + length (encode v))).

(** The deserializer of [t] runs out of data on every buffer that ends
    inside the encoding of [v]. *)
Definition runs_out (t : SType) (v : SValue) : Prop :=
  forall pre r s,
    encode v = r ++ s -> s <> [] ->
    fst (Serializer_deserialize t (mkBuffer (pre ++ r) (length pre)))
    = unexpected unexpected_end.

(** An operation keeps the storage of the buffer and moves the cursor
    forward only, never beyond the end. *)
Definition advances {T : Type} (m : M T) : Prop :=
  forall b, wf b ->
    data_ (snd (m b)) = data_ b
    /\ (pos_ b <= pos_ (snd (m b)) <= length (data_ b))%nat.

(** An operation keeps the size of the buffer, moves the cursor forward only,
    never beyond the end, and changes no byte before the old cursor or from
    the new cursor on. *)
Definition frames {T : Type} (m : M T) : Prop :=
  forall b, wf b ->
    length (data_ (snd (m b))) = length (data_ b)
    /\ (pos_ b <= pos_ (snd (m b)) <= length (data_ b))%nat
    /\ firstn (pos_ b) (data_ (snd (m b))) = firstn (pos_ b) (data_ b)
    /\ skipn (pos_ (snd (m b))) (data_ (snd (m b)))
       = skipn (pos_ (snd (m b))) (data_ b).

End deserialize.

(** ** net_modern.h (src/unnamed/part_006): [Address], [Inv] and
       [MessageHeader] *)

Module wire.
Import serialize.

Definition MESSAGE_START : list byte_t := [xf9; xbe; xb4; xd9].
Definition COMMAND_SIZE : nat := 12.

(** [htons] and [ntohs] on a little-endian host: the two bytes of a 16-bit
    value change places. *)
Definition htons (x : Z) : Z := (x mod 256) * 256 + (x / 256) mod 256.
Definition ntohs (x : Z) : Z := (x mod 256) * 256 + (x / 256) mod 256.

(** [class Address].  [time_] counts the ticks of [system_clock]. *)
Record Address : Type := mkAddress {
  services_ : Z;
  ip_ : list byte_t;
  port_ : Z;
  time_ : Z
}.

Definition ip_at (a : Address) (i : nat) : Z := Z_of_byte (nth i (ip_ a) x00).

Definition IsIPv4 (a : Address) : bool :=
  forallb (fun b => (Z_of_byte b =? 0) || (Z_of_byte b =? 0xff))
          (firstn 12 (ip_ a)).

Definition IsRFC1918 (a : Address) : bool :=
  if negb (IsIPv4 a) then false
  else (ip_at a 12 =? 10)
       || ((ip_at a 12 =? 172) && ((ip_at a 13 >=? 16) && (ip_at a 13 <=? 31)))
       || ((ip_at a 12 =? 192) && (ip_at a 13 =? 168)).

Definition IsRFC3927 (a : Address) : bool :=
  if negb (IsIPv4 a) then false
  else (ip_at a 12 =? 169) && (ip_at a 13 =? 254).

Definition IsLocal (a : Address) : bool :=
  if IsIPv4 a then ip_at a 12 =? 127
  else forallb (fun b => Z_of_byte b =? 0) (firstn 15 (ip_ a))
       && (ip_at a 15 =? 1).

Definition IsRoutable (a : Address) : bool :=
  negb (IsRFC1918 a || IsRFC3927 a || IsLocal a).

Section Clock.

(** The number of [system_clock] ticks in a second. *)
Variable ticks_per_second : Z.

(** [system_clock::to_time_t] drops the part of a second;
    [system_clock::from_time_t] counts whole seconds in ticks. *)
Definition to_time_t (t : Z) : Z := Machine.cdiv t ticks_per_second.
Definition from_time_t (s : Z) : Z := Machine.swrap 64 (s * ticks_per_second).

(** 4 bytes of time, 8 bytes of services, the 16 bytes of the address, the
    port in network byte order. *)
Definition Address_serialize (a : Address) : M unit :=
  write 4 (to_time_t (time_ a)) ;;;
  write 8 (services_ a) ;;;
  (_ <- write_bytes (ip_ a) ;; ret tt) ;;;
  write 2 (htons (port_ a)).

Definition Address_deserialize : M Address :=
  time_val <- read 4 ;;
  services <- read 8 ;;
  ip <- read_bytes 16 ;;
  port_be <- read 2 ;;
  ret (mkAddress services ip (ntohs port_be) (from_time_t time_val)).

End Clock.

(** [class Inv]. *)
Record Inv : Type := mkInv { type_ : Z; hash_ : list byte_t }.

Definition MSG_TX : Z := 1.
Definition MSG_BLOCK : Z := 2.

Definition IsKnownType (i : Inv) : bool :=
  (type_ i =? MSG_TX) || (type_ i =? MSG_BLOCK).

Definition Inv_serialize (i : Inv) : M unit :=
  write 4 (type_ i) ;;; (_ <- write_bytes (hash_ i) ;; ret tt).

Definition Inv_deserialize : M Inv :=
  type <- read 4 ;;
  hash <- read_bytes 32 ;;
  ret (mkInv type hash).

(** [class MessageHeader].  The characters of the command are bytes. *)
Record MessageHeader : Type := mkHeader {
  magic_ : list byte_t;
  command_ : list byte_t;
  payload_size_ : Z;
  checksum_ : list byte_t
}.

(** The arrays of a header have their declared sizes and the payload size is
    a [std::uint32_t]. *)
Definition header_wf (h : MessageHeader) : Prop :=
  length (magic_ h) = 4%nat /\ length (command_ h) = COMMAND_SIZE
  /\ length (checksum_ h) = 4%nat /\ 0 <= payload_size_ h < 2 ^ 32.

(** [std::fill] with zeros, then [std::ranges::copy] of at most
    [COMMAND_SIZE] characters. *)
Definition SetCommand (cmd : list byte_t) (h : MessageHeader) : MessageHeader :=
  mkHeader (magic_ h)
           (overwrite (repeat x00 COMMAND_SIZE) 0 (firstn COMMAND_SIZE cmd))
           (payload_size_ h) (checksum_ h).

(** The constructor from a command and a payload size. *)
Definition MessageHeader_new (command : list byte_t) (payload_size : Z)
  : MessageHeader :=
  SetCommand command
    (mkHeader MESSAGE_START (repeat x00 COMMAND_SIZE) payload_size
              (repeat x00 4)).

Definition IsValid (h : MessageHeader) : bool :=
  Bytes.eqb (magic_ h) MESSAGE_START
  && (payload_size_ h <=? net.MAX_MESSAGE_SIZE).

(** [std::ranges::find(command_, '\0')]: the characters before the first
    zero, all of them when there is none. *)
Fixpoint before_nul (l : list byte_t) : list byte_t :=
  match l with
  | [] => []
  | c :: rest => if Byte.eqb c x00 then [] else c :: before_nul rest
  end.

Definition GetCommand (h : MessageHeader) : list byte_t :=
  before_nul (command_ h).

Definition GetPayloadSize (h : MessageHeader) : Z := payload_size_ h.

Definition SetChecksum (hash : list byte_t) (h : MessageHeader) : MessageHeader :=
  mkHeader (magic_ h) (command_ h) (payload_size_ h)
           (overwrite (checksum_ h) 0 (firstn 4 hash)).

Definition VerifyChecksum (hash : list byte_t) (h : MessageHeader) : bool :=
  Bytes.eqb (firstn 4 hash) (firstn 4 (checksum_ h)).

Definition MessageHeader_serialize (h : MessageHeader) : M unit :=
  (_ <- write_bytes (magic_ h) ;; ret tt) ;;;
  (_ <- write_bytes (command_ h) ;; ret tt) ;;;
  write 4 (payload_size_ h) ;;;
  (_ <- write_bytes (checksum_ h) ;; ret tt).

Definition MessageHeader_deserialize : M MessageHeader :=
  magic <- read_bytes 4 ;;
  command <- read_bytes COMMAND_SIZE ;;
  size <- read 4 ;;
  checksum <- read_bytes 4 ;;
  ret (mkHeader magic command size checksum).

End wire.

(** ** participation_modern.h and its implementation (src/unnamed/part_004):
       [class IPClusteringDetector] *)

Module ipfilter.

Inductive SubnetClass : Type := ClassC | Block20 | Block16.

(** The value of the enumerator: the number of bits of the subnet mask. *)
Definition mask_bits (c : SubnetClass) : Z :=
  match c with ClassC => 24 | Block20 => 20 | Block16 => 16 end.

(** The [analysis] text: the format string that was used and the count it
    was given. *)
Inductive AnalysisText : Type :=
| Normal (nodes_in_c : Z)
| Suspicious (nodes_in_c : Z)
| AttackPattern (nodes_in_20 : Z).

Section NetAddr.

(** [bitcoin::core::NetAddr] and its [GetIPv4], from a header outside the
    sources. *)
Variable NetAddr : Type.
Variable GetIPv4 : NetAddr -> Z.

Record ClusterAnalysis : Type := mkAnalysis {
  recommended_mask : SubnetClass;
  node_count_in_subnet : Z;
  clustered_nodes : list NetAddr;
  suspicious_pattern : bool;
  analysis : AnalysisText
}.

(** [0xFFFFFFFF << (32 - mask_bits)] is an [unsigned int] shift. *)
Definition GetSubnetMask (addr : NetAddr) (mask_bits_ : SubnetClass) : Z :=
  let ip := GetIPv4 addr in
  let mask := Machine.wrap 32 (Z.shiftl 0xFFFFFFFF (32 - mask_bits mask_bits_)) in
  Z.land ip mask.

(** [std::ranges::count_if], returned as an [int]. *)
Definition CountNodesInSubnet (addr : NetAddr) (mask_bits_ : SubnetClass)
    (nodes : list NetAddr) : Z :=
  let target_subnet := GetSubnetMask addr mask_bits_ in
  Machine.swrap 32
    (Z.of_nat
       (length
          (filter (fun node => GetSubnetMask node mask_bits_ =? target_subnet)
                  nodes))).

Definition AnalyzeIPClustering (new_node : NetAddr)
    (existing_nodes : list NetAddr) : ClusterAnalysis :=
  let nodes_in_c := CountNodesInSubnet new_node ClassC existing_nodes in
  if nodes_in_c >? 2 then
    let nodes_in_20 := CountNodesInSubnet new_node Block20 existing_nodes in
    if nodes_in_20 >? 10
    then mkAnalysis Block16 nodes_in_c [] true (AttackPattern nodes_in_20)
    else mkAnalysis Block20 nodes_in_c [] true (Suspicious nodes_in_c)
  else mkAnalysis ClassC nodes_in_c [] false (Normal nodes_in_c).

Definition ShouldAllowNode (addr : NetAddr) (metrics : pop.WalletMetrics)
    (analysis_ : ClusterAnalysis) : bool :=
  if negb (suspicious_pattern analysis_) then true
  else if pop.coin_age_blocks metrics >? pop.STAKE_MATURITY_BLOCKS * 10
  then true
  else
    match recommended_mask analysis_ with
    | ClassC => node_count_in_subnet analysis_ <=? 2
    | Block20 => node_count_in_subnet analysis_ <=? 2
    | Block16 => node_count_in_subnet analysis_ <=? 2
    end.

End NetAddr.

End ipfilter.

(** ** participation_modern.h and its implementation (src/unnamed/part_004):
       [VerifiableRandomFunction::VerifyLottery] *)

Module lotterycheck.

Section Lottery.

Variable SHA256 : list byte -> list byte.

Definition VerifyLottery (result : pop.LotteryResult)
    (block_seed participant_key : list byte) : pop.expected bool :=
  let expected_hash := pop.HashToTarget SHA256 block_seed participant_key in
  pop.value (Bytes.eqb (pop.lr_hash result) expected_hash).

End Lottery.

End lotterycheck.

(** ** participation.h (src/unnamed/part_005):
       [ParticipationValidator::checkParticipation] *)

Module draw.

Section Draw.

Variable Hash : main.uint256 -> Z -> main.uint256.
Variable Get64 : main.uint256 -> Z.

(** The conversion [uint160(myAddress)], from a header outside the
    sources. *)
Variable uint160_of : main.uint256 -> Z.

Definition checkParticipation
    (activeParticipants : list participation.ParticipationEntry)
    (myAddress previousBlockHash : main.uint256) (currentHeight : Z) : bool :=
  let participants :=
    participation.getActiveParticipants activeParticipants currentHeight in
  if match participants with [] => true | _ => false end then false
  else
    match participation.selectWinner Hash Get64 previousBlockHash
            participants currentHeight with
    | Some winner => participation.address winner =? uint160_of myAddress
    | None => false
    end.

End Draw.

End draw.

(** ** src/unnamed/part_003: the activation state of [HardForkManager] and
       the functions around it *)

Module activation.

(** The members of [HardForkManager]; what [ActivateHardFork] prints, writes
    to the wallet database and broadcasts is not part of them. *)
Record HardForkManager : Type := mkManager {
  fActivated : bool;
  nActivationHeight : Z;
  activationBlockHash : main.uint256
}.

Definition ActivateHardFork (m : HardForkManager) (nHeight : Z)
    (blockHash : main.uint256) : HardForkManager :=
  if fActivated m then m else mkManager true nHeight blockHash.

Definition CheckActivation (m : HardForkManager) (nHeight : Z)
    (blockHash : main.uint256) : bool * HardForkManager :=
  if fActivated m then (true, m)
  else if nHeight >=? goldcoin.HARD_FORK_HEIGHT
  then (true, ActivateHardFork m nHeight blockHash)
  else (false, m).

Definition IsActivated (m : HardForkManager) : bool := fActivated m.
Definition GetActivationHeight (m : HardForkManager) : Z := nActivationHeight m.

(** A run of [CheckActivation] calls, one per block, in order. *)
Definition check_all (calls : list (Z * main.uint256)) (m : HardForkManager)
  : HardForkManager :=
  fold_left (fun m call => snd (CheckActivation m (fst call) (snd call)))
            calls m.

Section Process.

Variable GetHash : main.CBlock -> main.uint256.
Variable GetWorkRequired : main.CBlock -> main.uint256.

(** [ProcessHardFork] on the global manager. *)
Definition ProcessHardFork (m : HardForkManager) (block : main.CBlock)
    (nHeight : Z) : option bool * HardForkManager :=
  let m' :=
    if negb (IsActivated m) && (nHeight >=? goldcoin.HARD_FORK_HEIGHT)
    then ActivateHardFork m nHeight (GetHash block)
    else m in
  (hardfork.ValidateBlock GetHash GetWorkRequired block nHeight, m').

End Process.

(** What [GetTimeUntilHardFork] formats: the fixed text, or the three
    numbers of the other text. *)
Inductive TimeUntil : Type :=
| HardForkActivated
| Remaining (days hours minutes : Z).

(** [GetTimeUntilHardFork], given the global [nBestHeight]; the arithmetic
    is in [int]. *)
Definition GetTimeUntilHardFork (nBestHeight : Z) : TimeUntil :=
  let currentHeight := nBestHeight in
  if currentHeight >=? goldcoin.HARD_FORK_HEIGHT then HardForkActivated
  else
    let blocksRemaining :=
      Machine.swrap 32 (goldcoin.HARD_FORK_HEIGHT - currentHeight) in
    let secondsRemaining :=
      Machine.swrap 32 (blocksRemaining * participation.BLOCK_TIME_SECONDS) in
    let days := Machine.cdiv secondsRemaining 86400 in
    let hours := Machine.cdiv (Z.rem secondsRemaining 86400) 3600 in
    let minutes := Machine.cdiv (Z.rem secondsRemaining 3600) 60 in
    Remaining days hours minutes.

End activation.

(** ** src/main_simplified.h: [CTransaction::GetValueOut] *)

Module transaction.

(** One turn of the loop: the output is added, then the output and the
    running total are checked; [None] stands for the [std::runtime_error]
    that is thrown. *)
Definition add_output (acc : option Z) (out : main.CTxOut) : option Z :=
  match acc with
  | None => None
  | Some nValueOut =>
      let nValueOut := Machine.swrap 64 (nValueOut + main.nValue out) in
      if negb (main.MoneyRange (main.nValue out))
         || negb (main.MoneyRange nValueOut)
      then None
      else Some nValueOut
  end.

Definition GetValueOut (tx : main.CTransaction) : option Z :=
  fold_left add_output (main.vout tx) (Some 0).

Definition IsNull (tx : main.CTransaction) : bool :=
  match main.vin tx, main.vout tx with
  | [], [] => true
  | _, _ => false
  end.

Definition GetMinFee (tx : main.CTransaction) (nBlockSize : Z) : Z := 0.

End transaction.

(** ** src/hybridfee_modern.cpp: the fee market statistics of
       [class BlockSpaceManager] *)

Module feemarket.

Definition BASE_FEE_RATE : Z := 1000.
Definition MIN_RELAY_FEE : Z := 100000.

Definition CalculateDynamicFeeRate (congestion_level : Z) : Z :=
  let base_rate := BASE_FEE_RATE in
  if congestion_level <? 50 then base_rate
  else if congestion_level <? 80 then Machine.swrap 64 (base_rate * 2)
  else if congestion_level <? 95 then Machine.swrap 64 (base_rate * 5)
  else Machine.swrap 64 (base_rate * 10).

Record FeeMarketStats : Type := mkStats {
  current_min_fee_rate : Z;
  free_zone_pressure_percent : Z;
  average_confirmation_blocks_free : Z;
  average_confirmation_blocks_paid : Z;
  median_fee_last_block : Z;
  fee_percentiles : list Z
}.

(** [current_stats_] and the queue [recent_blocks_], oldest block first. *)
Record BlockSpaceManager : Type := mkManager {
  current_stats_ : FeeMarketStats;
  recent_blocks_ : list fees.BlockTemplate
}.

(** The constructor. *)
Definition BlockSpaceManager_new : BlockSpaceManager :=
  mkManager (mkStats BASE_FEE_RATE 0 1 1 0 [0; 0; 0; 0]) [].

(** The fee of a candidate per 1000 bytes: an [amount_t] product divided by
    a [std::size_t], stored into an [amount_t]. *)
Definition rate_per_kb (tx : fees.TransactionCandidate) : Z :=
  Machine.swrap 64
    (Machine.wrap 64 (Machine.swrap 64 (fees.fee_paid tx * 1000))
     / fees.size_bytes tx).

(** [while (recent_blocks_.size() > 144) recent_blocks_.pop()], with one turn
    of the loop for each unit of [fuel]. *)
Fixpoint pop_while_over_144 (fuel : nat) (q : list fees.BlockTemplate)
  : list fees.BlockTemplate :=
  match fuel with
  | O => q
  | S fuel' =>
      if (144 <? length q)%nat then pop_while_over_144 fuel' (tl q) else q
  end.

(** [std::ranges::sort] on the rates: integers compare as a total order, so
    the sorted vector does not depend on the algorithm. *)
Definition sorted_rates (fee_rates : list Z) : list Z :=
  sorting.sort_by Z.leb fee_rates.

Definition at_index (l : list Z) (i : nat) : Z := nth i l 0.

Definition UpdateMarketStats (m : BlockSpaceManager)
    (completed_block : fees.BlockTemplate) : BlockSpaceManager :=
  let stats := current_stats_ m in
  let pressure := fees.free_zone_utilization_percent completed_block in
  let fee_rates :=
    map rate_per_kb
        (filter (fun tx => fees.size_bytes tx >? 0)
                (fees.fee_transactions completed_block)) in
  let sorted := sorted_rates fee_rates in
  let size := length sorted in
  let median :=
    match fee_rates with
    | [] => median_fee_last_block stats
    | _ => at_index sorted (size / 2)
    end in
  let percentiles :=
    match fee_rates with
    | [] => fee_percentiles stats
    | _ =>
        if (4 <=? size)%nat
        then [at_index sorted (size / 4); median;
              at_index sorted (size * 3 / 4);
              at_index sorted (size * 95 / 100)]
        else fee_percentiles stats
    end in
  let queue := recent_blocks_ m ++ [completed_block] in
  mkManager
    (mkStats (CalculateDynamicFeeRate pressure) pressure
             (average_confirmation_blocks_free stats)
             (average_confirmation_blocks_paid stats)
             median percentiles)
    (pop_while_over_144 (length queue) queue).

Definition GetMarketStats (m : BlockSpaceManager) : FeeMarketStats :=
  current_stats_ m.

(** The manager after a run of completed blocks, in order. *)
Definition update_all (blocks : list fees.BlockTemplate)
    (m : BlockSpaceManager) : BlockSpaceManager :=
  fold_left UpdateMarketStats blocks m.

End feemarket.

(** ** src/unnamed/part_008: how [HybridFeeSystem] fills a block *)

Module blockbuilder.

Definition OnNewBlock (s : hybridfee.HybridFeeSystem)
  : hybridfee.HybridFeeSystem :=
  hybridfee.mkFeeSystem 0 0 0.

Section Mempool.

Variable GetSerializeSize : main.CTransaction -> Z.

(** The global [mempool], and the two [std::sort] calls: highest priority
    first and highest fee first, the order among equals being the library's
    choice. *)
Variable mempool : list main.CTransaction.
Variable sort_by_priority :
  list (Double.double * main.CTransaction) ->
  list (Double.double * main.CTransaction).
Variable sort_by_fee :
  list (Z * main.CTransaction) -> list (Z * main.CTransaction).

(** A run of [AddToBlock] calls, one for each transaction of [txs] in
    order.  Beside the counters it keeps [admitted]: the bytes of the block,
    to which the size of every transaction a call accepted is added as an
    integer, without wrap-around. *)
Fixpoint add_all (txs : list main.CTransaction)
    (s : hybridfee.HybridFeeSystem) (admitted : Z)
  : hybridfee.HybridFeeSystem * Z :=
  match txs with
  | [] => (s, admitted)
  | tx :: rest =>
      match hybridfee.AddToBlock GetSerializeSize s tx with
      | (true, s') => add_all rest s' (admitted + GetSerializeSize tx)
      | (false, s') => add_all rest s' admitted
      end
  end.

(** The loop over the sorted candidates of the free zone: it stops as soon
    as the block holds the 5%, and otherwise adds every transaction that
    [AddToBlock] accepts. *)
Fixpoint add_priority (l : list (Double.double * main.CTransaction))
    (s : hybridfee.HybridFeeSystem) (vtx : list main.CTransaction)
  : hybridfee.HybridFeeSystem * list main.CTransaction :=
  match l with
  | [] => (s, vtx)
  | (priority, tx) :: rest =>
      if hybridfee.nCurrentBlockSize s
         >=? hybridfee.DEFAULT_BLOCK_PRIORITY_SIZE
      then (s, vtx)
      else
        match hybridfee.AddToBlock GetSerializeSize s tx with
        | (true, s') => add_priority rest s' (vtx ++ [tx])
        | (false, s') => add_priority rest s' vtx
        end
  end.

Definition AddPriorityTransactions (s : hybridfee.HybridFeeSystem)
    (vtx : list main.CTransaction) (nHeight : Z)
  : hybridfee.HybridFeeSystem * list main.CTransaction :=
  let vecPriority :=
    flat_map
      (fun tx =>
         let dPriority := hybridfee.GetPriority GetSerializeSize tx nHeight in
         if Double.gtb dPriority hybridfee.FREE_TX_PRIORITY
         then [(dPriority, tx)] else [])
      mempool in
  add_priority (sort_by_priority vecPriority) s vtx.

(** The loop over the sorted fee payers: it stops at 95% of the block. *)
Fixpoint add_fee (l : list (Z * main.CTransaction))
    (s : hybridfee.HybridFeeSystem) (vtx : list main.CTransaction)
  : hybridfee.HybridFeeSystem * list main.CTransaction :=
  match l with
  | [] => (s, vtx)
  | (fee, tx) :: rest =>
      if hybridfee.nCurrentBlockSize s
         >=? Machine.wrap 32 (hybridfee.DEFAULT_BLOCK_MAX_SIZE * 95) / 100
      then (s, vtx)
      else
        match hybridfee.AddToBlock GetSerializeSize s tx with
        | (true, s') => add_fee rest s' (vtx ++ [tx])
        | (false, s') => add_fee rest s' vtx
        end
  end.

Definition AddFeeTransactions (s : hybridfee.HybridFeeSystem)
    (vtx : list main.CTransaction)
  : hybridfee.HybridFeeSystem * list main.CTransaction :=
  let vecFees :=
    flat_map
      (fun tx =>
         let nFee := hybridfee.GetTransactionFee tx in
         if nFee >? 0 then [(nFee, tx)] else [])
      mempool in
  add_fee (sort_by_fee vecFees) s vtx.

End Mempool.

End blockbuilder.

(** ** script_modern.h (the last header of src/unnamed/part_008):
       [class Script] *)

Module script.
Import serialize.

Definition OP_PUSHDATA1 : Z := 0x4c.
Definition OP_PUSHDATA2 : Z := 0x4d.
Definition OP_PUSHDATA4 : Z := 0x4e.
Definition OP_1NEGATE : Z := 0x4f.
Definition OP_1 : Z := 0x51.
Definition OP_16 : Z := 0x60.
Definition OP_EQUAL : Z := 0x87.
Definition OP_HASH160 : Z := 0xa9.
Definition OP_INVALIDOPCODE : Z := 0xff.

(** The bytes [data_] of a script. *)
Definition Script : Type := list byte_t.

Definition push_opcode (opcode : Z) (data_ : Script) : Script :=
  data_ ++ [byte_of_Z opcode].

(** [operator<<(std::span<const byte_t>)]: the size, in one of four forms,
    then the data. *)
Definition push_data (data : list byte_t) (data_ : Script) : Script :=
  let size := Z.of_nat (length data) in
  let head :=
    if size <=? OP_PUSHDATA1 then [byte_of_Z size]
    else if size <=? 0xff then [byte_of_Z OP_PUSHDATA1; byte_of_Z size]
    else if size <=? 0xffff then
      let size := Machine.wrap 16 size in
      [byte_of_Z OP_PUSHDATA2;
       byte_of_Z (Z.land size 0xff);
       byte_of_Z (Z.land (Z.shiftr size 8) 0xff)]
    else
      let size := Machine.wrap 32 size in
      [byte_of_Z OP_PUSHDATA4;
       byte_of_Z (Z.land size 0xff);
       byte_of_Z (Z.land (Z.shiftr size 8) 0xff);
       byte_of_Z (Z.land (Z.shiftr size 16) 0xff);
       byte_of_Z (Z.land (Z.shiftr size 24) 0xff)] in
  data_ ++ head ++ data.

(** What [get_op] leaves in its three references and returns. *)
Record Op : Type := mkOp {
  ok : bool;
  pc_ : nat;
  opcodeRet : Z;
  vchRet : list byte_t
}.

Definition byte_at (data_ : Script) (pc : nat) : Z :=
  Z_of_byte (nth pc data_ x00).

(** [get_op], with the iterator [pc] as an index into [data_].  On failure
    the opcode is [OP_INVALIDOPCODE], the vector is empty and [pc] stays
    where the failing test found it. *)
Definition get_op (data_ : Script) (pc : nat) : Op :=
  if (length data_ <=? pc)%nat then mkOp false pc OP_INVALIDOPCODE []
  else
    let opcode := byte_at data_ pc in
    let pc := S pc in
    if opcode <=? OP_PUSHDATA4 then
      let sized : option (nat * Z) :=
        if opcode <? OP_PUSHDATA1 then Some (pc, opcode)
        else if opcode =? OP_PUSHDATA1 then
          if (length data_ <=? pc)%nat then None
          else Some (S pc, byte_at data_ pc)
        else if opcode =? OP_PUSHDATA2 then
          if (length data_ - pc <? 2)%nat then None
          else Some (S (S pc),
                     Z.lor (byte_at data_ pc)
                           (Z.shiftl (byte_at data_ (S pc)) 8))
        else
          if (length data_ - pc <? 4)%nat then None
          else Some (S (S (S (S pc))),
                     Z.lor
                       (Z.lor
                          (Z.lor (byte_at data_ pc)
                                 (Z.shiftl (byte_at data_ (S pc)) 8))
                          (Z.shiftl (byte_at data_ (S (S pc))) 16))
                       (Z.shiftl (byte_at data_ (S (S (S pc)))) 24)) in
      match sized with
      | None => mkOp false pc OP_INVALIDOPCODE []
      | Some (pc, nSize) =>
          if Z.of_nat (length data_ - pc) <? nSize
          then mkOp false pc OP_INVALIDOPCODE []
          else mkOp true (pc + Z.to_nat nSize) opcode
                    (firstn (Z.to_nat nSize) (skipn pc data_))
      end
    else mkOp true pc opcode [].

Definition is_pay_to_script_hash (data_ : Script) : bool :=
  (length data_ =? 23)%nat
  && (byte_at data_ 0 =? OP_HASH160)
  && (byte_at data_ 1 =? 0x14)
  && (byte_at data_ 22 =? OP_EQUAL).

End script.

(** ** vrf.h (src/unnamed/part_007): the lottery target *)

Module vrf.

(** [VRF::calculateTarget]: [~uint256(0)] divided by the number of
    participants; [blockTime] is not used. *)
Definition calculateTarget (totalParticipants blockTime : Z) : main.uint256 :=
  if totalParticipants <=? 0 then 0
  else
    let target := 2 ^ 256 - 1 in
    target / totalParticipants.

(** [VRFOutput::winsLottery], on the [value] of the output. *)
Definition winsLottery (value target : main.uint256) : bool := value <? target.

End vrf.

(* ================================================================== *)
(** * Part II: theorems                                                *)
(* ================================================================== *)

Example to_bytes_small :
  serialize.to_bytes (serialize.VVector [serialize.VPrim 2 258; serialize.VString [x41]])
  = serialize.value [x02; x02; x01; x01; x41].
Proof. vm_compute. reflexivity. Qed.

(** ** Bytes and little-endian integers *)

Section SerializeFacts.
Import serialize.

Lemma Z_of_byte_of_Z (z : Z) : Z_of_byte (byte_of_Z z) = z mod 256.
Proof.
  unfold Z_of_byte, byte_of_Z.
  assert (Hr : 0 <= z mod 256 < 256) by (apply Z.mod_pos_bound; lia).
  destruct (Byte.of_N (Z.to_N (z mod 256))) as [b|] eqn:E.
  - apply Byte.to_of_N in E. rewrite E. rewrite Z2N.id; lia.
  - apply Byte.of_N_None_iff in E. lia.
Qed.

Lemma length_le_bytes (w : nat) (v : Z) : length (le_bytes w v) = w.
Proof.
  revert v; induction w as [|w IH]; intros v; simpl; [reflexivity|].
  now rewrite IH.
Qed.

Lemma le_value_le_bytes (w : nat) (v : Z) :
  le_value (le_bytes w v) = v mod 256 ^ Z.of_nat w.
Proof.
  revert v; induction w as [|w IH]; intros v.
  - simpl. now rewrite Z.mod_1_r.
  - cbn [le_bytes le_value]. rewrite IH, Z_of_byte_of_Z.
    rewrite Nat2Z.inj_succ, Z.pow_succ_r by lia.
    rewrite Z.rem_mul_r by (try apply Z.pow_pos_nonneg; lia).
    reflexivity.
Qed.

Lemma le_value_le_bytes_small (w : nat) (v : Z) :
  0 <= v < 256 ^ Z.of_nat w -> le_value (le_bytes w v) = v.
Proof.
  intros H. rewrite le_value_le_bytes. now apply Z.mod_small.
Qed.

End SerializeFacts.

(** ** The buffer: writes, reads and what a failed write leaves *)

Section BufferFacts.
Import serialize.

Lemma length_overwrite (d : list byte_t) (p : nat) (bs : list byte_t) :
  (p + length bs <= length d)%nat -> length (overwrite d p bs) = length d.
Proof.
  intros H. unfold overwrite.
  rewrite !length_app, length_firstn, length_skipn. lia.
Qed.

Lemma overwrite_overwrite (d : list byte_t) (p : nat) (b1 b2 : list byte_t) :
  (p + length b1 + length b2 <= length d)%nat ->
  overwrite (overwrite d p b1) (p + length b1) b2 = overwrite d p (b1 ++ b2).
Proof.
  intros H. unfold overwrite.
  assert (Hp : length (firstn p d) = p) by (rewrite length_firstn; lia).
  rewrite firstn_app, Hp.
  rewrite firstn_firstn, Nat.min_r by lia.
  replace (p + length b1 - p)%nat with (length b1 + 0)%nat by lia.
  rewrite firstn_app_2. cbn [firstn]. rewrite app_nil_r.
  rewrite skipn_app, Hp.
  rewrite (skipn_all2 (firstn p d)) by lia. cbn [app].
  replace (p + length b1 + length b2 - p)%nat
    with (length b1 + length b2)%nat by lia.
  rewrite skipn_app.
  rewrite (skipn_all2 b1) by lia. cbn [app].
  replace (length b1 + length b2 - length b1)%nat with (length b2) by lia.
  rewrite skipn_skipn, length_app, <- !app_assoc.
  do 3 f_equal. f_equal. lia.
Qed.

Lemma overwrite_nil (d : list byte_t) (p : nat) : overwrite d p [] = d.
Proof.
  unfold overwrite. cbn [length app]. rewrite Nat.add_0_r.
  apply firstn_skipn.
Qed.

Lemma firstn_overwrite_0 (d bs : list byte_t) :
  firstn (length bs) (overwrite d 0 bs) = bs.
Proof.
  unfold overwrite. cbn [firstn app].
  rewrite firstn_app, Nat.sub_diag. cbn [firstn].
  rewrite app_nil_r. apply firstn_all.
Qed.

Lemma write_bytes_fits (bs : list byte_t) (b : Buffer) :
  wf b -> (length bs <= remaining b)%nat ->
  write_bytes bs b =
    (value bs, mkBuffer (overwrite (data_ b) (pos_ b) bs) (pos_ b + length bs)).
Proof.
  intros _ H. unfold write_bytes, has_space.
  destruct (Nat.leb_spec (length bs) (remaining b)); [reflexivity | lia].
Qed.

Lemma write_bytes_overflows (bs : list byte_t) (b : Buffer) :
  (remaining b < length bs)%nat ->
  write_bytes bs b = (unexpected buffer_overflow, b).
Proof.
  intros H. unfold write_bytes, has_space.
  destruct (Nat.leb_spec (length bs) (remaining b)); [lia | reflexivity].
Qed.

(** A run of writes that fits: every byte lands at the cursor, in order. *)
Lemma write_chunks_fits (cs : list (list byte_t)) :
  forall b, wf b -> (length (concat cs) <= remaining b)%nat ->
  write_chunks cs b =
    (value tt, mkBuffer (overwrite (data_ b) (pos_ b) (concat cs))
                        (pos_ b + length (concat cs))).
Proof.
  induction cs as [|c cs IH]; intros b Hwf Hfit.
  - cbn. rewrite overwrite_nil, Nat.add_0_r. now destruct b.
  - cbn [write_chunks concat] in *. rewrite length_app in Hfit.
    unfold wf, remaining in *.
    unfold bind. rewrite write_bytes_fits by (unfold wf, remaining; lia).
    rewrite IH.
    + cbn [data_ pos_]. rewrite overwrite_overwrite by lia.
      rewrite length_app. do 2 f_equal. lia.
    + unfold wf. cbn [data_ pos_]. rewrite length_overwrite; lia.
    + unfold remaining. cbn [data_ pos_]. rewrite length_overwrite; lia.
Qed.

(** A run of writes that does not fit stops at the first chunk that overflows
    what is left, and reports [buffer_overflow]. *)
Lemma write_chunks_overflows (cs : list (list byte_t)) :
  forall b, wf b -> (remaining b < length (concat cs))%nat ->
  fst (write_chunks cs b) = unexpected buffer_overflow.
Proof.
  induction cs as [|c cs IH]; intros b Hwf Hbig.
  - cbn in Hbig. lia.
  - cbn [write_chunks concat] in *. rewrite length_app in Hbig.
    unfold bind.
    destruct (Nat.leb_spec (length c) (remaining b)) as [Hc|Hc].
    + rewrite write_bytes_fits by assumption.
      unfold wf, remaining in *.
      apply IH.
      * unfold wf. cbn [data_ pos_]. rewrite length_overwrite; lia.
      * unfold remaining. cbn [data_ pos_]. rewrite length_overwrite; lia.
    + now rewrite write_bytes_overflows.
Qed.

Lemma write_chunks_app (c1 c2 : list (list byte_t)) (b : Buffer) :
  write_chunks (c1 ++ c2) b = (write_chunks c1 ;;; write_chunks c2) b.
Proof.
  revert b; induction c1 as [|c c1 IH]; intros b.
  - reflexivity.
  - cbn [app write_chunks]. unfold bind in *.
    destruct (write_bytes c b) as [[t|e] b']; [|reflexivity].
    apply IH.
Qed.

Lemma CompactSize_serialize_chunks (n : Z) (b : Buffer) :
  CompactSize.serialize n b = write_chunks (cs_chunks n) b.
Proof.
  unfold CompactSize.serialize, cs_chunks.
  destruct (n <? 253); [reflexivity|].
  destruct (n <=? 0xFFFF); [|destruct (n <=? 0xFFFFFFFF)];
    cbn [write_chunks]; unfold write, bind;
    match goal with |- context [write_bytes ?c b] =>
      destruct (write_bytes c b) as [[t|e] b'] end; reflexivity.
Qed.

Lemma concat_cs_chunks (n : Z) : concat (cs_chunks n) = cs_encode n.
Proof.
  unfold cs_chunks, cs_encode.
  destruct (n <? 253); [|destruct (n <=? 0xFFFF); [|destruct (n <=? 0xFFFFFFFF)]];
    cbn [concat]; now rewrite ?app_nil_r.
Qed.

Lemma length_cs_encode (n : Z) :
  length (cs_encode n) = CompactSize.encoded_size n.
Proof.
  unfold cs_encode, CompactSize.encoded_size.
  destruct (n <? 253); [|destruct (n <=? 0xFFFF); [|destruct (n <=? 0xFFFFFFFF)]];
    rewrite ?length_app, !length_le_bytes; reflexivity.
Qed.

End BufferFacts.

(** ** The serializer writes the encoding, chunk by chunk *)

Section SerializerFacts.
Import serialize.

(** Induction over serializable values, with the hypothesis available for
    every element of a vector and every field of a record. *)
Lemma SValue_nested_ind (P : SValue -> Prop) :
  (forall w x, P (VPrim w x)) ->
  (forall s, P (VString s)) ->
  (forall items, Forall P items -> P (VVector items)) ->
  (forall arr, P (VArray arr)) ->
  (forall fields, Forall P fields -> P (VRecord fields)) ->
  forall v, P v.
Proof.
  intros HP HS HV HA HR.
  fix IH 1. intros [w x|s|items|arr|fields].
  - apply HP.
  - apply HS.
  - apply HV. induction items as [|i items IHi]; constructor; [apply IH | exact IHi].
  - apply HA.
  - apply HR. induction fields as [|f fields IHf]; constructor; [apply IH | exact IHf].
Qed.

Lemma each_as_chunks (items : list SValue) :
  Forall (fun v => forall b, Serializer_serialize v b = write_chunks (chunks v) b)
         items ->
  forall b,
    (fix each (l : list SValue) : M unit :=
       match l with
       | [] => ret tt
       | item :: rest => Serializer_serialize item ;;; each rest
       end) items b
    = write_chunks (flat_map chunks items) b.
Proof.
  induction 1 as [|v items Hv _ IH]; intros b.
  - reflexivity.
  - cbn [flat_map]. rewrite write_chunks_app. unfold bind.
    rewrite Hv. destruct (write_chunks (chunks v) b) as [[t|e] b']; [|reflexivity].
    apply IH.
Qed.

Lemma Serializer_serialize_chunks (v : SValue) :
  forall b, Serializer_serialize v b = write_chunks (chunks v) b.
Proof.
  induction v as [w x|s|items IH|arr|fields IH] using SValue_nested_ind; intros b.
  - reflexivity.
  - cbn [Serializer_serialize chunks]. rewrite write_chunks_app. unfold bind.
    rewrite CompactSize_serialize_chunks.
    destruct (write_chunks _ b) as [[t|e] b']; [|reflexivity].
    cbn [write_chunks]. unfold bind. reflexivity.
  - cbn [Serializer_serialize chunks]. rewrite write_chunks_app. unfold bind.
    rewrite CompactSize_serialize_chunks.
    destruct (write_chunks _ b) as [[t|e] b']; [|reflexivity].
    now apply each_as_chunks.
  - reflexivity.
  - cbn [Serializer_serialize chunks]. now apply each_as_chunks.
Qed.

Lemma concat_flat_map_chunks (items : list SValue) :
  Forall (fun v => concat (chunks v) = encode v) items ->
  concat (flat_map chunks items) = flat_map encode items.
Proof.
  induction 1 as [|v items Hv _ IH]; [reflexivity|].
  cbn [flat_map]. now rewrite concat_app, Hv, IH.
Qed.

Lemma concat_chunks (v : SValue) : concat (chunks v) = encode v.
Proof.
  induction v as [w x|s|items IH|arr|fields IH] using SValue_nested_ind;
    cbn [chunks encode concat].
  - apply app_nil_r.
  - rewrite concat_app, concat_cs_chunks. cbn [concat]. now rewrite app_nil_r.
  - rewrite concat_app, concat_cs_chunks. f_equal. now apply concat_flat_map_chunks.
  - apply app_nil_r.
  - now apply concat_flat_map_chunks.
Qed.

(** With room for the whole encoding the serializer succeeds and leaves the
    encoding at the old cursor. *)
Lemma Serializer_serialize_fits (v : SValue) (b : Buffer) :
  wf b -> (length (encode v) <= remaining b)%nat ->
  Serializer_serialize v b =
    (value tt, mkBuffer (overwrite (data_ b) (pos_ b) (encode v))
                        (pos_ b + length (encode v))).
Proof.
  intros Hwf Hfit. rewrite Serializer_serialize_chunks.
  rewrite <- concat_chunks in *. now apply write_chunks_fits.
Qed.

Lemma Serializer_serialize_overflows (v : SValue) (b : Buffer) :
  wf b -> (remaining b < length (encode v))%nat ->
  fst (Serializer_serialize v b) = unexpected buffer_overflow.
Proof.
  intros Hwf Hbig. rewrite Serializer_serialize_chunks.
  rewrite <- concat_chunks in *. now apply write_chunks_overflows.
Qed.

End SerializerFacts.

(** ** C10: [to_bytes] and its fixed 1024-byte buffer *)

(** C10.  For every value [v] whose encoding is longer than 1024 bytes,
    [to_bytes v] fails with [buffer_overflow]: the serializer writes into a
    buffer of 1024 bytes that is never grown, so no value with an encoding
    above 1 KiB is serialized through this entry point. *)
Theorem to_bytes_over_1024_overflows (v : serialize.SValue) :
  (1024 < length (serialize.encode v))%nat ->
  serialize.to_bytes v = serialize.unexpected serialize.buffer_overflow.
Proof.
  intros Hbig. unfold serialize.to_bytes.
  pose proof (Serializer_serialize_overflows v
                (serialize.mkBuffer (repeat x00 1024) 0)) as H.
  destruct (serialize.Serializer_serialize v _) as [[t|e] b'].
  - exfalso.
    assert (serialize.value t = serialize.unexpected serialize.buffer_overflow) as E.
    { apply H.
      - unfold serialize.wf. cbn. lia.
      - unfold serialize.remaining. cbn [serialize.data_ serialize.pos_].
        rewrite repeat_length. lia. }
    discriminate E.
  - cbn [fst] in H. f_equal. 
    assert (serialize.unexpected (T:=unit) e
            = serialize.unexpected serialize.buffer_overflow) as E.
    { apply H.
      - unfold serialize.wf. cbn. lia.
      - unfold serialize.remaining. cbn [serialize.data_ serialize.pos_].
        rewrite repeat_length. lia. }
    now inversion E.
Qed.

(** The entry point does serialize what fits: up to 1024 bytes it returns the
    encoding itself. *)
Lemma to_bytes_up_to_1024 (v : serialize.SValue) :
  (length (serialize.encode v) <= 1024)%nat ->
  serialize.to_bytes v = serialize.value (serialize.encode v).
Proof.
  intros Hfit. unfold serialize.to_bytes.
  rewrite Serializer_serialize_fits.
  - cbn [serialize.position serialize.pos_ serialize.data_ Nat.add].
    now rewrite firstn_overwrite_0.
  - unfold serialize.wf. cbn. lia.
  - unfold serialize.remaining. cbn [serialize.data_ serialize.pos_].
    rewrite repeat_length. lia.
Qed.

Lemma to_bytes_over_1024_overflows_witness :
  serialize.to_bytes (serialize.VVector (repeat (serialize.VPrim 8 7) 128))
  = serialize.unexpected serialize.buffer_overflow.
Proof.
  apply to_bytes_over_1024_overflows.
  apply Nat.ltb_lt. vm_compute. reflexivity.
Defined.

(** ** C6: the variable-length size prefix *)

Section CompactSizeFacts.
Import serialize.

Lemma read_at (w : nat) (pre bs post : list byte_t) :
  length bs = w ->
  read w (mkBuffer (pre ++ bs ++ post) (length pre))
  = (value (le_value bs), mkBuffer (pre ++ bs ++ post) (length pre + w)).
Proof.
  intros Hw. unfold read, bind, read_bytes, has_space, remaining.
  cbn [data_ pos_]. rewrite !length_app.
  destruct (Nat.leb_spec w (length pre + (length bs + length post) - length pre));
    [|lia].
  cbn [negb]. unfold ret, subspan.
  rewrite skipn_app, Nat.sub_diag, skipn_all. cbn [skipn app].
  rewrite firstn_app, <- Hw, Nat.sub_diag, firstn_all. cbn [firstn].
  now rewrite app_nil_r.
Qed.

Lemma read_at_le_bytes (w : nat) (v : Z) (pre post : list byte_t) :
  0 <= v < 256 ^ Z.of_nat w ->
  read w (mkBuffer (pre ++ le_bytes w v ++ post) (length pre))
  = (value v, mkBuffer (pre ++ le_bytes w v ++ post) (length pre + w)).
Proof.
  intros Hv. rewrite read_at by apply length_le_bytes.
  now rewrite le_value_le_bytes_small.
Qed.

(** A tagged prefix: the tag byte, then the [w]-byte value. *)
Lemma deserialize_tagged (tag : Z) (w : nat) (n : Z) (pre post : list byte_t) :
  253 <= tag < 256 ->
  w = (if tag =? 253 then 2%nat else if tag =? 254 then 4%nat else 8%nat) ->
  0 <= n < 256 ^ Z.of_nat w ->
  CompactSize.deserialize
    (mkBuffer (pre ++ (le_bytes 1 tag ++ le_bytes w n) ++ post) (length pre))
  = ((if n >? MAX_SIZE then unexpected size_too_large else value n),
     mkBuffer (pre ++ (le_bytes 1 tag ++ le_bytes w n) ++ post)
              (length pre + (1 + w))).
Proof.
  intros Htag Hw Hn. unfold CompactSize.deserialize.
  rewrite <- (app_assoc (le_bytes 1 tag)).
  unfold bind at 1. rewrite read_at_le_bytes by (cbn; lia).
  destruct (Z.ltb_spec tag 253) as [|_]; [lia|].
  unfold bind.
  replace (pre ++ le_bytes 1 tag ++ le_bytes w n ++ post)
    with ((pre ++ le_bytes 1 tag) ++ le_bytes w n ++ post)
    by now rewrite <- app_assoc.
  replace (length pre + 1)%nat with (length (pre ++ le_bytes 1 tag))
    by (rewrite length_app, length_le_bytes; reflexivity).
  assert (Hread :
    (if tag =? 253 then read 2 else if tag =? 254 then read 4 else read 8)
    = read w).
  { subst w. destruct (tag =? 253); [reflexivity|].
    destruct (tag =? 254); reflexivity. }
  rewrite Hread, read_at_le_bytes by assumption.
  rewrite length_app, length_le_bytes, Nat.add_assoc.
  destruct (n >? MAX_SIZE); reflexivity.
Qed.

(** Decoding what [CompactSize::serialize] wrote. *)
Lemma deserialize_cs_encode (n : Z) (pre post : list byte_t) :
  0 <= n < 2 ^ 64 ->
  CompactSize.deserialize
    (mkBuffer (pre ++ cs_encode n ++ post) (length pre))
  = ((if n >? MAX_SIZE then unexpected size_too_large else value n),
     mkBuffer (pre ++ cs_encode n ++ post)
              (length pre + CompactSize.encoded_size n)).
Proof.
  intros Hn. unfold cs_encode, CompactSize.encoded_size.
  destruct (Z.ltb_spec n 253) as [H1|H1].
  - unfold CompactSize.deserialize, bind.
    rewrite read_at_le_bytes by (cbn; lia).
    destruct (Z.ltb_spec n 253) as [_|]; [|lia].
    destruct (Z.gtb_spec n MAX_SIZE) as [Hgt|_]; [|reflexivity].
    unfold MAX_SIZE in Hgt. lia.
  - destruct (Z.leb_spec n 0xFFFF) as [H2|H2];
      [|destruct (Z.leb_spec n 0xFFFFFFFF) as [H3|H3]].
    + apply (deserialize_tagged 253 2); [lia|reflexivity|cbn; lia].
    + apply (deserialize_tagged 254 4); [lia|reflexivity|cbn; lia].
    + apply (deserialize_tagged 255 8); [lia|reflexivity|].
      change (256 ^ Z.of_nat 8) with (2 ^ 64). lia.
Qed.

End CompactSizeFacts.

(** C6 (amended).  For every [n] in [[0, 2^64)] and every buffer with room,
    [CompactSize::serialize] succeeds and advances the cursor by 1 byte when
    [n < 253], 3 bytes when [n <= 0xFFFF], 5 bytes when [n <= 0xFFFFFFFF] and
    9 bytes otherwise; decoding what was written returns [n] when
    [n <= MAX_SIZE = 0x02000000] and fails with [size_too_large] above it. *)
Theorem CompactSize_roundtrip_up_to_MAX_SIZE (n : Z) (b : serialize.Buffer) :
  0 <= n < 2 ^ 64 ->
  serialize.wf b ->
  (serialize.CompactSize.encoded_size n <= serialize.remaining b)%nat ->
  exists b' : serialize.Buffer,
    serialize.CompactSize.serialize n b = (serialize.value tt, b')
    /\ (serialize.position b' - serialize.position b)%nat
       = (if n <? 253 then 1%nat else if n <=? 0xFFFF then 3%nat
          else if n <=? 0xFFFFFFFF then 5%nat else 9%nat)
    /\ serialize.CompactSize.deserialize
         (serialize.mkBuffer (serialize.data_ b') (serialize.pos_ b))
       = ((if n <=? serialize.MAX_SIZE then serialize.value n
           else serialize.unexpected serialize.size_too_large), b').
Proof.
  intros Hn Hwf Hfit.
  rewrite <- length_cs_encode in Hfit.
  eexists. split; [|split].
  - rewrite CompactSize_serialize_chunks.
    rewrite write_chunks_fits by (rewrite ?concat_cs_chunks; assumption).
    rewrite concat_cs_chunks. reflexivity.
  - cbn [serialize.position serialize.pos_].
    rewrite length_cs_encode, (Nat.add_comm (serialize.pos_ b)), Nat.add_sub.
    reflexivity.
  - cbn [serialize.data_ serialize.pos_].
    unfold serialize.overwrite.
    set (pre := firstn _ _). set (post := skipn _ _).
    assert (Hp : serialize.pos_ b = length pre).
    { subst pre. rewrite length_firstn. unfold serialize.wf in Hwf. lia. }
    rewrite Hp, deserialize_cs_encode by assumption.
    rewrite length_cs_encode.
    destruct (Z.gtb_spec n serialize.MAX_SIZE), (Z.leb_spec n serialize.MAX_SIZE);
      try lia; reflexivity.
Qed.

Lemma CompactSize_roundtrip_up_to_MAX_SIZE_witness :
  exists b' : serialize.Buffer,
    serialize.CompactSize.serialize 300
      (serialize.mkBuffer (repeat x00 8) 2) = (serialize.value tt, b')
    /\ serialize.CompactSize.deserialize
         (serialize.mkBuffer (serialize.data_ b') 2) = (serialize.value 300, b').
Proof.
  destruct (CompactSize_roundtrip_up_to_MAX_SIZE 300
              (serialize.mkBuffer (repeat x00 8) 2)) as (b' & Hs & _ & Hd).
  - split; [discriminate | reflexivity].
  - unfold serialize.wf. cbn. repeat constructor.
  - cbn. repeat constructor.
  - exists b'. split; [exact Hs | exact Hd].
Defined.

(** The claim as stated fails: 33,554,433 is encoded in five bytes, and
    decoding those five bytes is refused with [size_too_large]. *)
Lemma CompactSize_roundtrip_fails_above_MAX_SIZE :
  0 <= 33554433 < 2 ^ 64
  /\ serialize.CompactSize.serialize 33554433
       (serialize.mkBuffer (repeat x00 5) 0)
     = (serialize.value tt,
        serialize.mkBuffer [xfe; x01; x00; x00; x02] 5)
  /\ serialize.CompactSize.deserialize
       (serialize.mkBuffer [xfe; x01; x00; x00; x02] 0)
     = (serialize.unexpected serialize.size_too_large,
        serialize.mkBuffer [xfe; x01; x00; x00; x02] 5).
Proof.
  split; [split; [discriminate | reflexivity]|].
  split; vm_compute; reflexivity.
Qed.

(** ** Machine arithmetic *)

Lemma swrap_small (w z : Z) :
  0 < w -> - 2 ^ (w - 1) <= z < 2 ^ (w - 1) -> Machine.swrap w z = z.
Proof.
  intros Hw Hz. unfold Machine.swrap.
  replace (2 ^ w) with (2 * 2 ^ (w - 1)).
  - rewrite Z.mod_small; lia.
  - rewrite <- Z.pow_succ_r by lia. f_equal. lia.
Qed.

Lemma wrap_small (w z : Z) : 0 <= z < 2 ^ w -> Machine.wrap w z = z.
Proof. intros H. unfold Machine.wrap. now apply Z.mod_small. Qed.

Lemma wrap_range (w z : Z) : 0 <= w -> 0 <= Machine.wrap w z < 2 ^ w.
Proof.
  intros Hw. unfold Machine.wrap. apply Z.mod_pos_bound.
  now apply Z.pow_pos_nonneg.
Qed.

(** ** C1: proof of work before the activation height *)

(** The claim as stated fails: [CheckProofOfWork] accepts the largest 256-bit
    hash against the target of [nBits = 0x1d00ffff], which is far below it. *)
Lemma CheckProofOfWork_accepts_hash_above_target :
  main.CheckProofOfWork (2 ^ 256 - 1) 0x1d00ffff = true
  /\ crypto.SetCompact 0x1d00ffff = 0xffff * 2 ^ 208
  /\ ~ (2 ^ 256 - 1 <= crypto.SetCompact 0x1d00ffff).
Proof.
  split; [reflexivity|]. split; [vm_compute; reflexivity|].
  vm_compute. intros H. apply H. reflexivity.
Qed.

(** C1 (amended).  Below the activation height [HardForkManager::ValidateBlock]
    accepts a block exactly when its hash is at most its work target, and from
    the activation height on it takes the participation path;
    [CheckProofOfWork] itself compares nothing and returns true for every hash
    and every [nBits]. *)
Theorem pre_activation_blocks_checked_by_ValidatePoWBlock
    (GetHash GetWorkRequired : main.CBlock -> main.uint256)
    (block : main.CBlock) (nHeight : Z) :
  nHeight < goldcoin.HARD_FORK_HEIGHT ->
  goldcoin.IsProofOfParticipationActive nHeight = false
  /\ (hardfork.ValidateBlock GetHash GetWorkRequired block nHeight = Some true
      <-> GetHash block <= GetWorkRequired block)
  /\ (forall hash nBits, main.CheckProofOfWork hash nBits = true).
Proof.
  intros Hh.
  assert (Hact : goldcoin.IsProofOfParticipationActive nHeight = false).
  { unfold goldcoin.IsProofOfParticipationActive.
    destruct (Z.geb_spec nHeight goldcoin.HARD_FORK_HEIGHT); [lia|reflexivity]. }
  split; [exact Hact|]. split; [|reflexivity].
  unfold hardfork.ValidateBlock. rewrite Hact.
  unfold hardfork.ValidatePoWBlock.
  destruct (Z.gtb_spec (GetHash block) (GetWorkRequired block)) as [Hgt|Hle];
    split; intros Hv; try discriminate; try reflexivity; lia.
Qed.

Lemma pre_activation_blocks_checked_witness :
  hardfork.ValidateBlock (fun _ => 5) (fun b => crypto.SetCompact (main.nBits b))
    (main.mkBlock 1 0 0 0 0x1d00ffff 0 []) 100 = Some true.
Proof.
  apply (pre_activation_blocks_checked_by_ValidatePoWBlock
           (fun _ => 5) (fun b => crypto.SetCompact (main.nBits b))
           (main.mkBlock 1 0 0 0 0x1d00ffff 0 []) 100).
  - reflexivity.
  - vm_compute. discriminate.
Defined.

(** ** C2: the two reward schedules *)

Section RewardFacts.

Lemma halvings_of_height (h : Z) :
  0 <= h < 64 * 840000 ->
  Machine.cdiv h 840000 = h / 840000 /\ 0 <= h / 840000 < 64.
Proof.
  intros Hh. unfold Machine.cdiv.
  rewrite Z.quot_div_nonneg by lia. split; [reflexivity|].
  split; [apply Z.div_pos; lia | apply Z.div_lt_upper_bound; lia].
Qed.

(** The shift-based reward, below the height at which the shift count leaves
    [[0, 64)] and with fees that keep the sum in [int64_t]. *)
Lemma miner_GetBlockValue_formula (h f : Z) :
  0 <= h < 64 * 840000 ->
  - 2 ^ 63 <= f < 2 ^ 63 - 50 * main.COIN ->
  miner.GetBlockValue h f
  = Some (Z.max main.COIN (Z.shiftr (50 * main.COIN) (h / 840000)) + f).
Proof.
  intros Hh Hf. unfold miner.GetBlockValue.
  destruct (halvings_of_height h Hh) as [Hq Hk]. rewrite Hq.
  unfold Machine.shr64.
  destruct (Z.leb_spec 0 (h / 840000)); [|lia].
  destruct (Z.ltb_spec (h / 840000) 64); [|lia].
  cbn [andb].
  assert (Hs : 0 <= Z.shiftr (50 * main.COIN) (h / 840000) <= 50 * main.COIN).
  { rewrite Z.shiftr_div_pow2 by lia. split.
    - apply Z.div_pos; [unfold main.COIN; lia | apply Z.pow_pos_nonneg; lia].
    - apply Z.div_le_upper_bound; [apply Z.pow_pos_nonneg; lia|].
      assert (0 < 2 ^ (h / 840000)) by (apply Z.pow_pos_nonneg; lia).
      unfold main.COIN. nia. }
  unfold main.COIN in *.
  destruct (Z.ltb_spec (Z.shiftr (50 * 100000000) (h / 840000)) 100000000);
    f_equal; rewrite swrap_small by lia; lia.
Qed.

Lemma goldcoin_GetBlockValue_formula (h f : Z) :
  - 2 ^ 63 <= f < 2 ^ 63 - 50 * goldcoin.COIN ->
  goldcoin.GetBlockValue h f
  = (if h <? 840000 then 50 * goldcoin.COIN
     else if h <? 1680000 then 25 * goldcoin.COIN
     else if h <? 2520000 then 10 * goldcoin.COIN
     else if h <? 3360000 then 5 * goldcoin.COIN
     else 2 * goldcoin.COIN) + f.
Proof.
  intros Hf. unfold goldcoin.GetBlockValue, goldcoin.COIN in *.
  apply swrap_small; [lia|].
  destruct (h <? 840000); [lia|].
  destruct (h <? 1680000); [lia|].
  destruct (h <? 2520000); [lia|].
  destruct (h <? 3360000); lia.
Qed.

(** The shifted subsidy, halving by halving. *)
Lemma shifted_subsidy_cases (k : Z) :
  0 <= k < 64 ->
  Z.max main.COIN (Z.shiftr (50 * main.COIN) k)
  = (if k =? 0 then 5000000000
     else if k =? 1 then 2500000000
     else if k =? 2 then 1250000000
     else if k =? 3 then 625000000
     else if k =? 4 then 312500000
     else if k =? 5 then 156250000
     else 100000000).
Proof.
  intros Hk.
  destruct (Z.eqb_spec k 0); [subst; reflexivity|].
  destruct (Z.eqb_spec k 1); [subst; reflexivity|].
  destruct (Z.eqb_spec k 2); [subst; reflexivity|].
  destruct (Z.eqb_spec k 3); [subst; reflexivity|].
  destruct (Z.eqb_spec k 4); [subst; reflexivity|].
  destruct (Z.eqb_spec k 5); [subst; reflexivity|].
  apply Z.max_l. rewrite Z.shiftr_div_pow2 by lia.
  apply Z.lt_le_incl, Z.div_lt_upper_bound; [apply Z.pow_pos_nonneg; lia|].
  assert (2 ^ 6 <= 2 ^ k) by (apply Z.pow_le_mono_r; lia).
  unfold main.COIN. change (2 ^ 6) with 64 in *. nia.
Qed.

End RewardFacts.

(** The claim as stated fails: at height 1,680,000 the shift-based reward is
    12.5 GLC and the stepped one is 10 GLC. *)
Lemma GetBlockValue_definitions_differ_at_1680000 :
  miner.GetBlockValue 1680000 0 = Some 1250000000
  /\ goldcoin.GetBlockValue 1680000 0 = 1000000000.
Proof. split; vm_compute; reflexivity. Qed.

(** Where the two schedules give the same subsidy. *)
Lemma schedules_agree_iff (h : Z) :
  0 <= h < 64 * 840000 ->
  (if h / 840000 =? 0 then 5000000000
   else if h / 840000 =? 1 then 2500000000
   else if h / 840000 =? 2 then 1250000000
   else if h / 840000 =? 3 then 625000000
   else if h / 840000 =? 4 then 312500000
   else if h / 840000 =? 5 then 156250000
   else 100000000)
  = (if h <? 840000 then 50 * goldcoin.COIN
     else if h <? 1680000 then 25 * goldcoin.COIN
     else if h <? 2520000 then 10 * goldcoin.COIN
     else if h <? 3360000 then 5 * goldcoin.COIN
     else 2 * goldcoin.COIN)
  <-> h < 1680000.
Proof.
  intros Hh.
  pose proof (Z.mul_div_le h 840000 ltac:(lia)) as Hlo.
  pose proof (Z.mul_succ_div_gt h 840000 ltac:(lia)) as Hhi.
  unfold goldcoin.COIN.
  generalize dependent (h / 840000). intros k Hlo Hhi.
  destruct (Z.eqb_spec k 0) as [E|N0]; [subst k|
  destruct (Z.eqb_spec k 1) as [E|N1]; [subst k|
  destruct (Z.eqb_spec k 2) as [E|N2]; [subst k|
  destruct (Z.eqb_spec k 3) as [E|N3]; [subst k|
  destruct (Z.eqb_spec k 4) as [E|N4]; [subst k|
  destruct (Z.eqb_spec k 5) as [E|N5]; [subst k|]]]]]];
  (destruct (Z.ltb_spec h 840000); [split; intros; lia|]);
  (destruct (Z.ltb_spec h 1680000); [split; intros; lia|]);
  (destruct (Z.ltb_spec h 2520000); [split; intros; lia|]);
  (destruct (Z.ltb_spec h 3360000); split; intros; lia).
Qed.

(** C2 (amended).  For every height [h] in [[0, 64 * 840000)] and fee total
    [f] that keeps the sum in [int64_t], the reward of participation.cpp is
    [max (1 GLC) (50 GLC >> (h / 840000)) + f]; the stepped [GetBlockValue] of
    goldcoin.h returns the same reward exactly for the heights below
    1,680,000. *)
Theorem GetBlockValue_shift_formula_and_agreement (h f : Z) :
  0 <= h < 64 * 840000 ->
  - 2 ^ 63 <= f < 2 ^ 63 - 50 * main.COIN ->
  miner.GetBlockValue h f
  = Some (Z.max main.COIN (Z.shiftr (50 * main.COIN) (h / 840000)) + f)
  /\ (miner.GetBlockValue h f = Some (goldcoin.GetBlockValue h f)
      <-> h < 1680000).
Proof.
  intros Hh Hf. split; [now apply miner_GetBlockValue_formula|].
  rewrite miner_GetBlockValue_formula, goldcoin_GetBlockValue_formula
    by assumption.
  destruct (halvings_of_height h Hh) as [_ Hk].
  rewrite shifted_subsidy_cases by assumption.
  rewrite <- (schedules_agree_iff h Hh).
  split; intros Heq.
  - injection Heq as Heq'. now apply Z.add_cancel_r in Heq'.
  - now rewrite Heq.
Qed.

Lemma GetBlockValue_shift_formula_and_agreement_witness :
  miner.GetBlockValue 840000 7 = Some (goldcoin.GetBlockValue 840000 7).
Proof.
  apply (GetBlockValue_shift_formula_and_agreement 840000 7); vm_compute;
    (split; [discriminate | reflexivity]) || reflexivity.
Defined.

(** ** C3: who takes part in the draw *)

Section EligibilityFacts.
Import participation.


End EligibilityFacts.




(** ** Binary64: conversions of integers and the threshold of the lottery *)

(** [digits2_pos] counts binary digits. *)
Lemma digits2_pos_size (p : positive) : digits2_pos p = Pos.size p.
Proof. induction p; cbn; now rewrite ?IHp. Qed.

Lemma digits2_pos_bounds (p : positive) :
  2 ^ (Zpos (digits2_pos p) - 1) <= Zpos p < 2 ^ Zpos (digits2_pos p).
Proof.
  induction p as [p IH|p IH|]; cbn [digits2_pos].
  - rewrite Pos2Z.inj_succ, (Pos2Z.inj_xI p).
    replace (Z.succ (Zpos (digits2_pos p)) - 1)
      with (Z.succ (Zpos (digits2_pos p) - 1)) by lia.
    rewrite !Z.pow_succ_r by lia.
    revert IH. generalize (2 ^ (Zpos (digits2_pos p) - 1)).
    generalize (2 ^ Zpos (digits2_pos p)). intros; lia.
  - rewrite Pos2Z.inj_succ, (Pos2Z.inj_xO p).
    replace (Z.succ (Zpos (digits2_pos p)) - 1)
      with (Z.succ (Zpos (digits2_pos p) - 1)) by lia.
    rewrite !Z.pow_succ_r by lia.
    revert IH. generalize (2 ^ (Zpos (digits2_pos p) - 1)).
    generalize (2 ^ Zpos (digits2_pos p)). intros; lia.
  - cbn. lia.
Qed.

Lemma digits2_pos_unique (p : positive) (d : Z) :
  2 ^ (d - 1) <= Zpos p < 2 ^ d -> Zpos (digits2_pos p) = d.
Proof.
  intros [Hlo Hhi]. pose proof (digits2_pos_bounds p) as [Blo Bhi].
  set (k := Zpos (digits2_pos p)) in *.
  assert (0 < k) by (subst k; lia).
  assert (Hd : 0 < d).
  { destruct (Z.lt_ge_cases 0 d) as [|Hneg]; [assumption|].
    exfalso. destruct (Z.eq_dec d 0) as [->|].
    - cbn in Hhi. lia.
    - rewrite (Z.pow_neg_r 2 d) in Hhi by lia. lia. }
  destruct (Z.lt_trichotomy k d) as [Hlt|[Heq|Hgt]]; [|exact Heq|].
  - exfalso. assert (2 ^ k <= 2 ^ (d - 1)) by (apply Z.pow_le_mono_r; lia). lia.
  - exfalso. assert (2 ^ d <= 2 ^ (k - 1)) by (apply Z.pow_le_mono_r; lia). lia.
Qed.


(** The exponent of the last kept digit, away from the subnormal range. *)
Lemma fexp64 (e : Z) : -1021 <= e -> fexp 53 1024 e = e - 53.
Proof. intros H. unfold fexp, emin. lia. Qed.

(** A mantissa of 53 digits with a moderate exponent is already Double.rounded. *)
Lemma binary_round_aux_exact (s : bool) (m : positive) (e : Z) :
  Zpos (digits2_pos m) = 53 -> -1074 <= e <= 971 ->
  binary_round_aux 53 1024 s (Zpos m) e loc_Exact = S754_finite s m e.
Proof.
  intros Hd He. unfold binary_round_aux, shr_fexp.
  cbn [Zdigits2 shr_record_of_loc]. rewrite Hd.
  rewrite fexp64 by lia.
  replace (53 + e - 53 - e) with 0 by lia.
  cbn [shr shr_m loc_of_shr_record round_nearest_even Zdigits2 shr_record_of_loc].
  rewrite Hd, fexp64 by lia.
  replace (53 + e - 53 - e) with 0 by lia.
  cbn [shr shr_m].
  destruct (Z.leb_spec e (1024 - 53)); [reflexivity | lia].
Qed.

Lemma digits2_pos_iter_xO (p k : positive) :
  Zpos (digits2_pos (Pos.iter xO p k)) = Zpos (digits2_pos p) + Zpos k.
Proof.
  induction k as [|k IH] using Pos.peano_ind.
  - cbn [Pos.iter digits2_pos]. lia.
  - rewrite Pos.iter_succ. cbn [digits2_pos]. lia.
Qed.

(** Integers below [2^53] convert without rounding, to an exponent that is
    not positive. *)
Lemma of_Z_small (p : positive) :
  Zpos (digits2_pos p) <= 53 ->
  exists m : positive,
    Double.of_Z (Zpos p) = S754_finite false m (Zpos (digits2_pos p) - 53)
    /\ Zpos (digits2_pos m) = 53.
Proof.
  intros Hd. unfold Double.of_Z, Double.prec, Double.emax.
  cbn [binary_normalize]. unfold binary_round.
  rewrite Z.add_0_r, fexp64 by lia. unfold shl_align.
  destruct (Zpos (digits2_pos p) - 53 - 0) as [|k|k] eqn:Hk; try lia.
  - exists p. replace (Zpos (digits2_pos p) - 53) with 0 by lia.
    split; [|lia]. apply binary_round_aux_exact; lia.
  - exists (Pos.iter xO p k).
    assert (Hdig : Zpos (digits2_pos (Pos.iter xO p k)) = 53).
    { rewrite digits2_pos_iter_xO. lia. }
    split; [|exact Hdig]. apply binary_round_aux_exact; [exact Hdig | lia].
Qed.

(** The shift loop of [shr], counted in unary. *)
Lemma iter_pos_nat {A : Type} (f : A -> A) (p : positive) :
  forall x, iter_pos f p x = Nat.iter (Pos.to_nat p) f x.
Proof.
  induction p as [p IH|p IH|]; intros x; cbn [iter_pos].
  - rewrite !IH, Pos2Nat.inj_xI, Nat.iter_succ_r.
    replace (2 * Pos.to_nat p)%nat with (Pos.to_nat p + Pos.to_nat p)%nat by lia.
    now rewrite Nat.iter_add.
  - rewrite !IH, Pos2Nat.inj_xO.
    replace (2 * Pos.to_nat p)%nat with (Pos.to_nat p + Pos.to_nat p)%nat by lia.
    now rewrite Nat.iter_add.
  - reflexivity.
Qed.

Lemma shr_1_nonneg (m : Z) (r s : bool) :
  0 <= m ->
  shr_1 (Build_shr_record m r s) = Build_shr_record (Z.div2 m) (Z.odd m) (r || s).
Proof.
  intros Hm. destruct m as [|p|p]; [reflexivity | destruct p; reflexivity | lia].
Qed.

(** [k + 1] right shifts keep the quotient, the last bit shifted out and
    whether anything below it was set. *)
Lemma iter_shr_1 (k : nat) (m : Z) :
  0 <= m ->
  Nat.iter (S k) shr_1 (Build_shr_record m false false)
  = Build_shr_record (m / 2 ^ Z.of_nat (S k)) (Z.testbit m (Z.of_nat k))
                     (negb (m mod 2 ^ Z.of_nat k =? 0)).
Proof.
  intros Hm. induction k as [|k IH].
  - cbn [Nat.iter]. rewrite shr_1_nonneg by assumption.
    rewrite Z.div2_div, Z.bit0_odd.
    change (2 ^ Z.of_nat 1) with 2. change (2 ^ Z.of_nat 0) with 1.
    now rewrite Z.mod_1_r.
  - change (Nat.iter (S (S k)) shr_1 ?x) with (shr_1 (Nat.iter (S k) shr_1 x)).
    rewrite IH.
    assert (Hp : 0 < 2 ^ Z.of_nat (S k)) by (apply Z.pow_pos_nonneg; lia).
    assert (Hp' : 0 < 2 ^ Z.of_nat k) by (apply Z.pow_pos_nonneg; lia).
    rewrite shr_1_nonneg by (apply Z.div_pos; lia).
    f_equal.
    + rewrite Z.div2_div, Z.div_div by lia.
      rewrite (Nat2Z.inj_succ (S k)), Z.pow_succ_r by lia.
      f_equal. lia.
    + rewrite <- Z.shiftr_div_pow2 by lia.
      rewrite <- Z.bit0_odd, Z.shiftr_spec by lia. f_equal.
    + rewrite (Nat2Z.inj_succ k), Z.pow_succ_r by lia.
      rewrite (Z.mul_comm 2), Z.rem_mul_r by lia.
      assert (Ht : Z.testbit m (Z.of_nat k) = Z.odd (m / 2 ^ Z.of_nat k)).
      { rewrite <- Z.shiftr_div_pow2, <- Z.bit0_odd, Z.shiftr_spec by lia.
        f_equal. }
      rewrite Ht, Zmod_odd.
      pose proof (Z.mod_pos_bound m (2 ^ Z.of_nat k) Hp') as Hb.
      destruct (Z.odd (m / 2 ^ Z.of_nat k));
        destruct (Z.eqb_spec (m mod 2 ^ Z.of_nat k) 0) as [E0|N0];
        cbn [negb orb];
        match goal with |- _ = negb (?x =? 0) =>
          destruct (Z.eqb_spec x 0) end;
        try reflexivity; exfalso; lia.
Qed.

(** Dropping [n] digits of an integer of [53 + n] digits leaves 53. *)
Lemma quotient_53_digits (p n : positive) :
  Zpos (digits2_pos p) = 53 + Zpos n ->
  2 ^ 52 <= Zpos p / 2 ^ Zpos n < 2 ^ 53.
Proof.
  intros Hd. pose proof (digits2_pos_bounds p) as [Hlo Hhi]. rewrite Hd in *.
  replace (53 + Zpos n - 1) with (52 + Zpos n) in Hlo by lia.
  rewrite Z.pow_add_r in Hlo, Hhi by lia.
  assert (0 < 2 ^ Zpos n) by (apply Z.pow_pos_nonneg; lia).
  split.
  - apply Z.div_le_lower_bound; lia.
  - apply Z.div_lt_upper_bound; lia.
Qed.

Lemma rounded_cases (p n : positive) :
  Double.rounded p n = Zpos p / 2 ^ Zpos n \/ Double.rounded p n = Zpos p / 2 ^ Zpos n + 1.
Proof.
  unfold Double.rounded.
  destruct (Z.testbit _ _), (negb _); cbn [loc_of_shr_record round_nearest_even];
    try destruct (Z.even _); auto.
Qed.

(** Integers of more than 53 digits are Double.rounded to nearest, ties to even;
    the exponent is the number of digits dropped, one more when the rounding
    carries into a 54th digit. *)
Lemma of_Z_large (p n : positive) :
  Zpos (digits2_pos p) = 53 + Zpos n -> Zpos n <= 900 ->
  Double.of_Z (Zpos p)
  = if Double.rounded p n <? 2 ^ 53
    then S754_finite false (Z.to_pos (Double.rounded p n)) (Zpos n)
    else S754_finite false 4503599627370496 (Zpos n + 1).
Proof.
  intros Hd Hn.
  pose proof (quotient_53_digits p n Hd) as Hq.
  pose proof (rounded_cases p n) as Hr.
  unfold Double.of_Z, Double.prec, Double.emax.
  cbn [binary_normalize]. unfold binary_round.
  rewrite Z.add_0_r, fexp64 by lia. unfold shl_align.
  replace (Zpos (digits2_pos p) - 53 - 0) with (Zpos n) by lia.
  assert (H1 : shr_fexp 53 1024 (Zpos p) 0 loc_Exact
               = (Build_shr_record (Zpos p / 2 ^ Zpos n)
                    (Z.testbit (Zpos p) (Zpos n - 1))
                    (negb (Zpos p mod 2 ^ (Zpos n - 1) =? 0)), Zpos n)).
  { unfold shr_fexp. cbn [Zdigits2 shr_record_of_loc].
    rewrite Z.add_0_r, fexp64 by lia.
    replace (Zpos (digits2_pos p) - 53 - 0) with (Zpos n) by lia.
    cbn [shr]. rewrite iter_pos_nat.
    destruct (Pos2Nat.is_succ n) as [k Hk]. rewrite Hk, iter_shr_1 by lia.
    replace (Z.of_nat (S k)) with (Zpos n) by lia.
    replace (Z.of_nat k) with (Zpos n - 1) by lia.
    now rewrite Z.add_0_l. }
  unfold binary_round_aux. rewrite H1. cbv beta iota zeta.
  cbn [shr_m]. fold (Double.rounded p n).
  destruct (Z.ltb_spec (Double.rounded p n) (2 ^ 53)) as [Hlt|Hge].
  - destruct (Double.rounded p n) as [|m1|m1] eqn:Hm1; try lia.
    assert (Hd1 : Zpos (digits2_pos m1) = 53)
      by (apply digits2_pos_unique; change (53 - 1) with 52; lia).
    unfold shr_fexp. cbn [Zdigits2 shr_record_of_loc]. rewrite Hd1.
    rewrite fexp64 by lia.
    replace (53 + Zpos n - 53 - Zpos n) with 0 by lia.
    cbn [shr shr_m Z.to_pos].
    destruct (Z.leb_spec (Zpos n) (1024 - 53)); [reflexivity | lia].
  - assert (Hm1 : Double.rounded p n = 2 ^ 53) by lia. rewrite Hm1.
    change (2 ^ 53) with 9007199254740992.
    unfold shr_fexp. cbn [Zdigits2 shr_record_of_loc digits2_pos Pos.succ].
    rewrite fexp64 by lia.
    replace (54 + Zpos n - 53 - Zpos n) with 1 by lia.
    cbn [shr iter_pos shr_1 shr_m].
    destruct (Z.leb_spec (Zpos n + 1) (1024 - 53)); [reflexivity | lia].
Qed.

(** [static_cast<double>(UINT64_MAX)] is [2^64], and [1.0 / 1000.0] has the
    significand 4611686018427388 at exponent -62. *)
Lemma of_Z_2_64 : Double.of_Z (2 ^ 64 - 1) = S754_finite false 4503599627370496 12.
Proof. vm_compute. reflexivity. Qed.

Lemma one_thousandth :
  Double.div (Double.of_Z 1) (Double.of_Z 1000)
  = S754_finite false 4611686018427388 (-62).
Proof. vm_compute. reflexivity. Qed.

(** Dividing a 53-digit double by [2^64] moves the exponent and nothing
    else. *)
Lemma div_by_2_64 (m : positive) (e : Z) :
  Zpos (digits2_pos m) = 53 -> -900 <= e <= 900 ->
  Double.div (S754_finite false m e) (S754_finite false 4503599627370496 12)
  = S754_finite false m (e - 64).
Proof.
  intros Hd He. unfold Double.div, Double.prec, Double.emax, SFdiv.
  assert (Hcore :
    SFdiv_core_binary 53 1024 (Zpos m) e 4503599627370496 12
    = (Zpos m~0, e - 65, loc_Exact)).
  { unfold SFdiv_core_binary. cbn [Zdigits2]. rewrite Hd.
    change (Zpos (digits2_pos 4503599627370496)) with 53.
    rewrite fexp64 by lia.
    replace (Z.min (53 + e - (53 + 12) - 53) (e - 12)) with (e - 65) by lia.
    replace (e - 12 - (e - 65)) with 53 by lia.
    rewrite Z.shiftl_mul_pow2 by lia. change (2 ^ 53) with 9007199254740992.
    pose proof (Z_div_mod (Zpos m * 9007199254740992) 4503599627370496
                  ltac:(reflexivity)) as Hdm.
    destruct (Z.div_eucl (Zpos m * 9007199254740992) 4503599627370496)
      as [q r].
    destruct Hdm as [Heq Hr].
    assert (r = 0) by lia. assert (q = Zpos m~0) by lia. subst q r.
    reflexivity. }
  assert (Hd2 : Zpos (digits2_pos m~0) = 54).
  { pose proof (digits2_pos_bounds m) as Hb. rewrite Hd in Hb.
    apply digits2_pos_unique. rewrite Pos2Z.inj_xO.
    change (2 ^ (54 - 1)) with (2 * 2 ^ (53 - 1)).
    change (2 ^ 54) with (2 * 2 ^ 53). lia. }
  rewrite Hcore. cbn [xorb].
  unfold binary_round_aux, shr_fexp.
  cbn [Zdigits2 shr_record_of_loc].
  rewrite Hd2. rewrite fexp64 by lia.
  replace (54 + (e - 65) - 53 - (e - 65)) with 1 by lia.
  cbn [shr iter_pos shr_1 shr_m loc_of_shr_record round_nearest_even
       Zdigits2 shr_record_of_loc orb].
  rewrite Hd, fexp64 by lia.
  replace (53 + (e - 65 + 1) - 53 - (e - 65 + 1)) with 0 by lia.
  cbn [shr shr_m].
  replace (e - 65 + 1) with (e - 64) by lia.
  destruct (Z.leb_spec (e - 64) (1024 - 53)); [reflexivity | lia].
Qed.

(** Comparing a 53-digit double with [1.0 / 1000.0]. *)
Lemma ltb_one_thousandth (m : positive) (e : Z) :
  Double.ltb (S754_finite false m (e - 64))
             (S754_finite false 4611686018427388 (-62))
  = (e <? 2) || ((e =? 2) && (Zpos m <? 4611686018427388)).
Proof.
  unfold Double.ltb, SFltb, SFcompare.
  destruct (Z.compare_spec (e - 64) (-62)) as [E|L|G].
  - destruct (Z.ltb_spec e 2); [lia|]. destruct (Z.eqb_spec e 2); [|lia].
    cbn [orb andb]. unfold Z.ltb. cbn [Z.compare].
    rewrite Pos.compare_cont_spec. cbn [Pos.switch_Eq].
    destruct (Pos.compare m 4611686018427388); reflexivity.
  - destruct (Z.ltb_spec e 2); [reflexivity | lia].
  - destruct (Z.ltb_spec e 2); [lia|]. destruct (Z.eqb_spec e 2); [lia|].
    reflexivity.
Qed.

(** Unless the rounding carries, the rounded significand has 53 digits. *)
Lemma rounded_53_digits (p n : positive) :
  Zpos (digits2_pos p) = 53 + Zpos n -> Double.rounded p n < 2 ^ 53 ->
  0 < Double.rounded p n /\ Zpos (digits2_pos (Z.to_pos (Double.rounded p n))) = 53.
Proof.
  intros Hd Hlt.
  pose proof (quotient_53_digits p n Hd) as Hq.
  pose proof (rounded_cases p n) as Hr.
  assert (H52 : 0 < 2 ^ 52) by reflexivity.
  split; [lia|]. apply digits2_pos_unique. rewrite Z2Pos.id by lia.
  change (53 - 1) with 52. lia.
Qed.

(** Rounding a 55-digit integer to 53 digits, against the mantissa of
    [1.0 / 1000.0]. *)
Lemma rounded_two_digits (p : positive) :
  Zpos (digits2_pos p) = 55 ->
  (Double.rounded p 2 <? 4611686018427388) = (Zpos p <? 18446744073709550).
Proof.
  intros Hd. unfold Double.rounded.
  change (2 ^ Zpos 2) with 4. change (Zpos 2 - 1) with 1.
  change (2 ^ 1) with 2.
  rewrite Z.testbit_odd, Z.shiftr_div_pow2 by lia. change (2 ^ 1) with 2.
  pose proof (Z.div_mod (Zpos p) 2 ltac:(lia)) as E2.
  pose proof (Z.mod_pos_bound (Zpos p) 2 ltac:(lia)) as B2.
  pose proof (Z.div_mod (Zpos p / 2) 2 ltac:(lia)) as E4.
  pose proof (Z.mod_pos_bound (Zpos p / 2) 2 ltac:(lia)) as B4.
  rewrite Z.div_div in E4 by lia. change (2 * 2) with 4 in E4.
  rewrite (Zmod_odd (Zpos p / 2)) in E4, B4.
  set (q := Zpos p / 4) in *.
  destruct (Z.odd (Zpos p / 2));
    destruct (Z.eqb_spec (Zpos p mod 2) 0) as [E0|E0];
    cbn [negb loc_of_shr_record round_nearest_even].
  - destruct (Z.even q) eqn:Ev.
    + apply Z.even_spec in Ev. destruct Ev as [k Ek].
      destruct (Z.ltb_spec q 4611686018427388);
        destruct (Z.ltb_spec (Zpos p) 18446744073709550); lia.
    + destruct (Z.ltb_spec (q + 1) 4611686018427388);
        destruct (Z.ltb_spec (Zpos p) 18446744073709550); lia.
  - destruct (Z.ltb_spec (q + 1) 4611686018427388);
      destruct (Z.ltb_spec (Zpos p) 18446744073709550); lia.
  - destruct (Z.ltb_spec q 4611686018427388);
      destruct (Z.ltb_spec (Zpos p) 18446744073709550); lia.
  - destruct (Z.ltb_spec q 4611686018427388);
      destruct (Z.ltb_spec (Zpos p) 18446744073709550); lia.
Qed.

(** The comparison of [IsWinningHash] at the threshold [1.0 / 1000.0], as a
    comparison of integers. *)
Lemma probability_below_one_thousandth (v : Z) :
  0 <= v < 2 ^ 64 ->
  Double.ltb (Double.div (Double.of_Z v) (Double.of_Z (2 ^ 64 - 1)))
             (Double.div (Double.of_Z 1) (Double.of_Z 1000))
  = (v <? 18446744073709550).
Proof.
  intros Hv. rewrite of_Z_2_64, one_thousandth.
  destruct v as [|p|p]; [reflexivity| |lia].
  pose proof (digits2_pos_bounds p) as Hb.
  assert (Hd64 : Zpos (digits2_pos p) <= 64).
  { destruct (Z.le_gt_cases (Zpos (digits2_pos p)) 64) as [Hle|Hgt]; [exact Hle|].
    exfalso. assert (2 ^ 64 <= 2 ^ (Zpos (digits2_pos p) - 1))
      by (apply Z.pow_le_mono_r; lia). lia. }
  destruct (Z.le_gt_cases (Zpos (digits2_pos p)) 53) as [Hs|Hl].
  - destruct (of_Z_small p Hs) as [m [Hm Hdm]].
    rewrite Hm, div_by_2_64, ltb_one_thousandth by lia.
    assert (Zpos p < 2 ^ 53) by
      (apply Z.lt_le_trans with (1 := proj2 Hb); apply Z.pow_le_mono_r; lia).
    change (2 ^ 53) with 9007199254740992 in *.
    destruct (Z.ltb_spec (Zpos (digits2_pos p) - 53) 2); [|lia].
    destruct (Z.ltb_spec (Zpos p) 18446744073709550); [reflexivity | lia].
  - set (n := Z.to_pos (Zpos (digits2_pos p) - 53)).
    assert (Hn : Zpos (digits2_pos p) = 53 + Zpos n)
      by (unfold n; rewrite Z2Pos.id; lia).
    rewrite (of_Z_large p n Hn) by lia.
    pose proof (quotient_53_digits p n Hn) as Hq.
    pose proof (rounded_cases p n) as Hr.
    destruct (Z.ltb_spec (Double.rounded p n) (2 ^ 53)) as [Hlt|Hge].
    + destruct (rounded_53_digits p n Hn Hlt) as [Hpos Hdr].
      rewrite div_by_2_64, ltb_one_thousandth by lia.
      rewrite Z2Pos.id by lia.
      destruct (Z.eq_dec (Zpos n) 1) as [E1|N1];
        [|destruct (Z.eq_dec (Zpos n) 2) as [E2|N2]].
      * destruct (Z.ltb_spec (Zpos n) 2); [|lia]. cbn [orb].
        assert (2 ^ Zpos (digits2_pos p) <= 2 ^ 54)
          by (apply Z.pow_le_mono_r; lia).
        change (2 ^ 54) with 18014398509481984 in *.
        destruct (Z.ltb_spec (Zpos p) 18446744073709550); [reflexivity | lia].
      * assert (En : n = 2%positive) by lia. rewrite En in *.
        change (Zpos 2 <? 2) with false. change (Zpos 2 =? 2) with true.
        cbn [orb andb]. apply rounded_two_digits. lia.
      * assert (3 <= Zpos n) by lia.
        destruct (Z.ltb_spec (Zpos n) 2); [lia|].
        destruct (Z.eqb_spec (Zpos n) 2); [lia|]. cbn [orb andb].
        assert (2 ^ 55 <= 2 ^ (Zpos (digits2_pos p) - 1))
          by (apply Z.pow_le_mono_r; lia).
        change (2 ^ 55) with 36028797018963968 in *.
        destruct (Z.ltb_spec (Zpos p) 18446744073709550); [lia | reflexivity].
    + rewrite div_by_2_64, ltb_one_thousandth by (try reflexivity; lia).
      destruct (Z.eq_dec (Zpos n) 1) as [E1|N1].
      * destruct (Z.ltb_spec (Zpos n + 1) 2); [lia|].
        destruct (Z.eqb_spec (Zpos n + 1) 2); [|lia].
        change (Zpos 4503599627370496 <? 4611686018427388) with true.
        cbn [orb andb].
        assert (2 ^ Zpos (digits2_pos p) <= 2 ^ 54)
          by (apply Z.pow_le_mono_r; lia).
        change (2 ^ 54) with 18014398509481984 in *.
        destruct (Z.ltb_spec (Zpos p) 18446744073709550); [reflexivity | lia].
      * destruct (Z.ltb_spec (Zpos n + 1) 2); [lia|].
        destruct (Z.eqb_spec (Zpos n + 1) 2); [lia|]. cbn [orb andb].
        assert (2 ^ 54 <= 2 ^ (Zpos (digits2_pos p) - 1))
          by (apply Z.pow_le_mono_r; lia).
        assert (0 < 2 ^ Zpos n) by (apply Z.pow_pos_nonneg; lia).
        assert (4 <= 2 ^ Zpos n)
          by (change 4 with (2 ^ 2); apply Z.pow_le_mono_r; lia).
        pose proof (Z.mul_div_le (Zpos p) (2 ^ Zpos n) ltac:(lia)).
        change (2 ^ 53) with 9007199254740992 in *.
        destruct (Z.ltb_spec (Zpos p) 18446744073709550); [nia | reflexivity].
Qed.

(** ** C4: the draw *)

Section DrawFacts.
Import participation.

Variable Hash : main.uint256 -> Z -> main.uint256.
Variable Get64 : main.uint256 -> Z.

Lemma selectWinner_empty (seed : main.uint256) (H : Z) :
  selectWinner Hash Get64 seed [] H = None.
Proof. reflexivity. Qed.

Lemma selectWinner_index (seed : main.uint256)
    (participants : list ParticipationEntry) (H : Z) :
  participants <> [] ->
  selectWinner Hash Get64 seed participants H
  = nth_error participants
      (Z.to_nat (Get64 (Hash seed H) mod Z.of_nat (length participants)))
  /\ (Z.to_nat (Get64 (Hash seed H) mod Z.of_nat (length participants))
      < length participants)%nat.
Proof.
  intros Hne. destruct participants as [|p ps]; [congruence|].
  split; [reflexivity|].
  pose proof (Z.mod_pos_bound (Get64 (Hash seed H))
                (Z.of_nat (length (p :: ps)))) as Hb.
  cbn [length] in *. lia.
Qed.

Lemma selectWinner_single (seed : main.uint256) (p : ParticipationEntry) (H : Z) :
  selectWinner Hash Get64 seed [p] H = Some p.
Proof.
  unfold selectWinner. cbn [length]. change (Z.of_nat 1) with 1.
  now rewrite Z.mod_1_r.
Qed.

End DrawFacts.

(** The claim as stated fails: whatever hash, per-participant outputs and
    targets one takes, [selectWinner] is not the rule "wins iff output below
    TARGET(H)".  A lone participant always wins, so every output would be
    below the target; then two participants would both win, yet the draw
    returns one entry. *)
Lemma selectWinner_is_not_a_threshold_lottery :
  ~ (exists (Hash : main.uint256 -> Z -> main.uint256)
            (Get64 : main.uint256 -> Z) (seed : main.uint256)
            (output : participation.ParticipationEntry -> Z -> Z)
            (TARGET : Z -> Z),
        forall participants H p,
          In p participants ->
          (participation.selectWinner Hash Get64 seed participants H = Some p
           <-> output p H < TARGET H)).
Proof.
  intros (Hash & Get64 & seed & output & TARGET & Hrule).
  set (a := participation.mkEntry 1 1 1 1).
  set (b := participation.mkEntry 2 2 2 2).
  assert (Ha : output a 0 < TARGET 0).
  { apply (Hrule [a] 0 a); [now left | apply selectWinner_single]. }
  assert (Hb : output b 0 < TARGET 0).
  { apply (Hrule [b] 0 b); [now left | apply selectWinner_single]. }
  apply (Hrule [a; b] 0 a) in Ha; [|now left].
  apply (Hrule [a; b] 0 b) in Hb; [|right; now left].
  rewrite Ha in Hb. discriminate Hb.
Qed.

(** On a non-empty list the draw returns one entry, the one at index
    [Get64 (Hash (seed, H)) mod n]. *)
Lemma selectWinner_unique_winner
    (Hash : main.uint256 -> Z -> main.uint256) (Get64 : main.uint256 -> Z)
    (seed : main.uint256)
    (participants : list participation.ParticipationEntry) (H : Z) :
  participants <> [] ->
  exists (i : nat) (winner : participation.ParticipationEntry),
    Z.of_nat i = Get64 (Hash seed H) mod Z.of_nat (length participants)
    /\ nth_error participants i = Some winner
    /\ forall p,
         participation.selectWinner Hash Get64 seed participants H = Some p
         <-> p = winner.
Proof.
  intros Hne.
  destruct (selectWinner_index Hash Get64 seed participants H Hne) as [Hsel Hlt].
  pose proof (Z.mod_pos_bound (Get64 (Hash seed H))
                (Z.of_nat (length participants))) as Hb.
  assert (0 < Z.of_nat (length participants)).
  { destruct participants; [congruence | cbn [length]; lia]. }
  set (i := Z.to_nat (Get64 (Hash seed H) mod Z.of_nat (length participants))) in *.
  destruct (nth_error participants i) as [w|] eqn:Hnth.
  - exists i, w. split; [subst i; rewrite Z2Nat.id; lia|].
    split; [exact Hnth|].
    intros p. rewrite Hsel. split; [now intros [= ->] | now intros ->].
  - apply nth_error_None in Hnth. lia.
Qed.

(** The modern lottery reads the first eight bytes of the hash only. *)
Lemma IsWinningHash_reads_eight_bytes (h1 h2 : pop.Output) (t : Double.double) :
  (forall i, (i < 8)%nat -> nth i h1 x00 = nth i h2 x00) ->
  pop.IsWinningHash h1 t = pop.IsWinningHash h2 t.
Proof.
  intros Heq. unfold pop.IsWinningHash, pop.hash_value. cbn [seq fold_left].
  rewrite !Heq by lia. reflexivity.
Qed.

Lemma hash_value_range (h : pop.Output) : 0 <= pop.hash_value h < 2 ^ 64.
Proof.
  unfold pop.hash_value. cbn [seq fold_left]. apply wrap_range. lia.
Qed.

(** At [ComputeLottery]'s threshold the binary64 test is a comparison of the
    64-bit prefix of the hash with one constant. *)
Lemma IsWinningHash_one_thousandth (h : pop.Output) :
  pop.IsWinningHash h (Double.div (Double.of_Z 1) (Double.of_Z 1000))
  = (pop.hash_value h <? 18446744073709550).
Proof.
  unfold pop.IsWinningHash. cbv zeta.
  apply probability_below_one_thousandth, hash_value_range.
Qed.

(** Two participants can both hold a winning hash under [ComputeLottery]'s
    fixed threshold of 1/1000, and a hash starting with a one bit loses. *)
Example IsWinningHash_examples :
  let t := Double.div (Double.of_Z 1) (Double.of_Z 1000) in
  pop.IsWinningHash (x00 :: x00 :: x01 :: repeat x00 29) t = true
  /\ pop.IsWinningHash (x00 :: x00 :: x02 :: repeat x00 29) t = true
  /\ pop.IsWinningHash (x80 :: repeat x00 31) t = false.
Proof. vm_compute. repeat split. Qed.

(** The last winning prefix and the first losing one. *)
Example IsWinningHash_boundary :
  let t := Double.div (Double.of_Z 1) (Double.of_Z 1000) in
  pop.IsWinningHash
    (x00 :: x41 :: x89 :: x37 :: x4b :: xc6 :: xa7 :: xed :: repeat xff 24) t
  = true
  /\ pop.IsWinningHash
       (x00 :: x41 :: x89 :: x37 :: x4b :: xc6 :: xa7 :: xee :: repeat x00 24) t
     = false.
Proof. vm_compute. split; reflexivity. Qed.

(** C4 (amended).  For every height [H] and every non-empty list of eligible
    participants, [VRF::selectWinner] returns exactly one winner: the entry at
    index [Get64 (Hash (seed, H)) mod n] of the list; no target enters the
    draw, no second participant wins the same height, and no tie-break
    exists.  [VerifiableRandomFunction::ComputeLottery] always returns a
    result, and marks the participant as a winner exactly when the first
    eight bytes of its hash, read most significant first, are below
    18446744073709550, whatever the total participating stake. *)
Theorem lottery_winner_selection
    (Hash : main.uint256 -> Z -> main.uint256) (Get64 : main.uint256 -> Z)
    (seed : main.uint256)
    (participants : list participation.ParticipationEntry) (H : Z)
    (SHA256 : list byte -> list byte) (block_seed participant_key : list byte)
    (total_participating_stake : Z) :
  participants <> [] ->
  (exists (i : nat) (winner : participation.ParticipationEntry),
     Z.of_nat i = Get64 (Hash seed H) mod Z.of_nat (length participants)
     /\ nth_error participants i = Some winner
     /\ forall p,
          participation.selectWinner Hash Get64 seed participants H = Some p
          <-> p = winner)
  /\ exists r : pop.LotteryResult,
       pop.ComputeLottery SHA256 block_seed participant_key
         total_participating_stake = pop.value r
       /\ pop.lr_hash r = pop.HashToTarget SHA256 block_seed participant_key
       /\ pop.is_winner r
          = (pop.hash_value (pop.HashToTarget SHA256 block_seed participant_key)
             <? 18446744073709550).
Proof.
  intros Hne. split.
  - now apply selectWinner_unique_winner.
  - eexists. split; [reflexivity|]. split; [reflexivity|].
    cbn [pop.is_winner]. apply IsWinningHash_one_thousandth.
Qed.

Lemma lottery_winner_selection_witness :
  (exists (i : nat) (winner : participation.ParticipationEntry),
     Z.of_nat i = (fun x => x mod 2 ^ 64) ((fun s h => s + h) 10 7) mod 2
     /\ nth_error [participation.mkEntry 1 5 1 0; participation.mkEntry 2 5 2 0] i
        = Some winner
     /\ forall p,
          participation.selectWinner (fun s h => s + h) (fun x => x mod 2 ^ 64) 10
            [participation.mkEntry 1 5 1 0; participation.mkEntry 2 5 2 0] 7
          = Some p
          <-> p = winner)
  /\ exists r : pop.LotteryResult,
       pop.ComputeLottery (fun l => l ++ repeat x00 32) [x00; x00; x01] [x02] 5
       = pop.value r
       /\ pop.lr_hash r
          = pop.HashToTarget (fun l => l ++ repeat x00 32) [x00; x00; x01] [x02]
       /\ pop.is_winner r
          = (pop.hash_value
               (pop.HashToTarget (fun l => l ++ repeat x00 32) [x00; x00; x01] [x02])
             <? 18446744073709550).
Proof.
  apply (lottery_winner_selection
           (fun s h => s + h) (fun x => x mod 2 ^ 64) 10
           [participation.mkEntry 1 5 1 0; participation.mkEntry 2 5 2 0] 7
           (fun l => l ++ repeat x00 32) [x00; x00; x01] [x02] 5).
  discriminate.
Defined.

(** ** C5: the syntactic block check *)

Section CheckBlockFacts.
Import main.

Variable CheckTransaction : CTransaction -> bool.

(** Whatever the per-transaction check is, a transaction it accepts may be
    repeated in a block: [CheckBlock] never compares two transactions. *)
Lemma CheckBlock_accepts_repeated_transaction
    (header : CBlock) (coinbase tx : CTransaction) :
  IsCoinBase coinbase = true ->
  CheckTransaction coinbase = true ->
  CheckTransaction tx = true ->
  CheckBlock CheckTransaction
    (mkBlock (nVersion header) (hashPrevBlock header) (hashMerkleRoot header)
             (nTime header) (nBits header) (nNonce header)
             [coinbase; tx; tx]) = true.
Proof.
  intros Hcb Hc Ht. unfold CheckBlock. cbn [vtx length forallb].
  rewrite Hcb, Hc, Ht. reflexivity.
Qed.

End CheckBlockFacts.

(** The claim as stated fails: a block whose second and third transactions
    spend the same outpoint passes [CheckBlock]. *)
Lemma CheckBlock_accepts_double_spend :
  let coinbase :=
    main.mkTransaction 1 [main.mkTxIn (main.mkOutPoint 0 0xFFFFFFFF) [] 0]
                       [main.mkTxOut 5000000000 []] 0 in
  let spend :=
    main.mkTransaction 1 [main.mkTxIn (main.mkOutPoint 77 0) [] 0]
                       [main.mkTxOut 1 []] 0 in
  let twice := main.mkBlock 1 0 0 0 0 0 [coinbase; spend; spend] in
  main.CheckBlock main.CheckTransaction_spec twice = true
  /\ main.spent_outpoints twice
     = [main.mkOutPoint 0 0xFFFFFFFF; main.mkOutPoint 77 0; main.mkOutPoint 77 0]
  /\ ~ NoDup (main.spent_outpoints twice).
Proof.
  cbv zeta. split; [|split].
  - reflexivity.
  - reflexivity.
  - cbn. intros Hnd. inversion Hnd as [|? ? _ Hnd']. inversion Hnd' as [|? ? Hin _].
    apply Hin. now left.
Qed.

(** The size test of [CheckBlock] reads [vtx.size()], the number of
    transactions: a block whose only transaction carries an output script of
    32 MiB passes it. *)
Lemma CheckBlock_accepts_oversize_block :
  let big_script := repeat x00 (Z.to_nat main.MAX_BLOCK_SIZE) in
  let fat_coinbase :=
    main.mkTransaction 1 [main.mkTxIn (main.mkOutPoint 0 0xFFFFFFFF) [] 0]
                       [main.mkTxOut 5000000000 big_script] 0 in
  let fat := main.mkBlock 1 0 0 0 0 0 [fat_coinbase] in
  main.CheckBlock main.CheckTransaction_spec fat = true
  /\ blocksize.block_size fat > main.MAX_BLOCK_SIZE.
Proof.
  cbv zeta. split.
  - reflexivity.
  - unfold blocksize.block_size, blocksize.tx_size, blocksize.txout_size,
      blocksize.txin_size, blocksize.prefix_size.
    cbn [main.vtx main.vin main.vout main.scriptSig main.scriptPubKey
         map fold_right length].
    rewrite repeat_length, Z2Nat.id by (unfold main.MAX_BLOCK_SIZE; lia).
    lia.
Qed.

(** C5 (amended).  For every block [b] accepted by [CheckBlock]: the
    transaction list is non-empty, its first transaction is a coinbase, and
    every transaction passes [CheckTransaction].  Outpoints are not compared
    across transactions. *)
Theorem CheckBlock_accepted_blocks
    (CheckTransaction : main.CTransaction -> bool) (b : main.CBlock) :
  main.CheckBlock CheckTransaction b = true ->
  main.vtx b <> []
  /\ (exists coinbase rest,
        main.vtx b = coinbase :: rest /\ main.IsCoinBase coinbase = true)
  /\ Forall (fun tx => CheckTransaction tx = true) (main.vtx b).
Proof.
  intros Hok. unfold main.CheckBlock in Hok.
  destruct (main.vtx b) as [|tx0 rest] eqn:Hv.
  - discriminate Hok.
  - rewrite orb_false_l in Hok.
    destruct (Z.of_nat (length (tx0 :: rest)) >? main.MAX_BLOCK_SIZE);
      [discriminate Hok|].
    destruct (main.IsCoinBase tx0) eqn:Hcb; [|discriminate Hok].
    split; [discriminate|].
    split; [now exists tx0, rest|].
    apply Forall_forall, forallb_forall. exact Hok.
Qed.

Lemma CheckBlock_accepted_blocks_witness :
  Forall (fun tx => main.CheckTransaction_spec tx = true)
    [main.mkTransaction 1 [main.mkTxIn (main.mkOutPoint 0 0xFFFFFFFF) [] 0]
                        [main.mkTxOut 5000000000 []] 0].
Proof.
  apply (CheckBlock_accepted_blocks main.CheckTransaction_spec
           (main.mkBlock 1 0 0 0 0 0
              [main.mkTransaction 1
                 [main.mkTxIn (main.mkOutPoint 0 0xFFFFFFFF) [] 0]
                 [main.mkTxOut 5000000000 []] 0])).
  reflexivity.
Defined.

(** ** C7: priority and admission *)

Section AdmissionFacts.
Import hybridfee.

Variable GetSerializeSize : main.CTransaction -> Z.

Lemma GetMinimumFee_positive (s : HybridFeeSystem) (nBytes : Z) :
  0 <= nBytes < 2 ^ 32 ->
  DEFAULT_BLOCK_PRIORITY_SIZE <= nCurrentBlockSize s ->
  0 < GetMinimumFee s nBytes.
Proof.
  intros Hb Hs. unfold GetMinimumFee.
  destruct (Z.ltb_spec (nCurrentBlockSize s) DEFAULT_BLOCK_PRIORITY_SIZE); [lia|].
  assert (Hq : 0 <= nBytes / 1000 < 2 ^ 32 - 1).
  { split; [apply Z.div_pos; lia | apply Z.div_lt_upper_bound; lia]. }
  rewrite wrap_small by lia.
  unfold MIN_TX_FEE. rewrite swrap_small; lia.
Qed.

(** Admission by [ValidateTransaction] depends on how full the block is and
    on nothing else: the fee read is the placeholder 0. *)
Lemma ValidateTransaction_spec (s : HybridFeeSystem) (tx : main.CTransaction)
    (nHeight : Z) :
  0 <= GetSerializeSize tx < 2 ^ 32 ->
  ValidateTransaction GetSerializeSize s tx nHeight = true
  <-> nCurrentBlockSize s <= 28800000.
Proof.
  intros Hsz. unfold ValidateTransaction.
  change (Machine.wrap 32 (DEFAULT_BLOCK_MAX_SIZE * 90) / 100) with 28800000.
  assert (HP : DEFAULT_BLOCK_PRIORITY_SIZE = 1600000) by reflexivity.
  assert (Hfee : GetTransactionFee tx = 0).
  { unfold GetTransactionFee. now destruct (main.IsCoinBase tx). }
  rewrite Hfee.
  destruct (Z.ltb_spec (nCurrentBlockSize s) DEFAULT_BLOCK_PRIORITY_SIZE) as [Hlt|Hge].
  - destruct (Z.gtb_spec (nCurrentBlockSize s) DEFAULT_BLOCK_PRIORITY_SIZE);
      [lia|]. cbn [andb].
    destruct (Double.gtb _ _); split; intros; try reflexivity; lia.
  - pose proof (GetMinimumFee_positive s (GetSerializeSize tx) Hsz Hge) as Hpos.
    destruct (Z.ltb_spec 0 (GetMinimumFee s (GetSerializeSize tx))); [|lia].
    rewrite andb_true_r.
    destruct (Z.gtb_spec (nCurrentBlockSize s) DEFAULT_BLOCK_PRIORITY_SIZE).
    + destruct (Z.gtb_spec (nCurrentBlockSize s) 28800000); split; intros;
        try reflexivity; try discriminate; lia.
    + split; intros; try reflexivity; lia.
Qed.

End AdmissionFacts.

(** [CalculatePriority] marks a transaction free exactly when the computed
    score is at least the threshold, and then suggests no fee. *)
Lemma CalculatePriority_qualifies (inputs : list fees.InputInfo) (size : Z)
    (r : fees.PriorityResult) :
  fees.CalculatePriority inputs size = fees.value r ->
  fees.qualifies_for_free r
  = Double.geb (fees.priority_score r) (Double.of_Z 57600000)
  /\ (fees.qualifies_for_free r = true -> fees.suggested_fee r = 0).
Proof.
  unfold fees.CalculatePriority.
  destruct (_ || _); [discriminate|]. cbv zeta.
  set (score := Double.div (fold_left _ _ _) _).
  fold fees.FREE_TX_PRIORITY_THRESHOLD.
  destruct (Double.geb score fees.FREE_TX_PRIORITY_THRESHOLD) eqn:Hfree.
  - intros [= <-].
    cbn [fees.qualifies_for_free fees.suggested_fee fees.priority_score].
    split; [now rewrite Hfree | reflexivity].
  - destruct (Double.gtb _ _); [|destruct (Double.gtb _ _)];
      intros [= <-];
      cbn [fees.qualifies_for_free fees.suggested_fee fees.priority_score];
      (split; [now rewrite Hfree | discriminate]).
Qed.

(** A score equal to the threshold: [CalculatePriority] marks it free, the
    strict comparison of [ValidateTransaction]'s free branch does not take
    it. *)
Example priority_equal_to_threshold :
  let tx := main.mkTransaction 1 [main.mkTxIn (main.mkOutPoint 77 0) [] 0]
                               [main.mkTxOut 1 []] 0 in
  fees.CalculatePriority [fees.mkInput (100 * main.COIN) 144 0] 25000
  = fees.value (fees.mkPriority (Double.of_Z 57600000) true 0 "free")
  /\ hybridfee.GetPriority (fun _ => 25000) tx 0 = Double.of_Z 57600000
  /\ Double.gtb (hybridfee.GetPriority (fun _ => 25000) tx 0)
                hybridfee.FREE_TX_PRIORITY = false.
Proof. vm_compute. repeat split. Qed.

(** ** Integers below [2^53] in binary64 arithmetic *)



























(** ** C8: the free zone of a block template *)

Section FreeZoneFacts.
Import fees.

Lemma accumulate_size_cons (c : TransactionCandidate)
    (l : list TransactionCandidate) (init : Z) :
  accumulate_size (c :: l) init
  = accumulate_size l (Machine.size_add init (size_bytes c)).
Proof. reflexivity. Qed.

(** The loop invariant of [SelectFreeTransactions]: the running [used_space]
    never exceeds the free zone. *)
Lemma fill_free_zone_bound (l : list TransactionCandidate) :
  forall used, 0 <= used <= FREE_ZONE_SIZE ->
  0 <= accumulate_size (fill_free_zone l used) used <= FREE_ZONE_SIZE.
Proof.
  induction l as [|c l IH]; intros used Hused; cbn [fill_free_zone].
  - exact Hused.
  - destruct (Z.leb_spec (Machine.size_add used (size_bytes c)) FREE_ZONE_SIZE)
      as [Hfit|Hfull].
    + rewrite accumulate_size_cons. apply IH. split; [|exact Hfit].
      unfold Machine.size_add. apply wrap_range. unfold Machine.size_bits. lia.
    + exact Hused.
Qed.

Lemma fill_free_zone_incl (l : list TransactionCandidate) :
  forall used, incl (fill_free_zone l used) l.
Proof.
  induction l as [|c l IH]; intros used; cbn [fill_free_zone].
  - apply incl_refl.
  - destruct (_ <=? _).
    + apply incl_cons; [now left | apply incl_tl, IH].
    + apply incl_nil_l.
Qed.

(** With candidate sizes that cannot wrap the [std::size_t] sum, the bound
    holds for the sum of the sizes as integers. *)
Lemma fill_free_zone_exact (l : list TransactionCandidate) :
  forall used, 0 <= used <= FREE_ZONE_SIZE ->
  Forall (fun c => 0 <= size_bytes c < 2 ^ 64 - FREE_ZONE_SIZE) l ->
  used + fold_right Z.add 0 (map size_bytes (fill_free_zone l used))
  <= FREE_ZONE_SIZE.
Proof.
  assert (HF : FREE_ZONE_SIZE = 1600000) by reflexivity.
  induction l as [|c l IH]; intros used Hused Hall; cbn [fill_free_zone].
  - cbn [map fold_right]. lia.
  - inversion Hall as [|? ? Hc Hl]; subst.
    unfold Machine.size_add.
    rewrite wrap_small by (unfold Machine.size_bits; lia).
    destruct (Z.leb_spec (used + size_bytes c) FREE_ZONE_SIZE) as [Hfit|Hfull].
    + cbn [map fold_right].
      specialize (IH (used + size_bytes c) ltac:(lia) Hl). lia.
    + cbn [map fold_right]. lia.
Qed.

End FreeZoneFacts.


Lemma sort_by_incl {A : Type} (before : A -> A -> bool) (l : list A) :
  incl (sorting.sort_by before l) l.
Proof.
  assert (Hins : forall x l', incl (sorting.insert_by before x l') (x :: l')).
  { intros x l'. induction l' as [|y l' IH]; cbn [sorting.insert_by].
    - apply incl_refl.
    - destruct (before y x); [|apply incl_refl].
      intros z [<-|Hz]; [right; now left|].
      apply IH in Hz. destruct Hz as [<-|Hz]; [now left | right; now right]. }
  induction l as [|x l IH]; cbn [sorting.sort_by]; [apply incl_refl|].
  intros z Hz. apply Hins in Hz. destruct Hz as [<-|Hz]; [now left|].
  right. now apply IH.
Qed.

(** Two candidates that do not fit the free zone together: the higher score
    goes first and fills 900,000 bytes, the second would bring the zone to
    1,900,000 and is left out. *)
Example BuildBlockTemplate_example :
  let a := fees.mkCandidate 1
             (fees.mkPriority (Double.of_Z 57600000) true 0 "free") 0 0 1000000 in
  let b := fees.mkCandidate 2
             (fees.mkPriority (Double.of_Z 90000000) true 0 "free") 0 1 900000 in
  fees.SelectFreeTransactions (sorting.sort_by sorting.higher_priority) [a; b]
  = [b].
Proof. vm_compute. reflexivity. Qed.

(** ** C9: the handshake flags of a peer *)

Section HandshakeFacts.
Import net.

Lemma PushMessage_flags (command : string) (payload : serialize.SValue)
    (node : Node) :
  version_sent_ (PushMessage command payload node) = version_sent_ node
  /\ version_received_ (PushMessage command payload node)
     = version_received_ node.
Proof.
  unfold PushMessage. destruct (serialize.to_bytes payload); split; reflexivity.
Qed.

Lemma step_version_sent (node : Node) (e : Event) :
  version_sent_ (step node e) = version_sent_ node || is_push e.
Proof.
  destruct e as [version|command payload]; cbn [step is_push].
  - unfold PushVersion. cbn [version_sent_]. now rewrite orb_true_r.
  - rewrite orb_false_r. unfold ProcessMessage.
    destruct (String.eqb command "version");
      [|destruct (String.eqb command "verack");
        [|destruct (String.eqb command "ping")]];
      try reflexivity; now rewrite (proj1 (PushMessage_flags _ _ _)).
Qed.

Lemma step_version_received (node : Node) (e : Event) :
  version_received_ (step node e)
  = version_received_ node || is_received "version" e.
Proof.
  destruct e as [version|command payload]; cbn [step is_received].
  - rewrite orb_false_r. unfold PushVersion. cbn [version_received_].
    now rewrite (proj2 (PushMessage_flags _ _ _)).
  - unfold ProcessMessage.
    destruct (String.eqb command "version") eqn:Hv.
    + rewrite (proj2 (PushMessage_flags _ _ _)). cbn [version_received_].
      now rewrite orb_true_r.
    + rewrite orb_false_r.
      destruct (String.eqb command "verack");
        [|destruct (String.eqb command "ping")];
        try reflexivity; now rewrite (proj2 (PushMessage_flags _ _ _)).
Qed.

Lemma run_flags (events : list Event) :
  forall node,
  version_sent_ (run events node) = version_sent_ node || existsb is_push events
  /\ version_received_ (run events node)
     = version_received_ node || existsb (is_received "version") events.
Proof.
  induction events as [|e events IH]; intros node; cbn [run fold_left existsb].
  - now rewrite !orb_false_r.
  - destruct (IH (step node e)) as [Hs Hr]. unfold run in *.
    rewrite Hs, Hr, step_version_sent, step_version_received.
    now rewrite !orb_assoc.
Qed.

End HandshakeFacts.

(** The claim as stated fails in both directions.  After the local version
    was pushed and the peer's version arrived the node is fully connected
    although no verack was received; and after a version and a verack were
    received the node is not fully connected as long as the local version was
    not pushed. *)
Lemma IsFullyConnected_ignores_verack :
  net.IsFullyConnected
    (net.run [net.LocalPushVersion (serialize.VPrim 4 net.PROTOCOL_VERSION);
              net.Received "version" []]
             (net.Node_new 3)) = true
  /\ net.IsFullyConnected
       (net.run [net.Received "version" []; net.Received "verack" []]
                (net.Node_new 3)) = false.
Proof. split; vm_compute; reflexivity. Qed.

(** C9 (amended).  For every sequence of events on a fresh connection, the
    node is fully connected exactly when the local version was pushed and a
    version message was received, in either order; a received verack leaves
    the node as it is. *)
Theorem IsFullyConnected_iff_version_sent_and_received
    (socket : Z) (events : list net.Event) :
  (net.IsFullyConnected (net.run events (net.Node_new socket)) = true
   <-> (exists version, In (net.LocalPushVersion version) events)
       /\ (exists payload, In (net.Received "version" payload) events))
  /\ (forall payload node, net.ProcessMessage "verack" payload node = node).
Proof.
  split; [|reflexivity].
  unfold net.IsFullyConnected.
  destruct (run_flags events (net.Node_new socket)) as [Hs Hr].
  rewrite Hs, Hr. cbn [net.Node_new net.version_sent_ net.version_received_ orb].
  rewrite andb_true_iff, !existsb_exists. split.
  - intros [[e1 [Hin1 Hp]] [e2 [Hin2 Hv]]]. split.
    + destruct e1 as [version|]; [|discriminate]. now exists version.
    + destruct e2 as [|command payload]; [discriminate|].
      cbn [net.is_received] in Hv. apply String.eqb_eq in Hv. subst command.
      now exists payload.
  - intros [[version Hin1] [payload Hin2]]. split.
    + now exists (net.LocalPushVersion version).
    + now exists (net.Received "version" payload).
Qed.

(** ** Reading back what the serializer wrote *)

Section DeserializeFacts.
Import serialize deserialize.

Lemma read_bytes_at (pre bs post : list byte_t) :
  read_bytes (length bs) (mkBuffer (pre ++ bs ++ post) (length pre))
  = (value bs, mkBuffer (pre ++ bs ++ post) (length pre + length bs)).
Proof.
  unfold read_bytes, has_space, remaining. cbn [data_ pos_].
  rewrite !length_app.
  destruct (Nat.leb_spec (length bs)
              (length pre + (length bs + length post) - length pre)); [|lia].
  cbn [negb]. unfold subspan.
  rewrite skipn_app, Nat.sub_diag, skipn_all. cbn [skipn app].
  rewrite firstn_app, Nat.sub_diag, firstn_all. cbn [firstn].
  now rewrite app_nil_r.
Qed.

Lemma read_bytes_short (n : nat) (b : Buffer) :
  (remaining b < n)%nat -> read_bytes n b = (unexpected unexpected_end, b).
Proof.
  intros H. unfold read_bytes, has_space.
  destruct (Nat.leb_spec n (remaining b)); [lia | reflexivity].
Qed.

Lemma read_items_at (item : SType) (items : list SValue) :
  Forall (reads_back item) items ->
  forall pre post,
    read_items (length items) (Serializer_deserialize item)
      (mkBuffer (pre ++ flat_map encode items ++ post) (length pre))
    = (value items,
       mkBuffer (pre ++ flat_map encode items ++ post)
                (length pre + length (flat_map encode items))).
Proof.
  induction 1 as [|v items Hv _ IH]; intros pre post.
  - cbn. now rewrite Nat.add_0_r.
  - cbn [length read_items flat_map]. unfold bind at 1.
    rewrite <- app_assoc. rewrite (Hv pre).
    unfold bind at 1.
    replace (pre ++ encode v ++ flat_map encode items ++ post)
      with ((pre ++ encode v) ++ flat_map encode items ++ post)
      by now rewrite <- app_assoc.
    replace (length pre + length (encode v))%nat
      with (length (pre ++ encode v)) by now rewrite length_app.
    rewrite IH. unfold ret. rewrite !length_app. f_equal. f_equal. lia.
Qed.

Lemma fits_reads_back (t : SType) : forall v, fits t v = true -> reads_back t v.
Proof.
  induction t as [w| |item IH|N]; intros v Hfit;
    destruct v as [w' x|s|items|arr|fields]; try discriminate Hfit;
    cbn [fits] in Hfit; intros pre post.
  - apply andb_prop in Hfit. destruct Hfit as [Hfit Hhi].
    apply andb_prop in Hfit. destruct Hfit as [Hw Hlo].
    apply Nat.eqb_eq in Hw. subst w'.
    apply Z.leb_le in Hlo. apply Z.ltb_lt in Hhi.
    cbn [Serializer_deserialize encode]. unfold bind.
    rewrite read_at_le_bytes by lia. now rewrite length_le_bytes.
  - apply Z.leb_le in Hfit.
    cbn [Serializer_deserialize encode]. unfold bind.
    rewrite <- app_assoc.
    assert (Hmax : MAX_SIZE < 2 ^ 64) by reflexivity.
    rewrite deserialize_cs_encode by lia.
    destruct (Z.gtb_spec (Z.of_nat (length s)) MAX_SIZE) as [|_]; [lia|].
    rewrite Nat2Z.id, <- length_cs_encode.
    replace (pre ++ cs_encode (Z.of_nat (length s)) ++ s ++ post)
      with ((pre ++ cs_encode (Z.of_nat (length s))) ++ s ++ post)
      by now rewrite <- app_assoc.
    rewrite <- length_app, read_bytes_at. unfold ret.
    rewrite !length_app. f_equal. f_equal. lia.
  - apply andb_prop in Hfit. destruct Hfit as [Hlen Hall].
    apply Z.leb_le in Hlen.
    cbn [Serializer_deserialize encode]. unfold bind.
    rewrite <- app_assoc.
    assert (Hmax : MAX_SIZE < 2 ^ 64) by reflexivity.
    rewrite deserialize_cs_encode by lia.
    destruct (Z.gtb_spec (Z.of_nat (length items)) MAX_SIZE) as [|_]; [lia|].
    rewrite Nat2Z.id, <- length_cs_encode.
    replace (pre ++ cs_encode (Z.of_nat (length items))
                 ++ flat_map encode items ++ post)
      with ((pre ++ cs_encode (Z.of_nat (length items)))
              ++ flat_map encode items ++ post)
      by now rewrite <- app_assoc.
    rewrite <- length_app, read_items_at.
    + unfold ret. rewrite !length_app. f_equal. f_equal. lia.
    + rewrite forallb_forall in Hall. apply Forall_forall.
      intros v Hin. apply IH, Hall, Hin.
  - apply Nat.eqb_eq in Hfit. subst N.
    cbn [Serializer_deserialize encode]. unfold bind.
    now rewrite read_bytes_at.
Qed.

Lemma from_bytes_encode (t : SType) (v : SValue) (trailing : list byte_t) :
  fits t v = true -> from_bytes t (encode v ++ trailing) = value v.
Proof.
  intros Hfit. unfold from_bytes.
  pose proof (fits_reads_back t v Hfit [] trailing) as H.
  cbn [app length] in H. now rewrite H.
Qed.

End DeserializeFacts.

(** X1.  A value of a serializable type whose encoding takes at most 1024
    bytes goes through [to_bytes] and comes back unchanged from [from_bytes],
    also when further bytes follow the encoding: [from_bytes] does not look
    at what is left in the buffer. *)
Theorem from_bytes_inverts_to_bytes
    (t : deserialize.SType) (v : serialize.SValue) :
  deserialize.fits t v = true ->
  (length (serialize.encode v) <= 1024)%nat ->
  exists bytes,
    serialize.to_bytes v = serialize.value bytes
    /\ forall trailing,
         deserialize.from_bytes t (bytes ++ trailing) = serialize.value v.
Proof.
  intros Hfit Hlen. exists (serialize.encode v). split.
  - now apply to_bytes_up_to_1024.
  - intros trailing. now apply from_bytes_encode.
Qed.

Lemma from_bytes_inverts_to_bytes_witness :
  exists bytes,
    serialize.to_bytes
      (serialize.VVector [serialize.VString [x41; x42]; serialize.VString []])
    = serialize.value bytes
    /\ forall trailing,
         deserialize.from_bytes (deserialize.TVector deserialize.TString)
           (bytes ++ trailing)
         = serialize.value
             (serialize.VVector
                [serialize.VString [x41; x42]; serialize.VString []]).
Proof.
  apply (from_bytes_inverts_to_bytes
           (deserialize.TVector deserialize.TString)
           (serialize.VVector
              [serialize.VString [x41; x42]; serialize.VString []])).
  - reflexivity.
  - cbn. lia.
Defined.

(** ** Input that ends too early *)

Section TruncationFacts.
Import serialize deserialize.

Lemma read_short (w : nat) (b : Buffer) :
  (remaining b < w)%nat -> read w b = (unexpected unexpected_end, b).
Proof.
  intros H. unfold read, bind. now rewrite read_bytes_short.
Qed.

Lemma remaining_at (pre r : list byte_t) :
  remaining (mkBuffer (pre ++ r) (length pre)) = length r.
Proof. unfold remaining. cbn [data_ pos_]. rewrite length_app. lia. Qed.

(** Two ways of cutting one list: the first cut falls inside the first part,
    or at its end or beyond. *)
Lemma cut_cases (a b r s : list byte_t) :
  a ++ b = r ++ s -> s <> [] ->
  (exists l, l <> [] /\ a = r ++ l)
  \/ (exists l, r = a ++ l /\ b = l ++ s).
Proof.
  intros Heq Hs. apply app_eq_app in Heq. destruct Heq as [l [[Ha Hb]|[Hr Hb]]].
  - destruct l as [|x l].
    + right. exists []. rewrite app_nil_r in *. cbn [app] in *.
      split; congruence.
    + left. exists (x :: l). split; [discriminate | exact Ha].
  - right. exists l. now split.
Qed.

Lemma cs_deserialize_runs_out (n : Z) (pre r s : list byte_t) :
  0 <= n < 2 ^ 64 ->
  cs_encode n = r ++ s -> s <> [] ->
  fst (CompactSize.deserialize (mkBuffer (pre ++ r) (length pre)))
  = unexpected unexpected_end.
Proof.
  intros Hn Heq Hs.
  destruct r as [|tagbyte r].
  { unfold CompactSize.deserialize, bind.
    rewrite read_short; [reflexivity|]. rewrite remaining_at. cbn. lia. }
  assert (Hlen : length (cs_encode n) = (length (tagbyte :: r) + length s)%nat)
    by now rewrite Heq, length_app.
  assert (Hs' : (0 < length s)%nat) by (destruct s; [congruence | cbn; lia]).
  unfold cs_encode in Heq, Hlen.
  destruct (Z.ltb_spec n 253) as [H1|H1].
  { cbn [le_bytes length] in Hlen. lia. }
  assert (Htag : exists tag w,
             253 <= tag < 256
             /\ w = (if tag =? 253 then 2%nat
                     else if tag =? 254 then 4%nat else 8%nat)
             /\ le_bytes 1 tag ++ le_bytes w n = (tagbyte :: r) ++ s).
  { destruct (n <=? 0xFFFF); [|destruct (n <=? 0xFFFFFFFF)].
    - exists 253, 2%nat. repeat split; try lia. exact Heq.
    - exists 254, 4%nat. repeat split; try lia. exact Heq.
    - exists 255, 8%nat. repeat split; try lia. exact Heq. }
  destruct Htag as (tag & w & Htag & Hw & Heq').
  assert (Hlen' : (1 + w = length (tagbyte :: r) + length s)%nat).
  { rewrite <- length_app, <- Heq', length_app, !length_le_bytes. reflexivity. }
  cbn [le_bytes app] in Heq'. injection Heq' as Hb _.
  subst tagbyte.
  unfold CompactSize.deserialize. unfold bind at 1.
  change (pre ++ byte_of_Z tag :: r) with (pre ++ le_bytes 1 tag ++ r).
  rewrite read_at_le_bytes by (cbn; lia).
  destruct (Z.ltb_spec tag 253); [lia|].
  unfold bind.
  assert (Hread :
    (if tag =? 253 then read 2 else if tag =? 254 then read 4 else read 8)
    = read w).
  { subst w. destruct (tag =? 253); [reflexivity|].
    destruct (tag =? 254); reflexivity. }
  rewrite Hread, read_short; [reflexivity|].
  unfold remaining. cbn [data_ pos_ length] in *.
  rewrite !length_app, length_le_bytes. lia.
Qed.

Lemma read_items_runs_out (item : SType) (items : list SValue) :
  Forall (reads_back item) items ->
  Forall (runs_out item) items ->
  forall pre r s,
    flat_map encode items = r ++ s -> s <> [] ->
    fst (read_items (length items) (Serializer_deserialize item)
           (mkBuffer (pre ++ r) (length pre)))
    = unexpected unexpected_end.
Proof.
  induction items as [|v items IH]; intros Hback Hout pre r s Heq Hs.
  - cbn in Heq. symmetry in Heq. apply app_eq_nil in Heq. now destruct Heq.
  - inversion_clear Hback as [|? ? Hv Hback'].
    inversion_clear Hout as [|? ? Hvo Hout'].
    cbn [flat_map length read_items] in *.
    destruct (cut_cases _ _ _ _ Heq Hs) as [[l [Hl Ha]]|[l [Hr Hb]]].
    + unfold bind.
      specialize (Hvo pre r l Ha Hl).
      destruct (Serializer_deserialize item (mkBuffer (pre ++ r) (length pre)))
        as [[x|e] b']; cbn [fst] in *; [discriminate | congruence].
    + subst r. unfold bind at 1. rewrite (Hv pre l).
      unfold bind at 1.
      replace (pre ++ encode v ++ l) with ((pre ++ encode v) ++ l)
        by now rewrite <- app_assoc.
      replace (length pre + length (encode v))%nat
        with (length (pre ++ encode v)) by now rewrite length_app.
      specialize (IH Hback' Hout' (pre ++ encode v) l s Hb Hs).
      destruct (read_items (length items) (Serializer_deserialize item) _)
        as [[x|e] b']; cbn [fst] in *; [discriminate | congruence].
Qed.

Lemma fits_runs_out (t : SType) : forall v, fits t v = true -> runs_out t v.
Proof.
  induction t as [w| |item IH|N]; intros v Hfit;
    pose proof (fits_reads_back _ _ Hfit) as Hback;
    destruct v as [w' x|s0|items|arr|fields]; try discriminate Hfit;
    cbn [fits] in Hfit; intros pre r s Heq Hs;
    assert (Hs' : (0 < length s)%nat) by (destruct s; [congruence | cbn; lia]);
    cbn [encode] in Heq.
  - apply andb_prop in Hfit. destruct Hfit as [Hfit _].
    apply andb_prop in Hfit. destruct Hfit as [Hw _].
    apply Nat.eqb_eq in Hw. subst w'.
    cbn [Serializer_deserialize]. unfold bind.
    rewrite read_short; [reflexivity|]. rewrite remaining_at.
    assert (length (le_bytes w x) = (length r + length s)%nat)
      by now rewrite Heq, length_app.
    rewrite length_le_bytes in *. lia.
  - apply Z.leb_le in Hfit.
    assert (Hmax : MAX_SIZE < 2 ^ 64) by reflexivity.
    cbn [Serializer_deserialize].
    destruct (cut_cases _ _ _ _ Heq Hs) as [[l [Hl Ha]]|[l [Hr Hb]]].
    + unfold bind.
      pose proof (cs_deserialize_runs_out (Z.of_nat (length s0)) pre r l
                    ltac:(lia) Ha Hl) as Hcs.
      destruct (CompactSize.deserialize (mkBuffer (pre ++ r) (length pre)))
        as [[x|e] b']; cbn [fst] in *; [discriminate | congruence].
    + subst r. unfold bind at 1.
      rewrite deserialize_cs_encode by lia.
      destruct (Z.gtb_spec (Z.of_nat (length s0)) MAX_SIZE) as [|_]; [lia|].
      unfold bind. rewrite Nat2Z.id, read_bytes_short; [reflexivity|].
      unfold remaining. cbn [data_ pos_]. rewrite !length_app.
      rewrite <- length_cs_encode.
      assert (length s0 = (length l + length s)%nat)
        by now rewrite Hb, length_app.
      lia.
  - apply andb_prop in Hfit. destruct Hfit as [Hlen Hall].
    apply Z.leb_le in Hlen.
    assert (Hmax : MAX_SIZE < 2 ^ 64) by reflexivity.
    cbn [Serializer_deserialize].
    destruct (cut_cases _ _ _ _ Heq Hs) as [[l [Hl Ha]]|[l [Hr Hb]]].
    + unfold bind.
      pose proof (cs_deserialize_runs_out (Z.of_nat (length items)) pre r l
                    ltac:(lia) Ha Hl) as Hcs.
      destruct (CompactSize.deserialize (mkBuffer (pre ++ r) (length pre)))
        as [[x|e] b']; cbn [fst] in *; [discriminate | congruence].
    + subst r. unfold bind at 1.
      rewrite deserialize_cs_encode by lia.
      destruct (Z.gtb_spec (Z.of_nat (length items)) MAX_SIZE) as [|_]; [lia|].
      unfold bind at 1. rewrite Nat2Z.id, <- length_cs_encode.
      replace (pre ++ cs_encode (Z.of_nat (length items)) ++ l)
        with ((pre ++ cs_encode (Z.of_nat (length items))) ++ l)
        by now rewrite <- app_assoc.
      rewrite <- length_app.
      rewrite forallb_forall in Hall.
      pose proof (read_items_runs_out item items) as Hitems.
      specialize (Hitems
        ltac:(apply Forall_forall; intros v Hin;
              apply fits_reads_back, Hall, Hin)
        ltac:(apply Forall_forall; intros v Hin; apply IH, Hall, Hin)
        (pre ++ cs_encode (Z.of_nat (length items))) l s Hb Hs).
      destruct (read_items (length items) (Serializer_deserialize item) _)
        as [[x|e] b']; cbn [fst] in *; [discriminate | congruence].
  - apply Nat.eqb_eq in Hfit. subst N.
    cbn [Serializer_deserialize]. unfold bind.
    rewrite read_bytes_short; [reflexivity|]. rewrite remaining_at.
    assert (length arr = (length r + length s)%nat)
      by now rewrite Heq, length_app.
    lia.
Qed.

End TruncationFacts.

(** X2.  [from_bytes] refuses every input that stops inside the encoding of a
    value of the type asked for: each proper prefix of the encoding fails
    with [unexpected_end], whatever the type. *)
Theorem from_bytes_truncated_input
    (t : deserialize.SType) (v : serialize.SValue)
    (received missing : list serialize.byte_t) :
  deserialize.fits t v = true ->
  serialize.encode v = received ++ missing ->
  missing <> [] ->
  deserialize.from_bytes t received
  = serialize.unexpected serialize.unexpected_end.
Proof.
  intros Hfit Heq Hmissing. unfold deserialize.from_bytes.
  exact (fits_runs_out t v Hfit [] received missing Heq Hmissing).
Qed.

Lemma from_bytes_truncated_input_witness :
  deserialize.from_bytes (deserialize.TVector (deserialize.TPrim 2))
    [x02; x01; x00; x02]
  = serialize.unexpected serialize.unexpected_end.
Proof.
  apply (from_bytes_truncated_input
           (deserialize.TVector (deserialize.TPrim 2))
           (serialize.VVector [serialize.VPrim 2 1; serialize.VPrim 2 2])
           [x02; x01; x00; x02] [x00]).
  - reflexivity.
  - reflexivity.
  - discriminate.
Defined.

(** ** What a serializer call may touch *)

Section FrameFacts.
Import serialize deserialize.

Lemma frames_ret {T : Type} (t : T) : frames (ret t).
Proof. intros b Hwf. unfold wf in Hwf. cbn. repeat split; lia. Qed.

Lemma frames_bind {T U : Type} (m : M T) (k : T -> M U) :
  frames m -> (forall x, frames (k x)) -> frames (bind m k).
Proof.
  intros Hm Hk b Hwf. unfold bind.
  specialize (Hm b Hwf). destruct (m b) as [[x|e] b1]; cbn [snd] in *;
    [|exact Hm].
  destruct Hm as (Hlen1 & Hpos1 & Hpre1 & Hpost1).
  assert (Hwf1 : wf b1) by (unfold wf; lia).
  specialize (Hk x b1 Hwf1).
  destruct (k x b1) as [r b2]; cbn [snd] in *.
  destruct Hk as (Hlen2 & Hpos2 & Hpre2 & Hpost2).
  repeat split; try lia.
  - assert (E : forall l : list byte_t,
               firstn (pos_ b) l = firstn (pos_ b) (firstn (pos_ b1) l))
      by (intros l; now rewrite firstn_firstn, Nat.min_l by lia).
    rewrite (E (data_ b2)), Hpre2, <- E. exact Hpre1.
  - assert (E : forall l : list byte_t,
               skipn (pos_ b2) l = skipn (pos_ b2 - pos_ b1) (skipn (pos_ b1) l))
      by (intros l; rewrite skipn_skipn; f_equal; lia).
    rewrite Hpost2, (E (data_ b1)), Hpost1, <- E. reflexivity.
Qed.

Lemma frames_write_bytes (bs : list byte_t) : frames (write_bytes bs).
Proof.
  intros b Hwf. unfold write_bytes, has_space, wf, remaining in *.
  destruct (Nat.leb_spec (length bs) (length (data_ b) - pos_ b)) as [Hfit|Hno];
    cbn [negb snd data_ pos_].
  - rewrite length_overwrite by lia. repeat split; try lia.
    + unfold overwrite. rewrite firstn_app, firstn_firstn, Nat.min_id.
      rewrite length_firstn, Nat.min_l, Nat.sub_diag by lia.
      cbn [firstn]. apply app_nil_r.
    + unfold overwrite. rewrite skipn_app, length_firstn, Nat.min_l by lia.
      rewrite (skipn_all2 (firstn (pos_ b) (data_ b)))
        by (rewrite length_firstn; lia).
      cbn [app]. replace (pos_ b + length bs - pos_ b)%nat with (length bs)
        by lia.
      rewrite skipn_app, skipn_all, Nat.sub_diag. reflexivity.
  - repeat split; lia.
Qed.

Lemma frames_write_chunks (cs : list (list byte_t)) : frames (write_chunks cs).
Proof.
  induction cs as [|c cs IH]; cbn [write_chunks].
  - apply frames_ret.
  - apply frames_bind; [apply frames_write_bytes | intros _; exact IH].
Qed.

Lemma advances_ret {T : Type} (t : T) : advances (ret t).
Proof. intros b Hwf. unfold wf in Hwf. cbn. split; [reflexivity | lia]. Qed.

Lemma advances_fail {T : Type} (e : Error) : advances (@fail T e).
Proof. intros b Hwf. unfold wf in Hwf. cbn. split; [reflexivity | lia]. Qed.

Lemma advances_bind {T U : Type} (m : M T) (k : T -> M U) :
  advances m -> (forall x, advances (k x)) -> advances (bind m k).
Proof.
  intros Hm Hk b Hwf. unfold bind.
  specialize (Hm b Hwf). destruct (m b) as [[x|e] b1]; cbn [snd] in *;
    [|exact Hm].
  destruct Hm as [Hdata1 Hpos1].
  assert (Hwf1 : wf b1) by (unfold wf; rewrite Hdata1; lia).
  specialize (Hk x b1 Hwf1).
  destruct (k x b1) as [r b2]; cbn [snd] in *.
  destruct Hk as [Hdata2 Hpos2]. rewrite Hdata1 in *.
  split; [congruence | lia].
Qed.

Lemma advances_read_bytes (n : nat) : advances (read_bytes n).
Proof.
  intros b Hwf. unfold read_bytes, has_space, wf, remaining in *.
  destruct (Nat.leb_spec n (length (data_ b) - pos_ b));
    cbn [negb snd data_ pos_]; split; try reflexivity; lia.
Qed.

Lemma advances_read (w : nat) : advances (read w).
Proof.
  apply advances_bind; [apply advances_read_bytes | intros; apply advances_ret].
Qed.

Lemma advances_CompactSize_deserialize : advances CompactSize.deserialize.
Proof.
  apply advances_bind; [apply advances_read|]. intros first.
  destruct (first <? 253); [apply advances_ret|].
  apply advances_bind.
  - destruct (first =? 253); [|destruct (first =? 254)]; apply advances_read.
  - intros v. destruct (v >? MAX_SIZE); [apply advances_fail | apply advances_ret].
Qed.

Lemma advances_read_items (size : nat) (item : M SValue) :
  advances item -> advances (read_items size item).
Proof.
  intros Hitem. induction size as [|size IH]; cbn [read_items].
  - apply advances_ret.
  - apply advances_bind; [exact Hitem|]. intros x.
    apply advances_bind; [exact IH|]. intros rest. apply advances_ret.
Qed.

Lemma advances_Serializer_deserialize (t : SType) :
  advances (Serializer_deserialize t).
Proof.
  induction t as [w| |item IH|N]; cbn [Serializer_deserialize].
  - apply advances_bind; [apply advances_read | intros; apply advances_ret].
  - apply advances_bind; [apply advances_CompactSize_deserialize|]. intros size.
    apply advances_bind; [apply advances_read_bytes|]. intros; apply advances_ret.
  - apply advances_bind; [apply advances_CompactSize_deserialize|]. intros size.
    apply advances_bind; [now apply advances_read_items|].
    intros; apply advances_ret.
  - apply advances_bind; [apply advances_read_bytes|]. intros; apply advances_ret.
Qed.

End FrameFacts.

(** X3.  A call of the serializer, whether it succeeds or fails part of the
    way, keeps the size of the buffer, moves the cursor forward only and
    never beyond the end, and changes no byte before the old cursor or from
    the new cursor on. *)
Theorem Serializer_serialize_writes_in_its_window
    (v : serialize.SValue) (b : serialize.Buffer) :
  serialize.wf b ->
  let b' := snd (serialize.Serializer_serialize v b) in
  length (serialize.data_ b') = length (serialize.data_ b)
  /\ (serialize.pos_ b <= serialize.pos_ b' <= length (serialize.data_ b))%nat
  /\ firstn (serialize.pos_ b) (serialize.data_ b')
     = firstn (serialize.pos_ b) (serialize.data_ b)
  /\ skipn (serialize.pos_ b') (serialize.data_ b')
     = skipn (serialize.pos_ b') (serialize.data_ b).
Proof.
  intros Hwf. cbv zeta. rewrite Serializer_serialize_chunks.
  exact (frames_write_chunks (serialize.chunks v) b Hwf).
Qed.

Lemma Serializer_serialize_writes_in_its_window_witness :
  let b := serialize.mkBuffer [x01; x02; x03; x04; x05] 1 in
  let b' :=
    snd (serialize.Serializer_serialize (serialize.VString [x41; x42; x43; x44]) b) in
  length (serialize.data_ b') = length (serialize.data_ b)
  /\ (serialize.pos_ b <= serialize.pos_ b' <= length (serialize.data_ b))%nat
  /\ firstn (serialize.pos_ b) (serialize.data_ b')
     = firstn (serialize.pos_ b) (serialize.data_ b)
  /\ skipn (serialize.pos_ b') (serialize.data_ b')
     = skipn (serialize.pos_ b') (serialize.data_ b).
Proof.
  apply (Serializer_serialize_writes_in_its_window
           (serialize.VString [x41; x42; x43; x44])
           (serialize.mkBuffer [x01; x02; x03; x04; x05] 1)).
  unfold serialize.wf. cbn. lia.
Defined.

(** X4.  A call of the deserializer, whether it succeeds or fails, leaves the
    bytes of the buffer as they are and moves the cursor forward only, never
    beyond the end of the data: no read goes out of bounds. *)
Theorem Serializer_deserialize_stays_in_bounds
    (t : deserialize.SType) (b : serialize.Buffer) :
  serialize.wf b ->
  let b' := snd (deserialize.Serializer_deserialize t b) in
  serialize.data_ b' = serialize.data_ b
  /\ (serialize.pos_ b <= serialize.pos_ b' <= length (serialize.data_ b))%nat.
Proof.
  intros Hwf. exact (advances_Serializer_deserialize t b Hwf).
Qed.

Lemma Serializer_deserialize_stays_in_bounds_witness :
  let b := serialize.mkBuffer [x03; x41; x42] 0 in
  let b' := snd (deserialize.Serializer_deserialize deserialize.TString b) in
  serialize.data_ b' = serialize.data_ b
  /\ (serialize.pos_ b <= serialize.pos_ b' <= length (serialize.data_ b))%nat.
Proof.
  apply (Serializer_deserialize_stays_in_bounds deserialize.TString
           (serialize.mkBuffer [x03; x41; x42] 0)).
  unfold serialize.wf. cbn. lia.
Defined.

(** X5.  [CompactSize::deserialize] does not ask for the shortest form: every
    size up to the limit is also accepted in each longer form it fits, so a
    size below 253 has four accepted encodings. *)
Theorem CompactSize_deserialize_accepts_longer_forms
    (n : Z) (pre post : list serialize.byte_t) :
  0 <= n <= 0xFFFF ->
  fst (serialize.CompactSize.deserialize
         (serialize.mkBuffer
            (pre ++ (serialize.le_bytes 1 253 ++ serialize.le_bytes 2 n) ++ post)
            (length pre)))
  = serialize.value n
  /\ fst (serialize.CompactSize.deserialize
            (serialize.mkBuffer
               (pre ++ (serialize.le_bytes 1 254 ++ serialize.le_bytes 4 n) ++ post)
               (length pre)))
     = serialize.value n
  /\ fst (serialize.CompactSize.deserialize
            (serialize.mkBuffer
               (pre ++ (serialize.le_bytes 1 255 ++ serialize.le_bytes 8 n) ++ post)
               (length pre)))
     = serialize.value n.
Proof.
  intros Hn.
  assert (Hsmall : (n >? serialize.MAX_SIZE) = false).
  { unfold serialize.MAX_SIZE. destruct (Z.gtb_spec n 33554432); [lia|reflexivity]. }
  rewrite (deserialize_tagged 253 2), (deserialize_tagged 254 4),
    (deserialize_tagged 255 8), Hsmall;
    try reflexivity; try lia; cbn; try lia.
  repeat split.
Qed.

Lemma CompactSize_deserialize_accepts_longer_forms_witness :
  fst (serialize.CompactSize.deserialize
         (serialize.mkBuffer
            ([] ++ (serialize.le_bytes 1 253 ++ serialize.le_bytes 2 5) ++ [])
            (length (@nil serialize.byte_t))))
  = serialize.value 5
  /\ fst (serialize.CompactSize.deserialize
            (serialize.mkBuffer
               ([] ++ (serialize.le_bytes 1 254 ++ serialize.le_bytes 4 5) ++ [])
               (length (@nil serialize.byte_t))))
     = serialize.value 5
  /\ fst (serialize.CompactSize.deserialize
            (serialize.mkBuffer
               ([] ++ (serialize.le_bytes 1 255 ++ serialize.le_bytes 8 5) ++ [])
               (length (@nil serialize.byte_t))))
     = serialize.value 5.
Proof.
  apply (CompactSize_deserialize_accepts_longer_forms 5 [] []). lia.
Defined.

(** ** The wire formats of [Address], [Inv] and [MessageHeader] *)

Section WireFacts.
Import serialize wire.

(** A run of writes that fits leaves its bytes between what was there before
    the cursor and what was there after them. *)
Lemma write_chunks_between (cs : list (list byte_t)) (b : Buffer) :
  wf b -> (length (concat cs) <= remaining b)%nat ->
  exists pre post,
    length pre = pos_ b
    /\ write_chunks cs b
       = (value tt,
          mkBuffer (pre ++ concat cs ++ post)
                   (length pre + length (concat cs))).
Proof.
  intros Hwf Hfit.
  exists (firstn (pos_ b) (data_ b)),
         (skipn (pos_ b + length (concat cs)) (data_ b)).
  unfold wf, remaining in *.
  assert (Hpre : length (firstn (pos_ b) (data_ b)) = pos_ b)
    by (rewrite length_firstn; lia).
  split; [exact Hpre|].
  rewrite write_chunks_fits by (unfold wf, remaining; lia).
  now rewrite Hpre.
Qed.

Lemma read_bytes_step (n : nat) (pre bs rest : list byte_t) :
  length bs = n ->
  read_bytes n (mkBuffer (pre ++ bs ++ rest) (length pre))
  = (value bs, mkBuffer ((pre ++ bs) ++ rest) (length (pre ++ bs))).
Proof.
  intros <-. rewrite read_bytes_at, length_app. now rewrite <- app_assoc.
Qed.

Lemma read_step (w : nat) (v : Z) (pre rest : list byte_t) :
  read w (mkBuffer (pre ++ le_bytes w v ++ rest) (length pre))
  = (value (v mod 256 ^ Z.of_nat w),
     mkBuffer ((pre ++ le_bytes w v) ++ rest) (length (pre ++ le_bytes w v))).
Proof.
  rewrite read_at by apply length_le_bytes.
  rewrite le_value_le_bytes, length_app, length_le_bytes.
  now rewrite <- app_assoc.
Qed.

Lemma byte_of_Z_mod (z : Z) : byte_of_Z (z mod 256) = byte_of_Z z.
Proof.
  unfold byte_of_Z. rewrite Z.mod_mod by lia. reflexivity.
Qed.

Lemma ntohs_htons (p : Z) : 0 <= p < 2 ^ 16 -> ntohs (htons p) = p.
Proof.
  intros Hp. unfold ntohs, htons.
  change (2 ^ 16) with 65536 in Hp.
  pose proof (Z.div_mod p 256 ltac:(lia)) as E.
  pose proof (Z.mod_pos_bound p 256 ltac:(lia)) as Hm.
  assert (Hq : 0 <= p / 256 < 256)
    by (split; [apply Z.div_pos; lia | apply Z.div_lt_upper_bound; lia]).
  rewrite (Z.mod_small (p / 256)) by lia.
  replace ((p mod 256 * 256 + p / 256) mod 256) with (p / 256).
  - replace ((p mod 256 * 256 + p / 256) / 256) with (p mod 256).
    + rewrite (Z.mod_small (p mod 256)) by lia. lia.
    + symmetry. rewrite Z.add_comm, Z.div_add by lia.
      rewrite Z.div_small by lia. reflexivity.
  - symmetry. rewrite Z.add_comm, Z.mod_add by lia. apply Z.mod_small. lia.
Qed.

Lemma htons_range (p : Z) : 0 <= htons p < 256 ^ Z.of_nat 2.
Proof.
  unfold htons. change (256 ^ Z.of_nat 2) with 65536.
  pose proof (Z.mod_pos_bound p 256 ltac:(lia)).
  pose proof (Z.mod_pos_bound (p / 256) 256 ltac:(lia)). lia.
Qed.

(** On the wire the port stands most significant byte first. *)
Lemma le_bytes_htons (p : Z) :
  le_bytes 2 (htons p) = [byte_of_Z (p / 256); byte_of_Z p].
Proof.
  unfold htons. cbn [le_bytes]. f_equal; [|f_equal].
  - rewrite <- byte_of_Z_mod, Z.add_comm, Z.mod_add by lia.
    rewrite Z.mod_mod by lia. apply byte_of_Z_mod.
  - rewrite Z.add_comm, Z.div_add by lia.
    rewrite Z.div_small by (apply Z.mod_pos_bound; lia).
    cbn [Z.add]. apply byte_of_Z_mod.
Qed.

Lemma MessageHeader_serialize_chunks (h : MessageHeader) (b : Buffer) :
  MessageHeader_serialize h b
  = write_chunks [magic_ h; command_ h; le_bytes 4 (payload_size_ h);
                  checksum_ h] b.
Proof.
  unfold MessageHeader_serialize, write. cbn [write_chunks]. unfold bind, ret.
  destruct (write_bytes (magic_ h) b) as [[t1|e1] b1]; [|reflexivity].
  destruct (write_bytes (command_ h) b1) as [[t2|e2] b2]; [|reflexivity].
  destruct (write_bytes _ b2) as [[t3|e3] b3]; [|reflexivity].
  destruct (write_bytes (checksum_ h) b3) as [[t4|e4] b4]; reflexivity.
Qed.

Lemma Address_serialize_chunks (tps : Z) (a : Address) (b : Buffer) :
  Address_serialize tps a b
  = write_chunks [le_bytes 4 (to_time_t tps (time_ a));
                  le_bytes 8 (services_ a); ip_ a;
                  le_bytes 2 (htons (port_ a))] b.
Proof.
  unfold Address_serialize, write. cbn [write_chunks]. unfold bind, ret.
  destruct (write_bytes _ b) as [[t1|e1] b1]; [|reflexivity].
  destruct (write_bytes _ b1) as [[t2|e2] b2]; [|reflexivity].
  destruct (write_bytes (ip_ a) b2) as [[t3|e3] b3]; [|reflexivity].
  destruct (write_bytes _ b3) as [[t4|e4] b4]; reflexivity.
Qed.

Lemma Inv_serialize_chunks (i : Inv) (b : Buffer) :
  Inv_serialize i b = write_chunks [le_bytes 4 (type_ i); hash_ i] b.
Proof.
  unfold Inv_serialize, write. cbn [write_chunks]. unfold bind, ret.
  destruct (write_bytes _ b) as [[t1|e1] b1]; [|reflexivity].
  destruct (write_bytes (hash_ i) b1) as [[t2|e2] b2]; reflexivity.
Qed.

Lemma before_nul_zeros (c z : list byte_t) :
  (forall b, In b z -> b = x00) -> before_nul (c ++ z) = before_nul c.
Proof.
  intros Hz. induction c as [|x c IH]; cbn [app before_nul].
  - destruct z as [|y z]; [reflexivity|].
    cbn [before_nul]. rewrite (Hz y) by now left. reflexivity.
  - now rewrite IH.
Qed.

Lemma before_nul_id (c : list byte_t) : ~ In x00 c -> before_nul c = c.
Proof.
  induction c as [|x c IH]; intros Hno; cbn [before_nul]; [reflexivity|].
  destruct (Byte.eqb x x00) eqn:E.
  - apply Byte.byte_dec_bl in E. exfalso. apply Hno. left. exact E.
  - f_equal. apply IH. intros Hin. apply Hno. now right.
Qed.

Lemma In_firstn_le {A : Type} (x : A) (i j : nat) (l : list A) :
  (i <= j)%nat -> In x (firstn i l) -> In x (firstn j l).
Proof.
  intros Hij Hin.
  rewrite <- (firstn_skipn i (firstn j l)).
  rewrite firstn_firstn, Nat.min_l by lia. apply in_or_app. now left.
Qed.

End WireFacts.

(** X6.  A message header always takes 24 bytes on the wire: written where
    at least 24 bytes are left, [serialize] succeeds and advances the cursor
    by 24, and [deserialize] from the old cursor returns the same header and
    stops at the same place. *)
Theorem MessageHeader_roundtrip_in_24_bytes
    (h : wire.MessageHeader) (b : serialize.Buffer) :
  wire.header_wf h -> serialize.wf b -> (24 <= serialize.remaining b)%nat ->
  exists b',
    wire.MessageHeader_serialize h b = (serialize.value tt, b')
    /\ serialize.pos_ b' = (serialize.pos_ b + 24)%nat
    /\ wire.MessageHeader_deserialize
         (serialize.mkBuffer (serialize.data_ b') (serialize.pos_ b))
       = (serialize.value h, b').
Proof.
  intros (Hmagic & Hcommand & Hchecksum & Hsize) Hwf Hroom.
  unfold wire.COMMAND_SIZE in Hcommand.
  rewrite MessageHeader_serialize_chunks.
  assert (Hlen : length (concat [wire.magic_ h; wire.command_ h;
                                 serialize.le_bytes 4 (wire.payload_size_ h);
                                 wire.checksum_ h]) = 24%nat).
  { cbn [concat]. rewrite !length_app, length_le_bytes.
    cbn [length]. lia. }
  destruct (write_chunks_between _ b Hwf ltac:(rewrite Hlen; exact Hroom))
    as (pre & post & Hpre & Hwrite).
  rewrite Hwrite, Hlen. eexists. split; [reflexivity|].
  cbn [serialize.pos_ serialize.data_]. split; [lia|].
  rewrite <- Hpre. cbn [concat]. rewrite app_nil_r, <- !app_assoc.
  unfold wire.MessageHeader_deserialize, wire.COMMAND_SIZE.
  unfold serialize.bind at 1. rewrite (read_bytes_step 4) by assumption.
  unfold serialize.bind at 1. rewrite (read_bytes_step 12) by assumption.
  unfold serialize.bind at 1. rewrite read_step.
  unfold serialize.bind at 1. rewrite (read_bytes_step 4) by assumption.
  unfold serialize.ret.
  change (256 ^ Z.of_nat 4) with (2 ^ 32). rewrite Z.mod_small by lia.
  destruct h as [m c s k]. cbn [wire.magic_ wire.command_ wire.payload_size_
    wire.checksum_] in *.
  f_equal. f_equal.
  - now rewrite <- !app_assoc.
  - rewrite !length_app, length_le_bytes. lia.
Qed.

Lemma MessageHeader_roundtrip_in_24_bytes_witness :
  exists b',
    wire.MessageHeader_serialize
      (wire.MessageHeader_new [x70; x69; x6e; x67] 0)
      (serialize.mkBuffer (repeat x00 24) 0)
    = (serialize.value tt, b')
    /\ serialize.pos_ b'
       = (serialize.pos_ (serialize.mkBuffer (repeat x00 24) 0) + 24)%nat
    /\ wire.MessageHeader_deserialize
         (serialize.mkBuffer (serialize.data_ b')
            (serialize.pos_ (serialize.mkBuffer (repeat x00 24) 0)))
       = (serialize.value (wire.MessageHeader_new [x70; x69; x6e; x67] 0), b').
Proof.
  apply (MessageHeader_roundtrip_in_24_bytes
           (wire.MessageHeader_new [x70; x69; x6e; x67] 0)
           (serialize.mkBuffer (repeat x00 24) 0)).
  - unfold wire.header_wf. cbn. repeat split; lia.
  - unfold serialize.wf. cbn. lia.
  - cbn. lia.
Defined.

(** X7.  The command read back from a header is the first 12 characters of
    the command that was set, cut at its first zero character: a command of
    at most 12 characters without a zero comes back as it was, a longer one
    is shortened without notice. *)
Theorem GetCommand_after_SetCommand
    (cmd : list serialize.byte_t) (h : wire.MessageHeader) :
  wire.GetCommand (wire.SetCommand cmd h)
  = wire.before_nul (firstn wire.COMMAND_SIZE cmd)
  /\ ((length cmd <= wire.COMMAND_SIZE)%nat -> ~ In x00 cmd ->
      wire.GetCommand (wire.SetCommand cmd h) = cmd).
Proof.
  assert (Hgen : wire.GetCommand (wire.SetCommand cmd h)
                 = wire.before_nul (firstn wire.COMMAND_SIZE cmd)).
  { unfold wire.GetCommand, wire.SetCommand. cbn [wire.command_].
    unfold serialize.overwrite. cbn [firstn app].
    apply before_nul_zeros. intros b Hin.
    assert (Hin' : In b (repeat x00 wire.COMMAND_SIZE)).
    { rewrite <- (firstn_skipn
                    (0 + length (firstn wire.COMMAND_SIZE cmd))
                    (repeat x00 wire.COMMAND_SIZE)).
      apply in_or_app. now right. }
    now apply repeat_spec in Hin'. }
  split; [exact Hgen|].
  intros Hlen Hno. rewrite Hgen, firstn_all2 by exact Hlen.
  now apply before_nul_id.
Qed.

(** X8.  An address takes 30 bytes on the wire, the port last and most
    significant byte first.  Reading it back returns the services, the 16
    address bytes and the port unchanged; of the time only the whole seconds
    modulo 2^32 come back. *)
Theorem Address_roundtrip_in_30_bytes
    (ticks_per_second : Z) (a : wire.Address) (b : serialize.Buffer) :
  0 <= wire.services_ a < 2 ^ 64 ->
  length (wire.ip_ a) = 16%nat ->
  0 <= wire.port_ a < 2 ^ 16 ->
  serialize.wf b -> (30 <= serialize.remaining b)%nat ->
  exists b',
    wire.Address_serialize ticks_per_second a b = (serialize.value tt, b')
    /\ serialize.pos_ b' = (serialize.pos_ b + 30)%nat
    /\ firstn 2 (skipn (serialize.pos_ b + 28) (serialize.data_ b'))
       = [serialize.byte_of_Z (wire.port_ a / 256);
          serialize.byte_of_Z (wire.port_ a)]
    /\ wire.Address_deserialize ticks_per_second
         (serialize.mkBuffer (serialize.data_ b') (serialize.pos_ b))
       = (serialize.value
            (wire.mkAddress (wire.services_ a) (wire.ip_ a) (wire.port_ a)
               (wire.from_time_t ticks_per_second
                  (wire.to_time_t ticks_per_second (wire.time_ a) mod 2 ^ 32))),
          b').
Proof.
  intros Hservices Hip Hport Hwf Hroom.
  rewrite Address_serialize_chunks.
  set (t := wire.to_time_t ticks_per_second (wire.time_ a)).
  assert (Hlen : length (concat [serialize.le_bytes 4 t;
                                 serialize.le_bytes 8 (wire.services_ a);
                                 wire.ip_ a;
                                 serialize.le_bytes 2 (wire.htons (wire.port_ a))])
                 = 30%nat).
  { cbn [concat]. rewrite !length_app, !length_le_bytes.
    cbn [length]. lia. }
  destruct (write_chunks_between _ b Hwf ltac:(rewrite Hlen; exact Hroom))
    as (pre & post & Hpre & Hwrite).
  rewrite Hwrite, Hlen. eexists. split; [reflexivity|].
  cbn [serialize.pos_ serialize.data_]. split; [lia|].
  rewrite <- Hpre. cbn [concat]. rewrite app_nil_r, <- !app_assoc.
  split.
  - rewrite !app_assoc.
    rewrite <- (app_assoc _ (serialize.le_bytes 2 _) post).
    rewrite skipn_app.
    rewrite skipn_all2 by (rewrite !length_app, !length_le_bytes; lia).
    rewrite !length_app, !length_le_bytes, Hip.
    replace (length pre + 28 - (length pre + 4 + 8 + 16))%nat with 0%nat by lia.
    cbn [skipn app]. rewrite le_bytes_htons. reflexivity.
  - unfold wire.Address_deserialize.
    unfold serialize.bind at 1. rewrite read_step.
    unfold serialize.bind at 1. rewrite read_step.
    unfold serialize.bind at 1. rewrite (read_bytes_step 16) by assumption.
    unfold serialize.bind at 1. rewrite read_step.
    unfold serialize.ret.
    change (256 ^ Z.of_nat 4) with (2 ^ 32).
    change (256 ^ Z.of_nat 8) with (2 ^ 64).
    rewrite (Z.mod_small (wire.services_ a)) by lia.
    rewrite (Z.mod_small (wire.htons (wire.port_ a)))
      by apply htons_range.
    rewrite ntohs_htons by exact Hport.
    f_equal. f_equal.
    + now rewrite <- !app_assoc.
    + rewrite !length_app, !length_le_bytes. lia.
Qed.

Lemma Address_roundtrip_in_30_bytes_witness :
  exists b',
    wire.Address_serialize 1000000000
      (wire.mkAddress 1 (repeat x00 10 ++ [xff; xff; x7f; x00; x00; x01])
                      8121 1700000000123456789)
      (serialize.mkBuffer (repeat x00 30) 0)
    = (serialize.value tt, b')
    /\ serialize.pos_ b' = (0 + 30)%nat
    /\ firstn 2 (skipn (0 + 28) (serialize.data_ b'))
       = [serialize.byte_of_Z (8121 / 256); serialize.byte_of_Z 8121]
    /\ wire.Address_deserialize 1000000000
         (serialize.mkBuffer (serialize.data_ b') 0)
       = (serialize.value
            (wire.mkAddress 1 (repeat x00 10 ++ [xff; xff; x7f; x00; x00; x01])
               8121
               (wire.from_time_t 1000000000
                  (wire.to_time_t 1000000000 1700000000123456789 mod 2 ^ 32))),
          b').
Proof.
  apply (Address_roundtrip_in_30_bytes 1000000000
           (wire.mkAddress 1 (repeat x00 10 ++ [xff; xff; x7f; x00; x00; x01])
                           8121 1700000000123456789)
           (serialize.mkBuffer (repeat x00 30) 0)).
  - cbn. lia.
  - reflexivity.
  - cbn. lia.
  - unfold serialize.wf. cbn. lia.
  - cbn. lia.
Defined.

(** X9.  [IsLocal] never takes its IPv6 branch: an address goes there only
    when one of its first 12 bytes is neither 0 nor 0xff, and then the first
    15 bytes are not all zero.  So every address that [IsIPv4] does not
    accept is routable, and the IPv6 loopback [::1], which [IsIPv4] accepts,
    is judged by its byte 12 alone. *)
Theorem IsRoutable_decides_on_the_IPv4_bytes (a : wire.Address) :
  wire.IsLocal a = wire.IsIPv4 a && (wire.ip_at a 12 =? 127)
  /\ wire.IsRoutable a
     = negb (wire.IsIPv4 a
             && ((wire.ip_at a 12 =? 10)
                 || ((wire.ip_at a 12 =? 172)
                     && ((wire.ip_at a 13 >=? 16) && (wire.ip_at a 13 <=? 31)))
                 || ((wire.ip_at a 12 =? 192) && (wire.ip_at a 13 =? 168))
                 || ((wire.ip_at a 12 =? 169) && (wire.ip_at a 13 =? 254))
                 || (wire.ip_at a 12 =? 127))).
Proof.
  assert (Hlocal : wire.IsLocal a
                   = wire.IsIPv4 a && (wire.ip_at a 12 =? 127)).
  { unfold wire.IsLocal. destruct (wire.IsIPv4 a) eqn:Hv4; [reflexivity|].
    cbn [andb].
    destruct (forallb (fun b => serialize.Z_of_byte b =? 0)
                (firstn 15 (wire.ip_ a))) eqn:Hzero; [|reflexivity].
    exfalso. unfold wire.IsIPv4 in Hv4.
    assert (Hall : forallb
              (fun b => (serialize.Z_of_byte b =? 0)
                        || (serialize.Z_of_byte b =? 255))
              (firstn 12 (wire.ip_ a)) = true).
    { apply forallb_forall. intros x Hin.
      rewrite forallb_forall in Hzero.
      rewrite (Hzero x); [reflexivity|].
      apply (In_firstn_le x 12 15); [lia | exact Hin]. }
    congruence. }
  split; [exact Hlocal|].
  unfold wire.IsRoutable. rewrite Hlocal.
  unfold wire.IsRFC1918, wire.IsRFC3927.
  destruct (wire.IsIPv4 a); cbn [negb andb orb]; reflexivity.
Qed.

(** X10.  An inventory entry takes 36 bytes on the wire and is read back
    unchanged, its type included whether or not it is a known one. *)
Theorem Inv_roundtrip_in_36_bytes (i : wire.Inv) (b : serialize.Buffer) :
  0 <= wire.type_ i < 2 ^ 32 -> length (wire.hash_ i) = 32%nat ->
  serialize.wf b -> (36 <= serialize.remaining b)%nat ->
  exists b',
    wire.Inv_serialize i b = (serialize.value tt, b')
    /\ serialize.pos_ b' = (serialize.pos_ b + 36)%nat
    /\ wire.Inv_deserialize
         (serialize.mkBuffer (serialize.data_ b') (serialize.pos_ b))
       = (serialize.value i, b').
Proof.
  intros Htype Hhash Hwf Hroom.
  rewrite Inv_serialize_chunks.
  assert (Hlen : length (concat [serialize.le_bytes 4 (wire.type_ i);
                                 wire.hash_ i]) = 36%nat).
  { cbn [concat]. rewrite !length_app, !length_le_bytes.
    cbn [length]. lia. }
  destruct (write_chunks_between _ b Hwf ltac:(rewrite Hlen; exact Hroom))
    as (pre & post & Hpre & Hwrite).
  rewrite Hwrite, Hlen. eexists. split; [reflexivity|].
  cbn [serialize.pos_ serialize.data_]. split; [lia|].
  rewrite <- Hpre. cbn [concat]. rewrite app_nil_r, <- !app_assoc.
  unfold wire.Inv_deserialize.
  unfold serialize.bind at 1. rewrite read_step.
  unfold serialize.bind at 1. rewrite (read_bytes_step 32) by assumption.
  unfold serialize.ret.
  change (256 ^ Z.of_nat 4) with (2 ^ 32). rewrite Z.mod_small by lia.
  destruct i as [ty hs]. cbn [wire.type_ wire.hash_] in *.
  f_equal. f_equal.
  - now rewrite <- !app_assoc.
  - rewrite !length_app, length_le_bytes. lia.
Qed.

Lemma Inv_roundtrip_in_36_bytes_witness :
  exists b',
    wire.Inv_serialize (wire.mkInv 7 (repeat xab 32))
      (serialize.mkBuffer (repeat x00 40) 2)
    = (serialize.value tt, b')
    /\ serialize.pos_ b' = (2 + 36)%nat
    /\ wire.Inv_deserialize (serialize.mkBuffer (serialize.data_ b') 2)
       = (serialize.value (wire.mkInv 7 (repeat xab 32)), b').
Proof.
  apply (Inv_roundtrip_in_36_bytes (wire.mkInv 7 (repeat xab 32))
           (serialize.mkBuffer (repeat x00 40) 2)).
  - cbn. lia.
  - reflexivity.
  - unfold serialize.wf. cbn. lia.
  - cbn. lia.
Defined.

(** X11.  [PushMessage] queues the command with the encoding of the payload
    when the encoding takes at most 1024 bytes, and does nothing at all when
    it takes more: the message is dropped without any sign to the caller. *)
Theorem PushMessage_queues_only_what_fits
    (command : string) (payload : serialize.SValue) (node : net.Node) :
  net.PushMessage command payload node
  = if (length (serialize.encode payload) <=? 1024)%nat
    then net.mkNode (net.socket_ node) (net.version_sent_ node)
           (net.version_received_ node)
           (net.send_queue_ node ++ [(command, serialize.encode payload)])
    else node.
Proof.
  unfold net.PushMessage.
  destruct (Nat.leb_spec (length (serialize.encode payload)) 1024) as [Hfit|Hbig].
  - now rewrite to_bytes_up_to_1024.
  - unfold serialize.to_bytes.
    pose proof (Serializer_serialize_overflows payload
                  (serialize.mkBuffer (repeat x00 1024) 0)) as Hover.
    cbv zeta.
    destruct (serialize.Serializer_serialize payload
                (serialize.mkBuffer (repeat x00 1024) 0)) as [[t|e] b'].
    + cbn [fst] in Hover. discriminate Hover.
      * unfold serialize.wf. cbn. lia.
      * unfold serialize.remaining. cbn [serialize.data_ serialize.pos_].
        rewrite repeat_length. lia.
    + reflexivity.
Qed.

(** ** Subnets, the lottery ticket and the draw *)

Section SubnetFacts.
Import ipfilter.

Variable NetAddr : Type.
Variable GetIPv4 : NetAddr -> Z.

Lemma filter_length_mono {A : Type} (f g : A -> bool) (l : list A) :
  (forall x, f x = true -> g x = true) ->
  (length (filter f l) <= length (filter g l))%nat.
Proof.
  intros Himp. induction l as [|x l IH]; cbn [filter]; [lia|].
  destruct (f x) eqn:Hf.
  - rewrite (Himp x Hf). cbn [length]. lia.
  - destruct (g x); cbn [length]; lia.
Qed.

(** Two addresses in one subnet are in one subnet for every shorter mask. *)
Lemma GetSubnetMask_nested (a b : NetAddr) :
  (GetSubnetMask NetAddr GetIPv4 a ClassC
   = GetSubnetMask NetAddr GetIPv4 b ClassC ->
   GetSubnetMask NetAddr GetIPv4 a Block20
   = GetSubnetMask NetAddr GetIPv4 b Block20)
  /\ (GetSubnetMask NetAddr GetIPv4 a Block20
      = GetSubnetMask NetAddr GetIPv4 b Block20 ->
      GetSubnetMask NetAddr GetIPv4 a Block16
      = GetSubnetMask NetAddr GetIPv4 b Block16).
Proof.
  unfold GetSubnetMask. cbv zeta.
  change (Machine.wrap 32 (Z.shiftl 4294967295 (32 - mask_bits ClassC)))
    with 4294967040.
  change (Machine.wrap 32 (Z.shiftl 4294967295 (32 - mask_bits Block20)))
    with 4294963200.
  change (Machine.wrap 32 (Z.shiftl 4294967295 (32 - mask_bits Block16)))
    with 4294901760.
  split; intros H.
  - change 4294963200 with (Z.land 4294967040 4294963200).
    now rewrite !Z.land_assoc, H.
  - change 4294901760 with (Z.land 4294963200 4294901760).
    now rewrite !Z.land_assoc, H.
Qed.

Lemma CountNodesInSubnet_length (addr : NetAddr) (c : SubnetClass)
    (nodes : list NetAddr) :
  Z.of_nat (length nodes) < 2 ^ 31 ->
  CountNodesInSubnet NetAddr GetIPv4 addr c nodes
  = Z.of_nat
      (length
         (filter (fun node => GetSubnetMask NetAddr GetIPv4 node c
                              =? GetSubnetMask NetAddr GetIPv4 addr c)
                 nodes)).
Proof.
  intros Hlen. unfold CountNodesInSubnet. cbv zeta.
  apply swrap_small; [lia|]. change (2 ^ (32 - 1)) with (2 ^ 31).
  pose proof (filter_length_le
                (fun node => GetSubnetMask NetAddr GetIPv4 node c
                             =? GetSubnetMask NetAddr GetIPv4 addr c) nodes).
  assert (0 < 2 ^ 31) by reflexivity. lia.
Qed.

End SubnetFacts.

(** X12.  The subnets nest: a node counted in the /24 of an address is
    counted in its /20, and a node counted in the /20 is counted in its /16,
    so the three counts can only grow with the block. *)
Theorem CountNodesInSubnet_grows_with_the_block
    (NetAddr : Type) (GetIPv4 : NetAddr -> Z)
    (addr : NetAddr) (nodes : list NetAddr) :
  Z.of_nat (length nodes) < 2 ^ 31 ->
  0 <= ipfilter.CountNodesInSubnet NetAddr GetIPv4 addr ipfilter.ClassC nodes
  /\ ipfilter.CountNodesInSubnet NetAddr GetIPv4 addr ipfilter.ClassC nodes
     <= ipfilter.CountNodesInSubnet NetAddr GetIPv4 addr ipfilter.Block20 nodes
  /\ ipfilter.CountNodesInSubnet NetAddr GetIPv4 addr ipfilter.Block20 nodes
     <= ipfilter.CountNodesInSubnet NetAddr GetIPv4 addr ipfilter.Block16 nodes
  /\ ipfilter.CountNodesInSubnet NetAddr GetIPv4 addr ipfilter.Block16 nodes
     <= Z.of_nat (length nodes).
Proof.
  intros Hlen. rewrite !CountNodesInSubnet_length by exact Hlen.
  repeat split.
  - lia.
  - apply inj_le, filter_length_mono. intros x Hx.
    apply Z.eqb_eq in Hx. apply Z.eqb_eq.
    now apply (GetSubnetMask_nested NetAddr GetIPv4 x addr).
  - apply inj_le, filter_length_mono. intros x Hx.
    apply Z.eqb_eq in Hx. apply Z.eqb_eq.
    now apply (GetSubnetMask_nested NetAddr GetIPv4 x addr).
  - apply inj_le, filter_length_le.
Qed.

Lemma CountNodesInSubnet_grows_with_the_block_witness :
  0 <= ipfilter.CountNodesInSubnet Z (fun ip => ip) 0xC0A80105 ipfilter.ClassC
         [0xC0A80101; 0xC0A80F01; 0xC0A8FF01; 0x0A000001]
  /\ ipfilter.CountNodesInSubnet Z (fun ip => ip) 0xC0A80105 ipfilter.ClassC
       [0xC0A80101; 0xC0A80F01; 0xC0A8FF01; 0x0A000001]
     <= ipfilter.CountNodesInSubnet Z (fun ip => ip) 0xC0A80105 ipfilter.Block20
          [0xC0A80101; 0xC0A80F01; 0xC0A8FF01; 0x0A000001]
  /\ ipfilter.CountNodesInSubnet Z (fun ip => ip) 0xC0A80105 ipfilter.Block20
       [0xC0A80101; 0xC0A80F01; 0xC0A8FF01; 0x0A000001]
     <= ipfilter.CountNodesInSubnet Z (fun ip => ip) 0xC0A80105 ipfilter.Block16
          [0xC0A80101; 0xC0A80F01; 0xC0A8FF01; 0x0A000001]
  /\ ipfilter.CountNodesInSubnet Z (fun ip => ip) 0xC0A80105 ipfilter.Block16
       [0xC0A80101; 0xC0A80F01; 0xC0A8FF01; 0x0A000001]
     <= Z.of_nat (length [0xC0A80101; 0xC0A80F01; 0xC0A8FF01; 0x0A000001]).
Proof.
  apply (CountNodesInSubnet_grows_with_the_block Z (fun ip => ip) 0xC0A80105
           [0xC0A80101; 0xC0A80F01; 0xC0A8FF01; 0x0A000001]).
  cbn. lia.
Defined.

(** X13.  What [ShouldAllowNode] answers on the analysis that
    [AnalyzeIPClustering] made: the node is allowed exactly when at most two
    existing nodes share its /24, or its coins are older than 14400 blocks.
    The mask the analysis recommends and the /20 count play no part, and the
    address given to [ShouldAllowNode] is not read. *)
Theorem ShouldAllowNode_after_AnalyzeIPClustering
    (NetAddr : Type) (GetIPv4 : NetAddr -> Z)
    (addr new_node : NetAddr) (existing_nodes : list NetAddr)
    (metrics : pop.WalletMetrics) :
  ipfilter.ShouldAllowNode NetAddr addr metrics
    (ipfilter.AnalyzeIPClustering NetAddr GetIPv4 new_node existing_nodes)
  = (ipfilter.CountNodesInSubnet NetAddr GetIPv4 new_node ipfilter.ClassC
       existing_nodes <=? 2)
    || (pop.coin_age_blocks metrics >? 14400).
Proof.
  unfold ipfilter.AnalyzeIPClustering, ipfilter.ShouldAllowNode. cbv zeta.
  change (pop.STAKE_MATURITY_BLOCKS * 10) with 14400.
  set (n := ipfilter.CountNodesInSubnet NetAddr GetIPv4 new_node
              ipfilter.ClassC existing_nodes).
  destruct (Z.gtb_spec n 2) as [Hgt|Hle].
  - destruct (Z.leb_spec n 2) as [|_]; [lia|]. cbn [orb].
    destruct (ipfilter.CountNodesInSubnet NetAddr GetIPv4 new_node
                ipfilter.Block20 existing_nodes >? 10);
      cbn [ipfilter.suspicious_pattern ipfilter.recommended_mask
           ipfilter.node_count_in_subnet negb];
      destruct (pop.coin_age_blocks metrics >? 14400); try reflexivity;
      destruct (Z.leb_spec n 2); try reflexivity; lia.
  - cbn [ipfilter.suspicious_pattern negb].
    destruct (Z.leb_spec n 2); [reflexivity | lia].
Qed.

Lemma Bytes_eqb_refl (a : list byte) : Bytes.eqb a a = true.
Proof.
  induction a as [|x a IH]; [reflexivity|].
  cbn [Bytes.eqb]. rewrite IH, andb_true_r. now apply Byte.byte_dec_lb.
Qed.

(** X14.  A result made by [ComputeLottery] passes [VerifyLottery] for the
    same seed and key, and so does every result that carries the same hash:
    the winner flag, the proof bytes and the probability are not looked at,
    so a ticket that lost verifies as well as one that won. *)
Theorem VerifyLottery_checks_the_hash_only
    (SHA256 : list byte -> list byte) (block_seed participant_key : list byte)
    (total_participating_stake : Z) :
  exists r : pop.LotteryResult,
    pop.ComputeLottery SHA256 block_seed participant_key
      total_participating_stake = pop.value r
    /\ lotterycheck.VerifyLottery SHA256 r block_seed participant_key
       = pop.value true
    /\ forall proof is_winner probability,
         lotterycheck.VerifyLottery SHA256
           (pop.mkLottery (pop.lr_hash r) proof is_winner probability)
           block_seed participant_key
         = pop.value true.
Proof.
  eexists. split; [reflexivity|].
  unfold lotterycheck.VerifyLottery. cbn [pop.lr_hash].
  split; [|intros proof is_winner probability];
    now rewrite Bytes_eqb_refl.
Qed.

(** X15.  At every height [checkParticipation] answers yes to at most one
    address.  With no matured participant it answers no to everybody;
    otherwise one matured entry is drawn and the answer is yes exactly for
    the addresses that convert to the address of that entry. *)
Theorem checkParticipation_names_one_entry
    (Hash : main.uint256 -> Z -> main.uint256) (Get64 : main.uint256 -> Z)
    (uint160_of : main.uint256 -> Z)
    (activeParticipants : list participation.ParticipationEntry)
    (previousBlockHash : main.uint256) (currentHeight : Z) :
  (participation.getActiveParticipants activeParticipants currentHeight = [] ->
   forall myAddress,
     draw.checkParticipation Hash Get64 uint160_of activeParticipants
       myAddress previousBlockHash currentHeight = false)
  /\ (participation.getActiveParticipants activeParticipants currentHeight
      <> [] ->
      exists winner,
        In winner
           (participation.getActiveParticipants activeParticipants
              currentHeight)
        /\ forall myAddress,
             draw.checkParticipation Hash Get64 uint160_of activeParticipants
               myAddress previousBlockHash currentHeight
             = (participation.address winner =? uint160_of myAddress)).
Proof.
  unfold draw.checkParticipation. cbv zeta.
  set (participants :=
         participation.getActiveParticipants activeParticipants currentHeight).
  split.
  - intros Hnone myAddress. now rewrite Hnone.
  - intros Hsome.
    destruct (selectWinner_unique_winner Hash Get64 previousBlockHash
                participants currentHeight Hsome)
      as (i & winner & _ & Hnth & Honly).
    exists winner. split; [now apply nth_error_In with i|].
    intros myAddress.
    destruct participants as [|p ps]; [congruence|].
    assert (Hsel : participation.selectWinner Hash Get64 previousBlockHash
                     (p :: ps) currentHeight = Some winner)
      by now apply Honly.
    now rewrite Hsel.
Qed.

(** X16.  Adding an entry and then removing its transaction id gives back
    the registry as it was, provided no entry carried that id before; in
    general the removal deletes every entry with the id, those registered
    earlier included, and nothing else. *)
Theorem removeParticipant_after_addParticipant
    (activeParticipants : list participation.ParticipationEntry)
    (entry : participation.ParticipationEntry) :
  participation.removeParticipant
    (participation.addParticipant activeParticipants entry)
    (participation.txid entry)
  = participation.removeParticipant activeParticipants
      (participation.txid entry)
  /\ ((forall p, In p activeParticipants ->
                 participation.txid p <> participation.txid entry) ->
      participation.removeParticipant
        (participation.addParticipant activeParticipants entry)
        (participation.txid entry)
      = activeParticipants)
  /\ (forall id p,
        In p (participation.removeParticipant activeParticipants id)
        <-> In p activeParticipants /\ participation.txid p <> id).
Proof.
  unfold participation.removeParticipant, participation.addParticipant.
  assert (Hfirst :
    filter (fun p => negb (participation.txid p =? participation.txid entry))
           (activeParticipants ++ [entry])
    = filter (fun p => negb (participation.txid p =? participation.txid entry))
             activeParticipants).
  { rewrite filter_app. cbn [filter]. rewrite Z.eqb_refl. cbn [negb].
    apply app_nil_r. }
  split; [exact Hfirst|]. split.
  - intros Hfresh. rewrite Hfirst. clear Hfirst.
    induction activeParticipants as [|q l IH]; [reflexivity|].
    cbn [filter].
    destruct (Z.eqb_spec (participation.txid q) (participation.txid entry))
      as [Heq|Hne].
    + exfalso. apply (Hfresh q); [now left | exact Heq].
    + cbn [negb]. f_equal. apply IH. intros p Hin. apply Hfresh. now right.
  - intros id p. rewrite filter_In.
    destruct (Z.eqb_spec (participation.txid p) id); cbn [negb];
      intuition congruence.
Qed.

(** ** The hard fork: validation after it, the activation state, the time
       left *)

(** X17.  From the fork height on, [HardForkManager::ValidateBlock] accepts
    every block that has a first transaction, whatever the block holds: the
    stake amount, the stake age and the lottery check it consults are fixed
    values that always pass. *)
Theorem ValidateBlock_accepts_every_block_after_the_fork
    (GetHash GetWorkRequired : main.CBlock -> main.uint256)
    (block : main.CBlock) (nHeight : Z) :
  goldcoin.HARD_FORK_HEIGHT <= nHeight ->
  main.vtx block <> [] ->
  hardfork.ValidateBlock GetHash GetWorkRequired block nHeight = Some true.
Proof.
  intros Hheight Hvtx. unfold hardfork.ValidateBlock,
    goldcoin.IsProofOfParticipationActive.
  destruct (Z.geb_spec nHeight goldcoin.HARD_FORK_HEIGHT); [|lia].
  unfold hardfork.ValidatePoPBlock.
  destruct (main.vtx block) as [|stakeTx rest]; [congruence|].
  reflexivity.
Qed.

Lemma ValidateBlock_accepts_every_block_after_the_fork_witness :
  hardfork.ValidateBlock (fun _ => 2 ^ 255) (fun _ => 0)
    (main.mkBlock 1 0 0 0 0 0 [main.mkTransaction 1 [] [] 0]) 3500000
  = Some true.
Proof.
  apply (ValidateBlock_accepts_every_block_after_the_fork
           (fun _ => 2 ^ 255) (fun _ => 0)
           (main.mkBlock 1 0 0 0 0 0 [main.mkTransaction 1 [] [] 0]) 3500000).
  - unfold goldcoin.HARD_FORK_HEIGHT. lia.
  - discriminate.
Defined.

Lemma check_all_activated (calls : list (Z * main.uint256))
    (m : activation.HardForkManager) :
  activation.fActivated m = true -> activation.check_all calls m = m.
Proof.
  intros Hact. unfold activation.check_all.
  induction calls as [|c calls IH]; [reflexivity|].
  cbn [fold_left]. unfold activation.CheckActivation at 2.
  rewrite Hact. cbn [snd]. exact IH.
Qed.

(** X18.  The activation is a latch.  Over any run of [CheckActivation]
    calls from a manager that is not activated, the manager ends activated
    exactly when some call had a height at or above the fork height, and it
    then holds the height and the hash of the first such call; later calls,
    also with lower heights, change nothing. *)
Theorem CheckActivation_records_the_first_fork_block
    (calls : list (Z * main.uint256)) (m : activation.HardForkManager) :
  activation.fActivated m = false ->
  activation.check_all calls m
  = match find (fun call => fst call >=? goldcoin.HARD_FORK_HEIGHT) calls with
    | Some call => activation.mkManager true (fst call) (snd call)
    | None => m
    end.
Proof.
  revert m. induction calls as [|c calls IH]; intros m Hm; [reflexivity|].
  cbn [find]. unfold activation.check_all in *. cbn [fold_left].
  unfold activation.CheckActivation at 2. rewrite Hm.
  destruct (fst c >=? goldcoin.HARD_FORK_HEIGHT); cbn [snd].
  - unfold activation.ActivateHardFork. rewrite Hm.
    now apply check_all_activated.
  - now apply IH.
Qed.

Lemma CheckActivation_records_the_first_fork_block_witness :
  activation.check_all [(3499999, 11); (3500002, 22); (3500001, 33); (10, 44)]
    (activation.mkManager false 0 0)
  = match find (fun call => fst call >=? goldcoin.HARD_FORK_HEIGHT)
            [(3499999, 11); (3500002, 22); (3500001, 33); (10, 44)] with
    | Some call => activation.mkManager true (fst call) (snd call)
    | None => activation.mkManager false 0 0
    end.
Proof.
  apply (CheckActivation_records_the_first_fork_block
           [(3499999, 11); (3500002, 22); (3500001, 33); (10, 44)]
           (activation.mkManager false 0 0)).
  reflexivity.
Defined.

(** X19.  Below the fork height [GetTimeUntilHardFork] reports days, hours
    and minutes that add up exactly to 120 seconds for each block still to
    come, with fewer than 24 hours and fewer than 60 minutes. *)
Theorem GetTimeUntilHardFork_adds_up (nBestHeight : Z) :
  0 <= nBestHeight < goldcoin.HARD_FORK_HEIGHT ->
  exists days hours minutes,
    activation.GetTimeUntilHardFork nBestHeight
    = activation.Remaining days hours minutes
    /\ 0 <= days /\ 0 <= hours < 24 /\ 0 <= minutes < 60
    /\ days * 86400 + hours * 3600 + minutes * 60
       = (goldcoin.HARD_FORK_HEIGHT - nBestHeight) * 120.
Proof.
  intros Hh. unfold activation.GetTimeUntilHardFork. cbv zeta.
  unfold goldcoin.HARD_FORK_HEIGHT, participation.BLOCK_TIME_SECONDS in *.
  destruct (Z.geb_spec nBestHeight 3500000); [lia|].
  assert (H31 : 2 ^ (32 - 1) = 2147483648) by reflexivity.
  rewrite (swrap_small 32 (3500000 - nBestHeight)) by lia.
  rewrite (swrap_small 32 ((3500000 - nBestHeight) * 120)) by lia.
  set (s := (3500000 - nBestHeight) * 120).
  assert (Hs : 0 <= s) by (unfold s; lia).
  unfold Machine.cdiv.
  rewrite !Z.rem_mod_nonneg by lia.
  rewrite !Z.quot_div_nonneg
    by (try lia; apply Z.mod_pos_bound; lia).
  eexists _, _, _. split; [reflexivity|].
  pose proof (Z.div_mod s 86400 ltac:(lia)) as E1.
  pose proof (Z.mod_pos_bound s 86400 ltac:(lia)) as B1.
  pose proof (Z.div_mod (s mod 86400) 3600 ltac:(lia)) as E2.
  pose proof (Z.mod_pos_bound (s mod 86400) 3600 ltac:(lia)) as B2.
  pose proof (Z.div_mod s 3600 ltac:(lia)) as E3.
  pose proof (Z.mod_pos_bound s 3600 ltac:(lia)) as B3.
  pose proof (Z.div_mod (s mod 3600) 60 ltac:(lia)) as E4.
  pose proof (Z.mod_pos_bound (s mod 3600) 60 ltac:(lia)) as B4.
  assert (Hd : 0 <= s / 86400) by (apply Z.div_pos; lia).
  assert (Hhr : 0 <= s mod 86400 / 3600) by (apply Z.div_pos; lia).
  assert (Hmi : 0 <= s mod 3600 / 60) by (apply Z.div_pos; lia).
  unfold s in *. lia.
Qed.

Lemma GetTimeUntilHardFork_adds_up_witness :
  exists days hours minutes,
    activation.GetTimeUntilHardFork 3150000
    = activation.Remaining days hours minutes
    /\ 0 <= days /\ 0 <= hours < 24 /\ 0 <= minutes < 60
    /\ days * 86400 + hours * 3600 + minutes * 60
       = (goldcoin.HARD_FORK_HEIGHT - 3150000) * 120.
Proof.
  apply (GetTimeUntilHardFork_adds_up 3150000).
  unfold goldcoin.HARD_FORK_HEIGHT. lia.
Defined.

(** ** The total of the outputs of a transaction *)

Lemma GetValueOut_loop_fails (outs : list main.CTxOut) :
  fold_left transaction.add_output outs None = None.
Proof. induction outs as [|o outs IH]; [reflexivity | exact IH]. Qed.

Lemma GetValueOut_loop (outs : list main.CTxOut) :
  forall acc v,
    0 <= acc <= main.MAX_MONEY ->
    (fold_left transaction.add_output outs (Some acc) = Some v
     <-> Forall (fun o => 0 <= main.nValue o <= main.MAX_MONEY) outs
         /\ v = acc + fold_right Z.add 0 (map main.nValue outs)
         /\ v <= main.MAX_MONEY).
Proof.
  assert (HM : main.MAX_MONEY = 117224570000000000) by reflexivity.
  induction outs as [|o outs IH]; intros acc v Hacc.
  - cbn. split.
    + intros [= <-]. repeat split; [constructor | lia | lia].
    + intros (_ & -> & _). f_equal. lia.
  - cbn [fold_left map fold_right]. unfold transaction.add_output at 2.
    cbv zeta. unfold main.MoneyRange at 1.
    destruct (Z.geb_spec (main.nValue o) 0) as [Hlo|Hlo];
      [destruct (Z.leb_spec (main.nValue o) main.MAX_MONEY) as [Hhi|Hhi]|];
      cbn [andb negb orb].
    + rewrite (swrap_small 64 (acc + main.nValue o))
        by (change (2 ^ (64 - 1)) with 9223372036854775808; lia).
      unfold main.MoneyRange.
      destruct (Z.geb_spec (acc + main.nValue o) 0) as [_|]; [|lia].
      destruct (Z.leb_spec (acc + main.nValue o) main.MAX_MONEY) as [Hsum|Hsum];
        cbn [andb negb].
      * rewrite IH by lia. split.
        -- intros (Hall & -> & Hv). repeat split; [constructor|lia|lia];
             [lia | exact Hall].
        -- intros (Hall & -> & Hv). inversion_clear Hall as [|? ? _ Hall'].
           repeat split; [exact Hall' | lia | lia].
      * rewrite GetValueOut_loop_fails. split; [discriminate|].
        intros (Hall & -> & Hv). exfalso.
        inversion_clear Hall as [|? ? _ Hall'].
        assert (0 <= fold_right Z.add 0 (map main.nValue outs)).
        { clear -Hall'. induction Hall' as [|x l Hx _ IHl]; cbn; lia. }
        lia.
    + rewrite GetValueOut_loop_fails. split; [discriminate|].
      intros (Hall & _). inversion_clear Hall. lia.
    + rewrite GetValueOut_loop_fails. split; [discriminate|].
      intros (Hall & _). inversion_clear Hall. lia.
Qed.

(** X20.  [GetValueOut] returns a value exactly when every output is
    between 0 and [MAX_MONEY] and the outputs add up to at most [MAX_MONEY];
    the value is then their sum.  In every other case it throws. *)
Theorem GetValueOut_is_the_checked_sum (tx : main.CTransaction) (v : Z) :
  transaction.GetValueOut tx = Some v
  <-> Forall (fun o => 0 <= main.nValue o <= main.MAX_MONEY) (main.vout tx)
      /\ v = fold_right Z.add 0 (map main.nValue (main.vout tx))
      /\ v <= main.MAX_MONEY.
Proof.
  unfold transaction.GetValueOut.
  rewrite GetValueOut_loop by (unfold main.MAX_MONEY, main.COIN; lia).
  reflexivity.
Qed.

(** ** The whole block of a template *)

Section TemplateFacts.
Import fees.

Lemma accumulate_size_sum (l : list TransactionCandidate) :
  forall init, 0 <= init < 2 ^ 64 ->
  accumulate_size l init
  = Machine.wrap 64 (init + fold_right Z.add 0 (map size_bytes l)).
Proof.
  induction l as [|c l IH]; intros init Hinit.
  - cbn. rewrite Z.add_0_r. symmetry. now apply wrap_small.
  - rewrite accumulate_size_cons, IH
      by (apply wrap_range; unfold Machine.size_bits; lia).
    cbn [map fold_right]. unfold Machine.size_add, Machine.wrap, Machine.size_bits.
    rewrite Zplus_mod_idemp_l. f_equal. lia.
Qed.

(** The loop invariant of [SelectFeeTransactions]: the running
    [used_space] never exceeds the space that was available. *)
Lemma fill_fee_zone_bound (l : list TransactionCandidate) (available : Z) :
  forall used, 0 <= used <= available ->
  0 <= accumulate_size (fill_fee_zone l available used) used <= available.
Proof.
  induction l as [|c l IH]; intros used Hused; cbn [fill_fee_zone].
  - exact Hused.
  - destruct (Z.leb_spec (Machine.size_add used (size_bytes c)) available)
      as [Hfit|Hfull].
    + rewrite accumulate_size_cons. apply IH. split; [|exact Hfit].
      unfold Machine.size_add. apply wrap_range. unfold Machine.size_bits. lia.
    + now apply IH.
Qed.

Lemma fill_fee_zone_incl (l : list TransactionCandidate) (available : Z) :
  forall used, incl (fill_fee_zone l available used) l.
Proof.
  induction l as [|c l IH]; intros used; cbn [fill_fee_zone].
  - apply incl_refl.
  - destruct (_ <=? _).
    + apply incl_cons; [now left | apply incl_tl, IH].
    + apply incl_tl, IH.
Qed.

(** Without a size of 0 every comparison of the fee-rate sort has a value. *)
Lemma comparisons_defined_positive (l : list TransactionCandidate) :
  Forall (fun c => size_bytes c <> 0) l -> comparisons_defined l = true.
Proof.
  intros Hall. unfold comparisons_defined.
  assert (Hpairs :
    forallb (fun a =>
               forallb (fun b =>
                          match higher_fee_rate a b with
                          | Some _ => true
                          | None => false
                          end) l) l = true).
  { rewrite Forall_forall in Hall.
    apply forallb_forall. intros a Ha. apply forallb_forall. intros b Hb.
    unfold higher_fee_rate, fee_rate.
    destruct (Z.eqb_spec (size_bytes a) 0) as [E|_]; [now apply Hall in Ha|].
    destruct (Z.eqb_spec (size_bytes b) 0) as [E|_]; [now apply Hall in Hb|].
    reflexivity. }
  destruct l as [|x [|y l']]; [reflexivity | reflexivity | exact Hpairs].
Qed.

(** With candidate sizes that cannot wrap the [std::size_t] sum, what the
    fee zone holds is at most the space that was available. *)
Lemma fill_fee_zone_exact (l : list TransactionCandidate) (available : Z) :
  forall used, 0 <= used <= available ->
  Forall (fun c => 0 <= size_bytes c < 2 ^ 64 - available) l ->
  used + fold_right Z.add 0 (map size_bytes (fill_fee_zone l available used))
  <= available.
Proof.
  induction l as [|c l IH]; intros used Hused Hall; cbn [fill_fee_zone].
  - cbn [map fold_right]. lia.
  - inversion Hall as [|? ? Hc Hl]; subst.
    unfold Machine.size_add.
    rewrite wrap_small by (unfold Machine.size_bits; lia).
    destruct (Z.leb_spec (used + size_bytes c) available) as [Hfit|Hfull].
    + cbn [map fold_right].
      specialize (IH (used + size_bytes c) ltac:(lia) Hl). lia.
    + now apply IH.
Qed.

Lemma bytes_nonneg (l : list TransactionCandidate) :
  Forall (fun c => 0 <= size_bytes c) l ->
  0 <= fold_right Z.add 0 (map size_bytes l).
Proof.
  induction 1 as [|c l Hc _ IH]; cbn [map fold_right]; lia.
Qed.

End TemplateFacts.

(** The builder has no defined result on two fee-paying candidates of size
    0: the sort divides by their size. *)
Example BuildBlockTemplate_divides_by_size :
  let free := fees.mkPriority Double.zero false 0 "priority" in
  fees.BuildBlockTemplate (sorting.sort_by sorting.higher_priority)
    (sorting.sort_by sorting.higher_fee_rate)
    [fees.mkCandidate 1 free 5000 0 0; fees.mkCandidate 2 free 7000 1 0]
  = None.
Proof. vm_compute. reflexivity. Qed.

(** X21.  On a mempool whose candidates have a size of at least one byte and
    below [2^64 - MAX_BLOCK_SIZE], and with sorts that return candidates they
    were given, [BuildBlockTemplate] returns a template that fits the block:
    the sizes of its free transactions add up to at most [FREE_ZONE_SIZE],
    the total it reports is the sum of the sizes of all its transactions and
    is at most [MAX_BLOCK_SIZE], both utilisation figures are between 0 and
    100, and no transaction of the fee zone has the hash of a transaction of
    the free zone. *)
Theorem BuildBlockTemplate_fits_the_block
    (sort_by_priority sort_by_fee_rate :
       list fees.TransactionCandidate -> list fees.TransactionCandidate)
    (mempool : list fees.TransactionCandidate) :
  (forall l, incl (sort_by_priority l) l) ->
  (forall l, incl (sort_by_fee_rate l) l) ->
  Forall (fun c => 0 < fees.size_bytes c < 2 ^ 64 - fees.MAX_BLOCK_SIZE)
         mempool ->
  exists t : fees.BlockTemplate,
    fees.BuildBlockTemplate sort_by_priority sort_by_fee_rate mempool
    = Some (fees.value t)
    /\ fold_right Z.add 0 (map fees.size_bytes (fees.free_transactions t))
       <= fees.FREE_ZONE_SIZE
    /\ fees.total_size_bytes t
       = fold_right Z.add 0 (map fees.size_bytes (fees.free_transactions t))
         + fold_right Z.add 0 (map fees.size_bytes (fees.fee_transactions t))
    /\ fees.total_size_bytes t <= fees.MAX_BLOCK_SIZE
    /\ 0 <= fees.free_zone_utilization_percent t <= 100
    /\ 0 <= fees.total_utilization_percent t <= 100
    /\ (forall c f,
          In c (fees.fee_transactions t) -> In f (fees.free_transactions t) ->
          fees.tx_hash c <> fees.tx_hash f).
Proof.
  intros Hsortp Hsortf Hall.
  assert (HF : fees.FREE_ZONE_SIZE = 1600000) by reflexivity.
  assert (HM : fees.MAX_BLOCK_SIZE = 32000000) by reflexivity.
  rewrite Forall_forall in Hall.
  unfold fees.BuildBlockTemplate. cbv zeta.
  set (free := fees.SelectFreeTransactions sort_by_priority mempool).
  set (used := fees.accumulate_size free 0).
  assert (Hfree_in : forall c, In c free -> In c mempool).
  { intros c Hc. unfold free, fees.SelectFreeTransactions in Hc.
    apply fill_free_zone_incl, Hsortp, filter_In in Hc. tauto. }
  assert (Hused : 0 <= used <= fees.FREE_ZONE_SIZE).
  { apply (fill_free_zone_bound _ 0). lia. }
  assert (Hfree_sum :
    0 <= fold_right Z.add 0 (map fees.size_bytes free) <= fees.FREE_ZONE_SIZE).
  { split.
    - apply bytes_nonneg, Forall_forall. intros c Hc.
      apply Hfree_in, Hall in Hc. lia.
    - pose proof (fill_free_zone_exact
                    (sort_by_priority
                       (filter (fun c => fees.qualifies_for_free
                                           (fees.priority_info c)) mempool))
                    0 ltac:(lia)) as Hexact.
      cbn [Z.add] in Hexact. apply Hexact.
      apply Forall_forall. intros c Hc.
      apply Hsortp, filter_In in Hc. destruct Hc as [Hc _].
      apply Hall in Hc. lia. }
  assert (Eused : used = fold_right Z.add 0 (map fees.size_bytes free)).
  { unfold used. rewrite accumulate_size_sum
      by (change (2 ^ 64) with 18446744073709551616; lia).
    cbn [Z.add]. apply wrap_small.
    change (2 ^ 64) with 18446744073709551616. lia. }
  assert (Hspace : Machine.size_sub fees.MAX_BLOCK_SIZE used
                   = fees.MAX_BLOCK_SIZE - used).
  { unfold Machine.size_sub. apply wrap_small.
    unfold Machine.size_bits. change (2 ^ 64) with 18446744073709551616. lia. }
  rewrite Hspace.
  set (remaining :=
         filter (fun candidate =>
                   negb (existsb (fun free_tx =>
                                    fees.tx_hash free_tx
                                    =? fees.tx_hash candidate) free))
                mempool).
  unfold fees.SelectFeeTransactions. cbv zeta.
  set (fee_paying := filter (fun c => fees.fee_paid c >? 0) remaining).
  assert (Hpaying_in : forall c, In c fee_paying ->
                                 In c remaining /\ In c mempool).
  { intros c Hc. apply filter_In in Hc. destruct Hc as [Hc _].
    split; [exact Hc|]. apply filter_In in Hc. tauto. }
  rewrite comparisons_defined_positive
    by (apply Forall_forall; intros c Hc; apply Hpaying_in in Hc;
        destruct Hc as [_ Hc]; apply Hall in Hc; lia).
  set (fee := fees.fill_fee_zone (sort_by_fee_rate fee_paying)
                (fees.MAX_BLOCK_SIZE - used) 0).
  assert (Hfee_in : forall c, In c fee -> In c remaining /\ In c mempool).
  { intros c Hc. apply fill_fee_zone_incl, Hsortf in Hc.
    now apply Hpaying_in. }
  assert (Hfee_sum :
    0 <= fold_right Z.add 0 (map fees.size_bytes fee)
      <= fees.MAX_BLOCK_SIZE - used).
  { split.
    - apply bytes_nonneg, Forall_forall. intros c Hc.
      apply Hfee_in in Hc. destruct Hc as [_ Hc]. apply Hall in Hc. lia.
    - pose proof (fill_fee_zone_exact (sort_by_fee_rate fee_paying)
                    (fees.MAX_BLOCK_SIZE - used) 0 ltac:(lia)) as Hexact.
      cbn [Z.add] in Hexact. apply Hexact.
      apply Forall_forall. intros c Hc.
      apply Hsortf, Hpaying_in in Hc. destruct Hc as [_ Hc].
      apply Hall in Hc. lia. }
  assert (Etotal : fees.accumulate_size fee used
                   = used + fold_right Z.add 0 (map fees.size_bytes fee)).
  { rewrite accumulate_size_sum
      by (change (2 ^ 64) with 18446744073709551616; lia).
    apply wrap_small. change (2 ^ 64) with 18446744073709551616. lia. }
  eexists. split; [reflexivity|].
  cbn [fees.total_size_bytes fees.free_zone_utilization_percent
       fees.total_utilization_percent fees.fee_transactions
       fees.free_transactions].
  rewrite Etotal.
  assert (Hmul : forall x, 0 <= x <= 32000000 ->
                 Machine.size_mul x 100 = x * 100).
  { intros x Hx. unfold Machine.size_mul. apply wrap_small.
    unfold Machine.size_bits. change (2 ^ 64) with 18446744073709551616. lia. }
  assert (Hpct : forall x d, 0 < d -> 0 <= x <= d -> d <= 32000000 ->
                 0 <= Machine.swrap 32 (Machine.size_mul x 100 / d) <= 100).
  { intros x d Hd Hx Hdm. rewrite Hmul by lia.
    assert (0 <= x * 100 / d <= 100).
    { split; [apply Z.div_pos; lia|].
      apply Z.div_le_upper_bound; lia. }
    rewrite swrap_small; [lia | lia |].
    change (2 ^ (32 - 1)) with 2147483648. lia. }
  split; [lia|]. split; [lia|]. split; [lia|].
  split; [apply Hpct; lia|]. split; [apply Hpct; lia|].
  intros c f Hc Hf Heq.
  apply Hfee_in in Hc. destruct Hc as [Hc _].
  apply filter_In in Hc. destruct Hc as [_ Hc].
  apply negb_true_iff in Hc.
  assert (Hex : existsb (fun free_tx => fees.tx_hash free_tx =? fees.tx_hash c)
                        free = true).
  { apply existsb_exists. exists f. split; [exact Hf|].
    apply Z.eqb_eq. now symmetry. }
  congruence.
Qed.

Lemma BuildBlockTemplate_fits_the_block_witness :
  exists t : fees.BlockTemplate,
    fees.BuildBlockTemplate (sorting.sort_by sorting.higher_priority)
      (sorting.sort_by sorting.higher_fee_rate)
      [fees.mkCandidate 1 (fees.mkPriority (Double.of_Z 57600000) true 0 "free")
                        0 0 1000000;
       fees.mkCandidate 2 (fees.mkPriority (Double.of_Z 90000000) true 0 "free")
                        0 1 900000;
       fees.mkCandidate 3 (fees.mkPriority Double.zero false 250000 "standard")
                        250000 2 250]
    = Some (fees.value t)
    /\ fold_right Z.add 0 (map fees.size_bytes (fees.free_transactions t))
       <= fees.FREE_ZONE_SIZE
    /\ fees.total_size_bytes t <= fees.MAX_BLOCK_SIZE.
Proof.
  destruct (BuildBlockTemplate_fits_the_block
              (sorting.sort_by sorting.higher_priority)
              (sorting.sort_by sorting.higher_fee_rate)
              [fees.mkCandidate 1
                 (fees.mkPriority (Double.of_Z 57600000) true 0 "free")
                 0 0 1000000;
               fees.mkCandidate 2
                 (fees.mkPriority (Double.of_Z 90000000) true 0 "free")
                 0 1 900000;
               fees.mkCandidate 3
                 (fees.mkPriority Double.zero false 250000 "standard")
                 250000 2 250])
    as (t & Ht & Hfree & _ & Htotal & _).
  - intros l. apply sort_by_incl.
  - intros l. apply sort_by_incl.
  - repeat constructor; cbn; try discriminate; reflexivity.
  - exists t. split; [exact Ht|]. split; [exact Hfree | exact Htotal].
Defined.

(** ** The fee market statistics *)

Section MarketFacts.
Import feemarket.

Lemma pop_while_over_144_skipn (fuel : nat) :
  forall q, (length q - 144 <= fuel)%nat ->
  pop_while_over_144 fuel q = skipn (length q - 144) q.
Proof.
  induction fuel as [|fuel IH]; intros q Hfuel; cbn [pop_while_over_144].
  - replace (length q - 144)%nat with 0%nat by lia. reflexivity.
  - destruct (Nat.ltb_spec 144 (length q)) as [Hover|Hfine].
    + destruct q as [|x q]; [cbn in Hover; lia|].
      cbn [tl length] in *. rewrite IH by lia.
      replace (S (length q) - 144)%nat with (S (length q - 144)) by lia.
      reflexivity.
    + replace (length q - 144)%nat with 0%nat by lia. reflexivity.
Qed.

Lemma CalculateDynamicFeeRate_values (congestion_level : Z) :
  In (CalculateDynamicFeeRate congestion_level) [1000; 2000; 5000; 10000].
Proof.
  unfold CalculateDynamicFeeRate. cbv zeta.
  destruct (congestion_level <? 50); [now left|].
  destruct (congestion_level <? 80); [right; now left|].
  destruct (congestion_level <? 95);
    [right; right; now left | right; right; right; now left].
Qed.

(** Keeping the last 144 after each arrival keeps the last 144 of all. *)
Lemma skipn_last_144 {A : Type} (q bs : list A) :
  skipn (length (skipn (length q - 144) q ++ bs) - 144)
        (skipn (length q - 144) q ++ bs)
  = skipn (length (q ++ bs) - 144) (q ++ bs).
Proof.
  destruct (Nat.le_gt_cases (length q) 144) as [Hle|Hgt].
  - replace (length q - 144)%nat with 0%nat by lia. reflexivity.
  - set (k := (length q - 144)%nat).
    assert (Hr : length (skipn k q) = 144%nat)
      by (rewrite length_skipn; unfold k; lia).
    rewrite !length_app, Hr.
    transitivity (skipn (length bs + k) ((firstn k q ++ skipn k q) ++ bs)).
    + rewrite <- skipn_skipn, <- app_assoc, (skipn_app k (firstn k q)).
      rewrite length_firstn, Nat.min_l by (unfold k; lia).
      rewrite (@skipn_all2 _ k (firstn k q)) by (rewrite length_firstn; lia).
      rewrite Nat.sub_diag. cbn [skipn app]. f_equal. lia.
    + rewrite firstn_skipn. f_equal. unfold k. lia.
Qed.

Lemma UpdateMarketStats_queue (m : BlockSpaceManager)
    (completed_block : fees.BlockTemplate) :
  recent_blocks_ (UpdateMarketStats m completed_block)
  = skipn (length (recent_blocks_ m ++ [completed_block]) - 144)
          (recent_blocks_ m ++ [completed_block]).
Proof.
  unfold UpdateMarketStats. cbv zeta. cbn [recent_blocks_].
  apply pop_while_over_144_skipn. lia.
Qed.

Lemma UpdateMarketStats_percentiles (m : BlockSpaceManager)
    (completed_block : fees.BlockTemplate) :
  length (fee_percentiles (current_stats_ m)) = 4%nat ->
  length (fee_percentiles
            (current_stats_ (UpdateMarketStats m completed_block))) = 4%nat.
Proof.
  intros H4. unfold UpdateMarketStats. cbv zeta.
  cbn [current_stats_ fee_percentiles].
  destruct (map rate_per_kb _); [exact H4|].
  destruct (4 <=? _)%nat; [reflexivity | exact H4].
Qed.

End MarketFacts.

(** X22.  Whatever blocks are completed, in whatever number, a manager that
    started from the constructor keeps the most recent 144 templates only,
    in the order they came, holds exactly four fee percentiles, and takes
    its minimum fee rate from the four steps 1000, 2000, 5000 and 10000. *)
Theorem UpdateMarketStats_keeps_144_blocks
    (blocks : list fees.BlockTemplate) :
  let m := feemarket.update_all blocks feemarket.BlockSpaceManager_new in
  feemarket.recent_blocks_ m = skipn (length blocks - 144) blocks
  /\ (length (feemarket.recent_blocks_ m) <= 144)%nat
  /\ length (feemarket.fee_percentiles (feemarket.current_stats_ m)) = 4%nat
  /\ In (feemarket.current_min_fee_rate (feemarket.current_stats_ m))
        [1000; 2000; 5000; 10000].
Proof.
  cbv zeta.
  assert (Hgen : forall bs m0,
    length (feemarket.fee_percentiles (feemarket.current_stats_ m0)) = 4%nat ->
    In (feemarket.current_min_fee_rate (feemarket.current_stats_ m0))
       [1000; 2000; 5000; 10000] ->
    (length (feemarket.recent_blocks_ m0) <= 144)%nat ->
    let m := feemarket.update_all bs m0 in
    feemarket.recent_blocks_ m
    = skipn (length (feemarket.recent_blocks_ m0 ++ bs) - 144)
            (feemarket.recent_blocks_ m0 ++ bs)
    /\ length (feemarket.fee_percentiles (feemarket.current_stats_ m)) = 4%nat
    /\ In (feemarket.current_min_fee_rate (feemarket.current_stats_ m))
          [1000; 2000; 5000; 10000]).
  { induction bs as [|b bs IH]; intros m0 H4 Hrate Hq; cbv zeta.
    - cbn [feemarket.update_all fold_left]. rewrite app_nil_r.
      replace (length (feemarket.recent_blocks_ m0) - 144)%nat with 0%nat
        by lia.
      repeat split; assumption.
    - unfold feemarket.update_all. cbn [fold_left].
      fold (feemarket.update_all bs (feemarket.UpdateMarketStats m0 b)).
      pose proof (UpdateMarketStats_queue m0 b) as Hqueue.
      assert (Hq' : (length (feemarket.recent_blocks_
                               (feemarket.UpdateMarketStats m0 b)) <= 144)%nat).
      { rewrite Hqueue, length_skipn, length_app. cbn [length]. lia. }
      specialize (IH (feemarket.UpdateMarketStats m0 b)
                     (UpdateMarketStats_percentiles m0 b H4)
                     (CalculateDynamicFeeRate_values _) Hq').
      cbv zeta in IH.
      destruct IH as (Hrec & H4' & Hrate').
      split; [|now split].
      rewrite Hrec, Hqueue.
      replace (feemarket.recent_blocks_ m0 ++ b :: bs)
        with ((feemarket.recent_blocks_ m0 ++ [b]) ++ bs)
        by (rewrite <- app_assoc; reflexivity).
      apply skipn_last_144. }
  destruct (Hgen blocks feemarket.BlockSpaceManager_new) as (Hrec & H4 & Hrate);
    [reflexivity | now left | cbn; lia |].
  cbn [feemarket.recent_blocks_ feemarket.BlockSpaceManager_new app] in Hrec.
  split; [exact Hrec|]. split; [|now split].
  rewrite Hrec, length_skipn. lia.
Qed.

(** ** Filling a block with [HybridFeeSystem] *)

Section BlockBuilderFacts.
Import hybridfee blockbuilder.

Variable GetSerializeSize : main.CTransaction -> Z.

(** With a transaction size that cannot wrap the [unsigned int] sum,
    [AddToBlock] accepts exactly what fits and counts it as it is. *)
Lemma AddToBlock_exact (s : HybridFeeSystem) (tx : main.CTransaction) :
  0 <= nCurrentBlockSize s <= DEFAULT_BLOCK_MAX_SIZE ->
  0 <= GetSerializeSize tx < 2 ^ 32 - DEFAULT_BLOCK_MAX_SIZE ->
  (fst (AddToBlock GetSerializeSize s tx)
   = (nCurrentBlockSize s + GetSerializeSize tx <=? DEFAULT_BLOCK_MAX_SIZE))
  /\ nCurrentBlockSize (snd (AddToBlock GetSerializeSize s tx))
     = (if fst (AddToBlock GetSerializeSize s tx)
        then nCurrentBlockSize s + GetSerializeSize tx
        else nCurrentBlockSize s).
Proof.
  intros Hs Htx. unfold AddToBlock. cbv zeta.
  assert (HM : DEFAULT_BLOCK_MAX_SIZE = 32000000) by reflexivity.
  rewrite wrap_small by (change (2 ^ 32) with 4294967296 in *; lia).
  destruct (Z.gtb_spec (nCurrentBlockSize s + GetSerializeSize tx)
              DEFAULT_BLOCK_MAX_SIZE) as [Hfull|Hfit];
    cbn [fst snd nCurrentBlockSize];
    destruct (Z.leb_spec (nCurrentBlockSize s + GetSerializeSize tx)
                DEFAULT_BLOCK_MAX_SIZE); try lia; split; reflexivity.
Qed.

Lemma add_all_exact (txs : list main.CTransaction) :
  forall s,
    0 <= nCurrentBlockSize s <= DEFAULT_BLOCK_MAX_SIZE ->
    Forall (fun tx => 0 <= GetSerializeSize tx
                      < 2 ^ 32 - DEFAULT_BLOCK_MAX_SIZE) txs ->
    nCurrentBlockSize
      (fst (add_all GetSerializeSize txs s (nCurrentBlockSize s)))
    = snd (add_all GetSerializeSize txs s (nCurrentBlockSize s))
    /\ nCurrentBlockSize s
       <= snd (add_all GetSerializeSize txs s (nCurrentBlockSize s))
       <= DEFAULT_BLOCK_MAX_SIZE.
Proof.
  induction txs as [|tx txs IH]; intros s Hs Hall; cbn [add_all].
  - cbn [fst snd]. lia.
  - inversion Hall as [|? ? Htx Hrest]; subst.
    destruct (AddToBlock_exact s tx Hs Htx) as [Hok Hsize].
    destruct (AddToBlock GetSerializeSize s tx) as [ok s'] eqn:Hadd.
    cbn [fst snd] in Hok, Hsize. destruct ok.
    + symmetry in Hok. apply Z.leb_le in Hok.
      rewrite <- Hsize.
      destruct (IH s' ltac:(lia) Hrest) as [E B]. split; [exact E | lia].
    + rewrite <- Hsize.
      destruct (IH s' ltac:(lia) Hrest) as [E B]. split; [exact E | lia].
Qed.

End BlockBuilderFacts.

(** X23.  [AddToBlock] keeps the block within its limit when no transaction
    is large enough to wrap its [unsigned int] sum: from a block of at most
    32,000,000 bytes and with transactions below [2^32 - 32,000,000] bytes,
    after any run of calls the counter is the size the block had plus the
    sizes of the transactions that were accepted, added as integers, and
    this is at most 32,000,000; a refused call changes nothing. *)
Theorem AddToBlock_keeps_the_block_size_limit
    (GetSerializeSize : main.CTransaction -> Z)
    (txs : list main.CTransaction) (s : hybridfee.HybridFeeSystem) :
  0 <= hybridfee.nCurrentBlockSize s <= hybridfee.DEFAULT_BLOCK_MAX_SIZE ->
  Forall (fun tx => 0 <= GetSerializeSize tx
                    < 2 ^ 32 - hybridfee.DEFAULT_BLOCK_MAX_SIZE) txs ->
  hybridfee.nCurrentBlockSize
    (fst (blockbuilder.add_all GetSerializeSize txs s
            (hybridfee.nCurrentBlockSize s)))
  = snd (blockbuilder.add_all GetSerializeSize txs s
           (hybridfee.nCurrentBlockSize s))
  /\ snd (blockbuilder.add_all GetSerializeSize txs s
            (hybridfee.nCurrentBlockSize s))
     <= hybridfee.DEFAULT_BLOCK_MAX_SIZE
  /\ forall tx,
       fst (hybridfee.AddToBlock GetSerializeSize s tx) = false ->
       snd (hybridfee.AddToBlock GetSerializeSize s tx) = s.
Proof.
  intros Hs Hall.
  destruct (add_all_exact GetSerializeSize txs s Hs Hall) as [E B].
  split; [exact E|]. split; [lia|].
  intros tx. unfold hybridfee.AddToBlock. cbv zeta.
  destruct (_ >? _); cbn [fst snd]; [reflexivity | discriminate].
Qed.

Lemma AddToBlock_keeps_the_block_size_limit_witness :
  snd (blockbuilder.add_all (fun _ => 20000000)
         [main.mkTransaction 1 [] [] 0; main.mkTransaction 1 [] [] 1]
         (hybridfee.mkFeeSystem 0 0 0) 0)
  <= hybridfee.DEFAULT_BLOCK_MAX_SIZE.
Proof.
  apply (AddToBlock_keeps_the_block_size_limit (fun _ => 20000000)
           [main.mkTransaction 1 [] [] 0; main.mkTransaction 1 [] [] 1]
           (hybridfee.mkFeeSystem 0 0 0)).
  - cbn [hybridfee.nCurrentBlockSize]. unfold hybridfee.DEFAULT_BLOCK_MAX_SIZE.
    lia.
  - repeat constructor; unfold hybridfee.DEFAULT_BLOCK_MAX_SIZE; cbn; lia.
Defined.

(** The counter wraps where the size does not leave room: on a full block a
    transaction of [2^32 - 1] bytes is accepted and the counter then reads
    31,999,999. *)
Example AddToBlock_wraps :
  hybridfee.AddToBlock (fun _ => 2 ^ 32 - 1)
    (hybridfee.mkFeeSystem 32000000 0 0) (main.mkTransaction 1 [] [] 0)
  = (true, hybridfee.mkFeeSystem 31999999 1 0).
Proof. vm_compute. reflexivity. Qed.

(** X24.  [AddFeeTransactions] never adds a transaction: the fee it reads
    for every transaction is the fixed 0, so no transaction of the mempool is
    a candidate, and the block and the counters stay as they were. *)
Theorem AddFeeTransactions_adds_nothing
    (GetSerializeSize : main.CTransaction -> Z)
    (mempool : list main.CTransaction)
    (sort_by_fee : list (Z * main.CTransaction) -> list (Z * main.CTransaction))
    (s : hybridfee.HybridFeeSystem) (vtx : list main.CTransaction) :
  sort_by_fee [] = [] ->
  blockbuilder.AddFeeTransactions GetSerializeSize mempool sort_by_fee s vtx
  = (s, vtx).
Proof.
  intros Hsort. unfold blockbuilder.AddFeeTransactions. cbv zeta.
  assert (Hnone : flat_map
            (fun tx => if hybridfee.GetTransactionFee tx >? 0
                       then [(hybridfee.GetTransactionFee tx, tx)] else [])
            mempool = []).
  { induction mempool as [|tx l IH]; [reflexivity|].
    cbn [flat_map]. rewrite IH. unfold hybridfee.GetTransactionFee.
    destruct (main.IsCoinBase tx); reflexivity. }
  rewrite Hnone, Hsort. reflexivity.
Qed.

Lemma AddFeeTransactions_adds_nothing_witness :
  blockbuilder.AddFeeTransactions (fun _ => 250)
    [main.mkTransaction 1 [] [] 0; main.mkTransaction 1 [] [] 7]
    (sorting.sort_by (fun a b => fst a >? fst b))
    (hybridfee.mkFeeSystem 0 0 0) []
  = (hybridfee.mkFeeSystem 0 0 0, []).
Proof.
  apply (AddFeeTransactions_adds_nothing (fun _ => 250)
           [main.mkTransaction 1 [] [] 0; main.mkTransaction 1 [] [] 7]
           (sorting.sort_by (fun a b => fst a >? fst b))
           (hybridfee.mkFeeSystem 0 0 0) []).
  reflexivity.
Defined.

(** ** The two reward schedules along the chain *)

(** X25.  Neither reward schedule ever pays more at a later height.  The
    reward of participation.cpp stays between 1 GLC and 50 GLC and is
    exactly 1 GLC from height 5,040,000 on; the stepped reward of goldcoin.h
    stays between 2 GLC and 50 GLC. *)
Theorem GetBlockValue_never_grows (h1 h2 : Z) :
  0 <= h1 <= h2 -> h2 < 64 * 840000 ->
  (exists v1 v2,
     miner.GetBlockValue h1 0 = Some v1
     /\ miner.GetBlockValue h2 0 = Some v2
     /\ main.COIN <= v2 <= v1 /\ v1 <= 50 * main.COIN
     /\ (5040000 <= h2 -> v2 = main.COIN))
  /\ 2 * goldcoin.COIN <= goldcoin.GetBlockValue h2 0
     <= goldcoin.GetBlockValue h1 0
  /\ goldcoin.GetBlockValue h1 0 <= 50 * goldcoin.COIN.
Proof.
  intros Hh Hmax.
  assert (Hf : - 2 ^ 63 <= 0 < 2 ^ 63 - 50 * main.COIN)
    by (unfold main.COIN; change (2 ^ 63) with 9223372036854775808; lia).
  split.
  - rewrite !miner_GetBlockValue_formula by (try exact Hf; lia).
    eexists _, _. split; [reflexivity|]. split; [reflexivity|].
    rewrite !Z.add_0_r.
    assert (Hk1 : 0 <= h1 / 840000 < 64)
      by (apply halvings_of_height; lia).
    assert (Hk2 : 0 <= h2 / 840000 < 64)
      by (apply halvings_of_height; lia).
    assert (Hk : h1 / 840000 <= h2 / 840000)
      by (apply Z.div_le_mono; lia).
    assert (Hshift : Z.shiftr (50 * main.COIN) (h2 / 840000)
                     <= Z.shiftr (50 * main.COIN) (h1 / 840000)).
    { rewrite !Z.shiftr_div_pow2 by lia.
      apply Z.div_le_compat_l; [unfold main.COIN; lia|].
      split; [apply Z.pow_pos_nonneg; lia | apply Z.pow_le_mono_r; lia]. }
    assert (Htop : Z.shiftr (50 * main.COIN) (h1 / 840000) <= 50 * main.COIN).
    { rewrite Z.shiftr_div_pow2 by lia.
      apply Z.div_le_upper_bound; [apply Z.pow_pos_nonneg; lia|].
      assert (0 < 2 ^ (h1 / 840000)) by (apply Z.pow_pos_nonneg; lia).
      unfold main.COIN. nia. }
    assert (HC : main.COIN = 100000000) by reflexivity.
    split; [lia|]. split; [lia|].
    intros Hlate.
    assert (6 <= h2 / 840000) by (apply Z.div_le_lower_bound; lia).
    rewrite shifted_subsidy_cases by lia.
    destruct (Z.eqb_spec (h2 / 840000) 0); [lia|].
    destruct (Z.eqb_spec (h2 / 840000) 1); [lia|].
    destruct (Z.eqb_spec (h2 / 840000) 2); [lia|].
    destruct (Z.eqb_spec (h2 / 840000) 3); [lia|].
    destruct (Z.eqb_spec (h2 / 840000) 4); [lia|].
    destruct (Z.eqb_spec (h2 / 840000) 5); [lia|].
    reflexivity.
  - rewrite !goldcoin_GetBlockValue_formula
      by (unfold goldcoin.COIN; change (2 ^ 63) with 9223372036854775808; lia).
    unfold goldcoin.COIN.
    destruct (Z.ltb_spec h1 840000); destruct (Z.ltb_spec h2 840000);
      destruct (Z.ltb_spec h1 1680000); destruct (Z.ltb_spec h2 1680000);
      destruct (Z.ltb_spec h1 2520000); destruct (Z.ltb_spec h2 2520000);
      destruct (Z.ltb_spec h1 3360000); destruct (Z.ltb_spec h2 3360000);
      lia.
Qed.

Lemma GetBlockValue_never_grows_witness :
  (exists v1 v2,
     miner.GetBlockValue 1000000 0 = Some v1
     /\ miner.GetBlockValue 6000000 0 = Some v2
     /\ main.COIN <= v2 <= v1 /\ v1 <= 50 * main.COIN
     /\ (5040000 <= 6000000 -> v2 = main.COIN))
  /\ 2 * goldcoin.COIN <= goldcoin.GetBlockValue 6000000 0
     <= goldcoin.GetBlockValue 1000000 0
  /\ goldcoin.GetBlockValue 1000000 0 <= 50 * goldcoin.COIN.
Proof.
  apply (GetBlockValue_never_grows 1000000 6000000); lia.
Defined.

(** ** The lottery target of vrf.h *)

(** X26.  [calculateTarget] does not read the block time.  With no
    participant the target is 0 and no output wins; with [n] participants an
    output [value] wins exactly when [(value + 1) * n <= 2^256 - 1], which
    makes [floor ((2^256 - 1) / n)] winning outputs. *)
Theorem calculateTarget_shares_the_range
    (totalParticipants blockTime value : Z) :
  0 <= value ->
  vrf.calculateTarget totalParticipants blockTime
  = vrf.calculateTarget totalParticipants 120
  /\ (totalParticipants <= 0 ->
      vrf.winsLottery value
        (vrf.calculateTarget totalParticipants blockTime) = false)
  /\ (0 < totalParticipants ->
      vrf.calculateTarget totalParticipants blockTime
      = (2 ^ 256 - 1) / totalParticipants
      /\ (vrf.winsLottery value
            (vrf.calculateTarget totalParticipants blockTime) = true
          <-> (value + 1) * totalParticipants <= 2 ^ 256 - 1)).
Proof.
  intros Hv. unfold vrf.calculateTarget, vrf.winsLottery. cbv zeta.
  split; [reflexivity|]. split.
  - intros Hn. destruct (Z.leb_spec totalParticipants 0); [|lia].
    destruct (Z.ltb_spec value 0); [lia | reflexivity].
  - intros Hn. destruct (Z.leb_spec totalParticipants 0); [lia|].
    split; [reflexivity|].
    set (M := 2 ^ 256 - 1).
    rewrite Z.ltb_lt. split.
    + intros Hlt.
      assert (value + 1 <= M / totalParticipants) by lia.
      pose proof (Z.mul_div_le M totalParticipants Hn). nia.
    + intros Hle.
      assert (value + 1 <= M / totalParticipants); [|lia].
      apply Z.div_le_lower_bound; lia.
Qed.

Lemma calculateTarget_shares_the_range_witness :
  vrf.calculateTarget 1000 60 = vrf.calculateTarget 1000 120
  /\ (1000 <= 0 ->
      vrf.winsLottery 5 (vrf.calculateTarget 1000 60) = false)
  /\ (0 < 1000 ->
      vrf.calculateTarget 1000 60 = (2 ^ 256 - 1) / 1000
      /\ (vrf.winsLottery 5 (vrf.calculateTarget 1000 60) = true
          <-> (5 + 1) * 1000 <= 2 ^ 256 - 1)).
Proof.
  apply (calculateTarget_shares_the_range 1000 60 5). lia.
Defined.

(** ** Scripts: pushing data and reading it back *)

Section ScriptFacts.
Import serialize script.

Lemma byte_at_app (s l : list byte_t) (i : nat) :
  byte_at (s ++ l) (length s + i) = Z_of_byte (nth i l x00).
Proof. unfold byte_at. now rewrite app_nth2_plus. Qed.

Lemma byte_at_0 (s : list byte_t) (a : byte_t) (r : list byte_t) :
  byte_at (s ++ a :: r) (length s) = Z_of_byte a.
Proof.
  unfold byte_at. now rewrite nth_middle.
Qed.

Lemma byte_at_1 (s : list byte_t) (a b : byte_t) (r : list byte_t) :
  byte_at (s ++ a :: b :: r) (S (length s)) = Z_of_byte b.
Proof.
  replace (S (length s)) with (length s + 1)%nat by lia.
  now rewrite byte_at_app.
Qed.

Lemma byte_at_2 (s : list byte_t) (a b c : byte_t) (r : list byte_t) :
  byte_at (s ++ a :: b :: c :: r) (S (S (length s))) = Z_of_byte c.
Proof.
  replace (S (S (length s))) with (length s + 2)%nat by lia.
  now rewrite byte_at_app.
Qed.

Lemma byte_at_3 (s : list byte_t) (a b c d : byte_t) (r : list byte_t) :
  byte_at (s ++ a :: b :: c :: d :: r) (S (S (S (length s)))) = Z_of_byte d.
Proof.
  replace (S (S (S (length s)))) with (length s + 3)%nat by lia.
  now rewrite byte_at_app.
Qed.

Lemma byte_at_4 (s : list byte_t) (a b c d e : byte_t) (r : list byte_t) :
  byte_at (s ++ a :: b :: c :: d :: e :: r) (S (S (S (S (length s)))))
  = Z_of_byte e.
Proof.
  replace (S (S (S (S (length s))))) with (length s + 4)%nat by lia.
  now rewrite byte_at_app.
Qed.

Lemma skipn_past (s h l : list byte_t) (k : nat) :
  k = (length s + length h)%nat -> skipn k (s ++ h ++ l) = l.
Proof.
  intros ->. rewrite app_assoc, skipn_app, length_app, Nat.sub_diag.
  rewrite skipn_all2 by (rewrite length_app; lia). reflexivity.
Qed.

Lemma lor_shiftl_add (a b k : Z) :
  0 <= k -> 0 <= a < 2 ^ k -> Z.lor a (Z.shiftl b k) = a + b * 2 ^ k.
Proof.
  intros Hk Ha. rewrite Z.shiftl_mul_pow2 by lia.
  assert (Hdisjoint : Z.land a (b * 2 ^ k) = 0).
  { apply Z.bits_inj'. intros n Hn. rewrite Z.land_spec, Z.bits_0.
    destruct (Z.lt_ge_cases n k) as [Hlow|Hhigh].
    - rewrite Z.mul_pow2_bits_low by lia. apply andb_false_r.
    - rewrite <- (Z.mod_small a (2 ^ k)) by lia.
      rewrite Z.mod_pow2_bits_high by lia. reflexivity. }
  now rewrite Z.add_nocarry_lxor, Z.lxor_lor.
Qed.

(** The byte the push operator stores for the [i]-th byte of a size. *)
Lemma size_byte (x k : Z) :
  0 <= k ->
  Z_of_byte (byte_of_Z (Z.land (Z.shiftr x k) 0xff)) = (x / 2 ^ k) mod 256.
Proof.
  intros Hk. rewrite Z_of_byte_of_Z.
  change 255 with (Z.ones 8). rewrite Z.land_ones by lia.
  rewrite Z.shiftr_div_pow2 by lia.
  change (2 ^ 8) with 256. now rewrite Z.mod_mod by lia.
Qed.

Lemma size_byte_0 (x : Z) :
  Z_of_byte (byte_of_Z (Z.land x 0xff)) = x mod 256.
Proof.
  rewrite Z_of_byte_of_Z. change 255 with (Z.ones 8).
  rewrite Z.land_ones by lia. change (2 ^ 8) with 256.
  now rewrite Z.mod_mod by lia.
Qed.

Lemma two_bytes_join (x : Z) :
  0 <= x < 2 ^ 16 ->
  Z.lor (x mod 256) (Z.shiftl ((x / 2 ^ 8) mod 256) 8) = x.
Proof.
  intros Hx. change (2 ^ 16) with 65536 in Hx.
  change (2 ^ 8) with 256.
  rewrite lor_shiftl_add
    by (try lia; change (2 ^ 8) with 256; apply Z.mod_pos_bound; lia).
  change (2 ^ 8) with 256.
  pose proof (Z.div_mod x 256 ltac:(lia)) as E.
  assert (0 <= x / 256 < 256)
    by (split; [apply Z.div_pos; lia | apply Z.div_lt_upper_bound; lia]).
  rewrite (Z.mod_small (x / 256)) by lia. lia.
Qed.

Lemma four_bytes_join (x : Z) :
  0 <= x < 2 ^ 32 ->
  Z.lor
    (Z.lor
       (Z.lor (x mod 256) (Z.shiftl ((x / 2 ^ 8) mod 256) 8))
       (Z.shiftl ((x / 2 ^ 16) mod 256) 16))
    (Z.shiftl ((x / 2 ^ 24) mod 256) 24)
  = x.
Proof.
  intros Hx. change (2 ^ 32) with 4294967296 in Hx.
  change (2 ^ 8) with 256. change (2 ^ 16) with 65536.
  change (2 ^ 24) with 16777216.
  pose proof (Z.mod_pos_bound x 256 ltac:(lia)) as B0.
  pose proof (Z.mod_pos_bound (x / 256) 256 ltac:(lia)) as B1.
  pose proof (Z.mod_pos_bound (x / 65536) 256 ltac:(lia)) as B2.
  pose proof (Z.mod_pos_bound (x / 16777216) 256 ltac:(lia)) as B3.
  rewrite (lor_shiftl_add (x mod 256)) by (change (2 ^ 8) with 256; lia).
  rewrite (lor_shiftl_add (x mod 256 + _))
    by (change (2 ^ 8) with 256; change (2 ^ 16) with 65536; lia).
  rewrite lor_shiftl_add
    by (change (2 ^ 8) with 256; change (2 ^ 16) with 65536;
        change (2 ^ 24) with 16777216; lia).
  change (2 ^ 8) with 256. change (2 ^ 16) with 65536.
  change (2 ^ 24) with 16777216.
  pose proof (Z.div_mod x 256 ltac:(lia)) as E0.
  pose proof (Z.div_mod (x / 256) 256 ltac:(lia)) as E1.
  pose proof (Z.div_mod (x / 65536) 256 ltac:(lia)) as E2.
  assert (Hd1 : x / 65536 = x / 256 / 256) by (rewrite Z.div_div by lia; reflexivity).
  assert (Hd2 : x / 16777216 = x / 65536 / 256) by (rewrite Z.div_div by lia; reflexivity).
  assert (0 <= x / 16777216 < 256)
    by (split; [apply Z.div_pos; lia | apply Z.div_lt_upper_bound; lia]).
  rewrite (Z.mod_small (x / 16777216)) by lia.
  lia.
Qed.

End ScriptFacts.

(** The data is within the script: the distance test passes, and what is
    left are the three fields of the result. *)
Ltac in_script :=
  match goal with
  | |- context [Nat.leb ?a ?b] => destruct (Nat.leb_spec a b); [lia|]
  | |- context [Nat.ltb ?a ?b] => destruct (Nat.ltb_spec a b); [lia|]
  end; cbv beta iota.

Ltac data_is_there :=
  match goal with
  | |- context [Z.ltb ?a ?b] =>
      destruct (Z.ltb_spec a b) as [Hshort|_]; [lia|]
  end;
  subst; rewrite Nat2Z.id; f_equal; try lia.

(** X27.  Data pushed on a script is read back by [get_op] as it was
    pushed, with the opcode of the form that was used and the iterator at
    the end of the script, for every length below 2^32 except 76. *)
Theorem get_op_reads_back_pushed_data
    (data : list serialize.byte_t) (data_ : script.Script) :
  length data <> 76%nat -> Z.of_nat (length data) < 2 ^ 32 ->
  script.get_op (script.push_data data data_) (length data_)
  = script.mkOp true (length (script.push_data data data_))
      (let size := Z.of_nat (length data) in
       if size <? 76 then size
       else if size <=? 0xff then script.OP_PUSHDATA1
       else if size <=? 0xffff then script.OP_PUSHDATA2
       else script.OP_PUSHDATA4)
      data.
Proof.
  intros Hnot76 Hlen. unfold script.push_data. cbv zeta.
  remember (Z.of_nat (length data)) as size eqn:Esize.
  assert (Hsize : 0 <= size) by lia.
  unfold script.OP_PUSHDATA1, script.OP_PUSHDATA2, script.OP_PUSHDATA4.
  change (2 ^ 32) with 4294967296 in Hlen.
  destruct (Z.leb_spec size 76) as [H1|H1].
  - (* the size itself is the opcode *)
    assert (Hlt : size < 76) by lia.
    destruct (Z.ltb_spec size 76) as [_|]; [|lia].
    unfold script.get_op. rewrite !length_app. cbn [length].
    in_script.
    cbn [app]. rewrite byte_at_0, Z_of_byte_of_Z, Z.mod_small by lia.
    cbv zeta. unfold script.OP_PUSHDATA4, script.OP_PUSHDATA1.
    destruct (Z.leb_spec size 78) as [_|]; [|lia].
    destruct (Z.ltb_spec size 76) as [_|]; [|lia].
    data_is_there.
    rewrite (skipn_past data_
                 [serialize.byte_of_Z (Z.of_nat (length data))] data)
      by (cbn [length]; lia).
    apply firstn_all.
  - destruct (Z.ltb_spec size 76) as [|_]; [lia|].
    destruct (Z.leb_spec size 255) as [H2|H2].
    + (* OP_PUSHDATA1 and one size byte *)
      unfold script.get_op. rewrite !length_app. cbn [length].
      in_script.
      cbn [app]. rewrite byte_at_0, Z_of_byte_of_Z. cbv zeta.
      change (76 mod 256) with 76.
      unfold script.OP_PUSHDATA4, script.OP_PUSHDATA1.
      cbn [Z.leb Z.ltb Z.eqb Z.compare Pos.compare Pos.compare_cont Pos.eqb].
      in_script.
      rewrite byte_at_1, Z_of_byte_of_Z, Z.mod_small by lia.
      data_is_there.
      rewrite (skipn_past data_
                 [serialize.byte_of_Z 76;
                  serialize.byte_of_Z (Z.of_nat (length data))] data)
        by (cbn [length]; lia).
      apply firstn_all.
    + destruct (Z.leb_spec size 65535) as [H3|H3].
      * (* OP_PUSHDATA2 and two size bytes *)
        rewrite wrap_small by (change (2 ^ 16) with 65536; lia).
        unfold script.get_op. rewrite !length_app. cbn [length].
        in_script.
        cbn [app]. rewrite byte_at_0, Z_of_byte_of_Z. cbv zeta.
        change (77 mod 256) with 77.
        unfold script.OP_PUSHDATA4, script.OP_PUSHDATA1, script.OP_PUSHDATA2.
        cbn [Z.leb Z.ltb Z.eqb Z.compare Pos.compare Pos.compare_cont Pos.eqb].
        in_script.
        rewrite byte_at_1, byte_at_2, size_byte_0, (size_byte size 8) by lia.
        rewrite two_bytes_join by (change (2 ^ 16) with 65536; lia).
        data_is_there.
        rewrite (skipn_past data_
                 [serialize.byte_of_Z 77;
                    serialize.byte_of_Z (Z.land (Z.of_nat (length data)) 255);
                    serialize.byte_of_Z
                      (Z.land (Z.shiftr (Z.of_nat (length data)) 8) 255)] data)
          by (cbn [length]; lia).
        apply firstn_all.
      * (* OP_PUSHDATA4 and four size bytes *)
        rewrite wrap_small by (change (2 ^ 32) with 4294967296; lia).
        unfold script.get_op. rewrite !length_app. cbn [length].
        in_script.
        cbn [app]. rewrite byte_at_0, Z_of_byte_of_Z. cbv zeta.
        change (78 mod 256) with 78.
        unfold script.OP_PUSHDATA4, script.OP_PUSHDATA1, script.OP_PUSHDATA2.
        cbn [Z.leb Z.ltb Z.eqb Z.compare Pos.compare Pos.compare_cont Pos.eqb].
        in_script.
        rewrite byte_at_1, byte_at_2, byte_at_3, byte_at_4.
        rewrite size_byte_0, (size_byte size 8), (size_byte size 16),
          (size_byte size 24) by lia.
        rewrite four_bytes_join by (change (2 ^ 32) with 4294967296; lia).
        data_is_there.
        rewrite (skipn_past data_
                 [serialize.byte_of_Z 78;
                    serialize.byte_of_Z (Z.land (Z.of_nat (length data)) 255);
                    serialize.byte_of_Z
                      (Z.land (Z.shiftr (Z.of_nat (length data)) 8) 255);
                    serialize.byte_of_Z
                      (Z.land (Z.shiftr (Z.of_nat (length data)) 16) 255);
                    serialize.byte_of_Z
                      (Z.land (Z.shiftr (Z.of_nat (length data)) 24) 255)] data)
          by (cbn [length]; lia).
        apply firstn_all.
Qed.

Lemma get_op_reads_back_pushed_data_witness :
  script.get_op (script.push_data (repeat xab 300) [x76; xa9]) 2
  = script.mkOp true (length (script.push_data (repeat xab 300) [x76; xa9]))
      (let size := Z.of_nat (length (repeat xab 300)) in
       if size <? 76 then size
       else if size <=? 0xff then script.OP_PUSHDATA1
       else if size <=? 0xffff then script.OP_PUSHDATA2
       else script.OP_PUSHDATA4)
      (repeat xab 300).
Proof.
  apply (get_op_reads_back_pushed_data (repeat xab 300) [x76; xa9]).
  - rewrite repeat_length. lia.
  - rewrite repeat_length. cbn. lia.
Defined.

Lemma Z_of_byte_range (b : serialize.byte_t) :
  0 <= serialize.Z_of_byte b < 256.
Proof.
  unfold serialize.Z_of_byte. pose proof (Byte.to_N_bounded b) as Hb. lia.
Qed.

(** X28.  Seventy-six bytes are pushed with the single size byte 0x4c,
    which [get_op] reads as OP_PUSHDATA1: it takes the first data byte for
    the size, so it fails when that byte is above 75 and otherwise returns
    that many of the bytes that follow it, never the 76 bytes pushed. *)
Theorem get_op_misreads_a_push_of_76_bytes
    (data : list serialize.byte_t) (data_ : script.Script) :
  length data = 76%nat ->
  let r := script.get_op (script.push_data data data_) (length data_) in
  let nSize := serialize.Z_of_byte (hd x00 data) in
  r = (if 75 <? nSize
       then script.mkOp false (length data_ + 2) script.OP_INVALIDOPCODE []
       else script.mkOp true (length data_ + 2 + Z.to_nat nSize)
              script.OP_PUSHDATA1 (firstn (Z.to_nat nSize) (tl data)))
  /\ (length (script.vchRet r) < 76)%nat.
Proof.
  intros Hlen. cbv zeta.
  destruct data as [|b data]; [discriminate|]. cbn [hd tl].
  cbn [length] in Hlen.
  pose proof (Z_of_byte_range b) as Hb.
  assert (E : script.get_op (script.push_data (b :: data) data_)
                (length data_)
              = if 75 <? serialize.Z_of_byte b
                then script.mkOp false (length data_ + 2)
                       script.OP_INVALIDOPCODE []
                else script.mkOp true
                       (length data_ + 2 + Z.to_nat (serialize.Z_of_byte b))
                       script.OP_PUSHDATA1
                       (firstn (Z.to_nat (serialize.Z_of_byte b)) data)).
  { unfold script.push_data. cbv zeta. cbn [length]. rewrite Hlen.
    change (Z.of_nat 76 <=? script.OP_PUSHDATA1) with true. cbv iota.
    change (Z.of_nat 76) with 76.
    unfold script.get_op. rewrite !length_app. cbn [length app].
    in_script.
    rewrite byte_at_0, Z_of_byte_of_Z. cbv zeta.
    change (76 mod 256) with 76.
    unfold script.OP_PUSHDATA4, script.OP_PUSHDATA1.
    cbn [Z.leb Z.ltb Z.eqb Z.compare Pos.compare Pos.compare_cont Pos.eqb].
    in_script.
    rewrite byte_at_1.
    match goal with
    | |- context [Z.of_nat ?n <? _] => replace n with 75%nat by lia
    end.
    change (Z.of_nat 75) with 75.
    destruct (75 <? serialize.Z_of_byte b); f_equal; try lia.
    rewrite (skipn_past data_ [serialize.byte_of_Z 76; b] data)
      by (cbn [length]; lia).
    reflexivity. }
  rewrite E. split; [reflexivity|].
  destruct (Z.ltb_spec 75 (serialize.Z_of_byte b)) as [_|Hle];
    cbn [script.vchRet length]; [lia|].
  rewrite length_firstn. lia.
Qed.

Lemma get_op_misreads_a_push_of_76_bytes_witness :
  script.get_op (script.push_data (repeat x01 76) [xa9]) 1
  = script.mkOp true 4 script.OP_PUSHDATA1 [x01]
  /\ (length (script.vchRet
                (script.get_op (script.push_data (repeat x01 76) [xa9]) 1))
      < 76)%nat.
Proof.
  exact (get_op_misreads_a_push_of_76_bytes (repeat x01 76) [xa9]
           eq_refl).
Defined.
